(** * Dreamer core of sheeprl: a shallow embedding and its properties

    The numerical kernels of the repository (lambda returns, two-hot targets,
    unimix smoothing, the RSSM reset logic, the player state, the target
    network moving average and the actor's configuration checks) are
    translated function by function.

    Conventions used throughout:
    - a float is idealised as a real number ([R]); every statement below is
      about exact arithmetic;
    - a Python exception is a [Raise] in the [result] monad;
    - neural networks, whose layers live outside the translated files, are
      section variables acting on one batch row at a time. *)

From Stdlib Require Import Reals Lra Lia List Bool Arith ZArith.
From Stdlib Require String Ascii.
Import ListNotations.

Set Implicit Arguments.

(** ** Exceptions and the result monad *)

Inductive exn : Type :=
| ValueError
| RuntimeError
| IndexError.

Inductive result (A : Type) : Type :=
| Ok (a : A)
| Raise (e : exn).

Arguments Ok {A} a.
Arguments Raise {A} e.

Definition bind {A B : Type} (m : result A) (k : A -> result B) : result B :=
  match m with
  | Ok a => k a
  | Raise e => Raise e
  end.

Notation "x <- m ;; k" := (bind m (fun x => k))
  (at level 61, m at next level, right associativity).

(** ** Rows and time-major tensors *)

(** One batch row (the trailing feature axis), and a tensor whose leading
    axis is enumerated by the outer list. *)
Abbreviation row := (list R).
Abbreviation tensor := (list (list R)).

Fixpoint zipM {A B C : Type} (f : A -> B -> result C) (a : list A) (b : list B)
  : result (list C) :=
  match a, b with
  | [], [] => Ok []
  | x :: a', y :: b' =>
      z <- f x y ;; zs <- zipM f a' b' ;; Ok (z :: zs)
  | _, _ => Raise RuntimeError
  end.

Fixpoint mapM {A B : Type} (f : A -> result B) (a : list A) : result (list B) :=
  match a with
  | [] => Ok []
  | x :: a' => z <- f x ;; zs <- mapM f a' ;; Ok (z :: zs)
  end.

(** Element-wise binary operation on operands of one shape; operands of
    different sizes raise (torch's size-1 broadcasting is not modelled). *)
Definition ew (f : R -> R -> R) : row -> row -> result row :=
  zipM (fun x y => Ok (f x y)).

Definition tew (f : R -> R -> R) : tensor -> tensor -> result tensor :=
  zipM (ew f).

(** [t[i]] for a non-negative [i]. *)
Definition index {A : Type} (l : list A) (i : nat) : result A :=
  match nth_error l i with
  | Some x => Ok x
  | None => Raise IndexError
  end.

(** A Python index into a sequence of [n] items: negative indices count from
    the end, anything outside raises. *)
Definition py_index (n : nat) (i : Z) : result nat :=
  if ((0 <=? i) && (i <? Z.of_nat n))%Z then Ok (Z.to_nat i)
  else if ((- Z.of_nat n <=? i) && (i <? 0))%Z then Ok (Z.to_nat (Z.of_nat n + i))
  else Raise IndexError.

(** Total row operations, used on the specification side. *)
Fixpoint zipw (f : R -> R -> R) (a b : row) : row :=
  match a, b with
  | x :: a', y :: b' => f x y :: zipw f a' b'
  | _, _ => []
  end.

Definition radd : row -> row -> row := zipw Rplus.
Definition rmul : row -> row -> row := zipw Rmult.
Definition rscale (k : R) (a : row) : row := map (fun x => k * x)%R a.

(** Sum of the entries of a row. *)
Fixpoint rsum (a : row) : R :=
  match a with
  | [] => 0%R
  | x :: a' => (x + rsum a')%R
  end.

(** [shaped T B t]: [t] has [T] rows of [B] entries. *)
Definition shaped (T B : nat) (t : tensor) : Prop :=
  length t = T /\ Forall (fun r => length r = B) t.

(** ** sheeprl/algos/dreamer_v2/utils.py : compute_lambda_values *)

Module LambdaValues.

Local Open Scope R_scope.

(** [values[-1:]] *)
Definition last_slice (t : tensor) : tensor :=
  match t with
  | [] => []
  | _ => [last t []]
  end.

Definition zeros_like (t : tensor) : tensor := map (map (fun _ => 0)) t.

(** One pass of the loop body:
    [agg = inputs[i] + continues[i] * lmbda * agg; lv.append(agg)]. *)
Definition lambda_step (inputs continues : tensor) (lmbda : R) (i : nat)
    (agg : tensor) : result tensor :=
  inp <- index inputs i ;;
  c <- index continues i ;;
  mapM (fun a => m <- ew Rmult (map (fun x => x * lmbda) c) a ;; ew Rplus inp m) agg.

(** The loop [for i in reversed(range(horizon))], over the index list. *)
Fixpoint lambda_loop (inputs continues : tensor) (lmbda : R) (idx : list nat)
    (agg : tensor) (lv : list tensor) : result (list tensor) :=
  match idx with
  | [] => Ok lv
  | i :: rest =>
      agg' <- lambda_step inputs continues lmbda i agg ;;
      lambda_loop inputs continues lmbda rest agg' (lv ++ [agg'])
  end.

(** [torch.cat(ts, dim=0)]; an empty list of tensors raises. *)
Definition cat0 (ts : list tensor) : result tensor :=
  match ts with
  | [] => Raise RuntimeError
  | _ => Ok (concat ts)
  end.

Definition compute_lambda_values (rewards values continues : tensor)
    (bootstrap : option tensor) (horizon : nat) (lmbda : R) : result tensor :=
  let bootstrap :=
    match bootstrap with
    | None => zeros_like (last_slice values)
    | Some b => b
    end in
  let agg := bootstrap in
  let next_val := tl values ++ bootstrap in
  cn <- tew Rmult continues next_val ;;
  inputs <- tew Rplus rewards (map (map (fun x => x * (1 - lmbda))) cn) ;;
  lv <- lambda_loop inputs continues lmbda (rev (seq 0 horizon)) agg [] ;;
  cat0 (rev lv).

(** The recursion of the specification, one step:
    [r_t + c_t * ((1 - lambda) * V_{t+1} + lambda * G_{t+1})]. *)
Definition spec_step (lmbda : R) (rt ct vnext gnext : row) : row :=
  radd rt (rmul ct (radd (rscale (1 - lmbda) vnext) (rscale lmbda gnext))).

Section Recursion.

Variables (H : nat) (lmbda : R).
Variables (rewards values continues : tensor) (b : row).

(** [V_t] for [t < H], and the bootstrap at [t = H]. *)
Definition V (t : nat) : row := if (t <? H)%nat then nth t values [] else b.

(** The returns of the specification, [fuel] steps before the horizon. *)
Fixpoint G_from (fuel t : nat) : row :=
  match fuel with
  | O => b
  | S fuel' =>
      spec_step lmbda (nth t rewards []) (nth t continues []) (V (S t)) (G_from fuel' (S t))
  end.

Definition G (t : nat) : row := G_from (H - t) t.

End Recursion.

End LambdaValues.

(** ** sheeprl/utils/distribution.py : TwoHotEncodingDistribution *)

Module TwoHot.

Local Open Scope R_scope.

Definition Rleb (a b : R) : bool := if Rle_dec a b then true else false.
Definition Rltb (a b : R) : bool := if Rlt_dec a b then true else false.

(** [torch.linspace(low, high, n)] in exact arithmetic. *)
Definition bin (low high : R) (n i : nat) : R :=
  low + INR i * ((high - low) / INR (n - 1)).

Definition linspace (low high : R) (n : nat) : list R :=
  map (bin low high n) (seq 0 n).

(** [torch.clip(v, lo, hi)] on integers. *)
Definition clip (v lo hi : Z) : Z := Z.min (Z.max v lo) hi.

(** [bins[i]] for an integer index. *)
Definition tindex (bins : list R) (i : Z) : result R :=
  j <- py_index (length bins) i ;; index bins j.

(** [F.one_hot(i, n)]: class values must lie in [0, n). *)
Definition one_hot (i : Z) (n : nat) : result (list R) :=
  if ((0 <=? i) && (i <? Z.of_nat n))%Z
  then Ok (map (fun k => if (Z.of_nat k =? i)%Z then 1 else 0) (seq 0 n))
  else Raise RuntimeError.

Section Distribution.

Variable logits : list R.
Variables low high : R.
Variable transfwd : R -> R.

Definition bins : list R := linspace low high (length logits).

(** [below] and [above] after clipping, for the transformed target [x]. *)
Definition below_index (x : R) : Z :=
  let below := (Z.of_nat (length (filter (fun b => Rleb b x) bins)) - 1)%Z in
  clip below 0 (Z.of_nat (length bins) - 1).

Definition above_index (x : R) : Z :=
  let above :=
    (Z.of_nat (length bins) - Z.of_nat (length (filter (fun b => Rltb x b) bins)))%Z in
  clip above 0 (Z.of_nat (length bins) - 1).

(** The [target] vector built inside [log_prob] for a scalar [x]. *)
Definition two_hot_target (x : R) : result (list R) :=
  let x := transfwd x in
  let below := below_index x in
  let above := above_index x in
  let equal := (below =? above)%Z in
  bb <- tindex bins below ;;
  ba <- tindex bins above ;;
  let dist_to_below := if equal then 1 else Rabs (bb - x) in
  let dist_to_above := if equal then 1 else Rabs (ba - x) in
  let total := dist_to_below + dist_to_above in
  let weight_below := dist_to_above / total in
  let weight_above := dist_to_below / total in
  ohb <- one_hot below (length bins) ;;
  oha <- one_hot above (length bins) ;;
  Ok (zipw Rplus (map (fun v => v * weight_below) ohb)
                 (map (fun v => v * weight_above) oha)).

Definition log_prob (x : R) : result R :=
  target <- two_hot_target x ;;
  let lse := ln (rsum (map exp logits)) in
  let log_pred := map (fun l => l - lse) logits in
  Ok (rsum (zipw Rmult target log_pred)).

End Distribution.

(** The vector with weight [w] on bin [i], [w'] on bin [j] and zero elsewhere
    (weights on a common bin add up). *)
Definition two_bins (n i j : nat) (w w' : R) : list R :=
  map (fun k => (if Nat.eqb k i then w else 0) + (if Nat.eqb k j then w' else 0))
      (seq 0 n).

(** All weight on bin [i]. *)
Definition one_bin (n i : nat) : list R :=
  map (fun k => if Nat.eqb k i then 1 else 0) (seq 0 n).

End TwoHot.

(** ** sheeprl/algos/sac_pixel/agent.py : SACPixelAgent.qfs_target_ema *)

Module SACPixel.

Local Open Scope R_scope.

(** The agent as far as the moving average is concerned: the parameter
    tensors of the online critics and of their deep copy, in the order of
    [parameters()], each flattened to a row. *)
Record SACPixelAgent : Type := mkAgent {
  qfs_unwrapped : list row;
  qfs_target : list row;
  _tau : R
}.

(** [__init__]: the target critics are [copy.deepcopy] of the online ones. *)
Definition init (critics : list row) (tau : R) : SACPixelAgent :=
  {| qfs_unwrapped := critics; qfs_target := critics; _tau := tau |}.

(** [target_param.data.copy_(tau * param.data + (1 - tau) * target_param.data)] *)
Definition ema_param (tau : R) (param target_param : row) : result row :=
  ew Rplus (map (fun x => tau * x) param) (map (fun x => (1 - tau) * x) target_param).

(** The loop over [zip(params, target_params)]: it stops with the shorter
    sequence and leaves the remaining targets as they are. *)
Fixpoint ema_loop (tau : R) (params targets : list row) : result (list row) :=
  match params, targets with
  | p :: params', t :: targets' =>
      t' <- ema_param tau p t ;;
      rest <- ema_loop tau params' targets' ;;
      Ok (t' :: rest)
  | _, _ => Ok targets
  end.

Definition qfs_target_ema (a : SACPixelAgent) : result SACPixelAgent :=
  targets <- ema_loop (_tau a) (qfs_unwrapped a) (qfs_target a) ;;
  Ok {| qfs_unwrapped := qfs_unwrapped a; qfs_target := targets; _tau := _tau a |}.

(** Online and target parameters have the same structure; this holds after
    [init] and is what a gradient step and [qfs_target_ema] preserve. *)
Definition same_structure (a : SACPixelAgent) : Prop :=
  Forall2 (fun p t => length p = length t) (qfs_unwrapped a) (qfs_target a).

(** The update the specification prescribes for one parameter tensor. *)
Definition ema_spec (tau : R) (param target_param : row) : row :=
  zipw (fun p t => tau * p + (1 - tau) * t) param target_param.

End SACPixel.

(** ** sheeprl/algos/dreamer_v3/agent.py : RSSM, PlayerDV3, Actor *)

Module DreamerV3.

Local Open Scope R_scope.

(** *** Contiguous tensors with a shape *)

Record Tensor : Type := mkTensor {
  shape : list nat;
  data : list R
}.

Definition dim (t : Tensor) : nat := length (shape t).

Definition numel (s : list nat) : nat := fold_right Nat.mul 1%nat s.

Definition well_formed (t : Tensor) : Prop := length (data t) = numel (shape t).

(** Consecutive slices of [k] entries of a flat buffer: the slices along the
    last axis when that axis has size [k]. *)
Fixpoint chunks_fuel (fuel k : nat) (l : list R) : list row :=
  match fuel with
  | O => []
  | S fuel' =>
      match l with
      | [] => []
      | _ => firstn k l :: chunks_fuel fuel' k (skipn k l)
      end
  end.

Definition chunks (k : nat) (l : list R) : list row := chunks_fuel (length l) k l.

(** [t.view( *t.shape[:-1], -1, k)] *)
Definition view_split_last (t : Tensor) (k : nat) : result Tensor :=
  let pre := removelast (shape t) in
  let m := (numel pre * k)%nat in
  if (m =? 0)%nat then Raise RuntimeError
  else if (numel (shape t) mod m =? 0)%nat
       then Ok {| shape := pre ++ [(numel (shape t) / m)%nat; k]; data := data t |}
       else Raise RuntimeError.

(** [t.view( *t.shape[:-2], -1)] *)
Definition view_merge_last2 (t : Tensor) : result Tensor :=
  let pre := firstn (length (shape t) - 2) (shape t) in
  let m := numel pre in
  if (m =? 0)%nat then Raise RuntimeError
  else if (numel (shape t) mod m =? 0)%nat
       then Ok {| shape := pre ++ [(numel (shape t) / m)%nat]; data := data t |}
       else Raise RuntimeError.

(** *** torch primitives on one slice along the last axis *)

Definition softmax (l : row) : row :=
  let s := rsum (map exp l) in map (fun x => exp x / s) l.

(** [torch.distributions.utils.clamp_probs] and [probs_to_logits];
    [eps] is [torch.finfo(dtype).eps]. *)
Definition clamp_probs (eps p : R) : R := Rmin (Rmax p eps) (1 - eps).

Definition probs_to_logits (eps : R) (probs : row) : row :=
  map (fun p => ln (clamp_probs eps p)) probs.

(** The body of the [if unimix > 0] branch on one slice; [k] is the divisor of
    the uniform term. *)
Definition mix_slice (eps unimix : R) (k : nat) (logits : row) : row :=
  let probs := softmax logits in
  let probs := map (fun p => (1 - unimix) * p + unimix * (1 / INR k)) probs in
  probs_to_logits eps probs.

(** The same body on a whole tensor: [softmax(dim=-1)] works slice by slice
    along the last axis. *)
Definition mix_tensor (eps unimix : R) (k : nat) (t : Tensor) : Tensor :=
  {| shape := shape t;
     data := concat (map (mix_slice eps unimix k) (chunks (last (shape t) 0%nat) (data t))) |}.

(** Class probabilities of [Categorical(logits=l)], per slice. *)
Definition categorical_probs (k : nat) (l : list R) : list row :=
  map softmax (chunks k l).

(** The shapes [RSSM._uniform_mix] is written for: [T, B, N * discrete] and
    [T, B, N, discrete], with a non-empty batch. *)
Definition rssm_supported (discrete : nat) (s : list nat) : Prop :=
  match s with
  | [t; b; d] => (0 < t * b)%nat /\ (0 < discrete)%nat /\ (d mod discrete = 0)%nat
  | [t; b; _; k] => (0 < t * b)%nat /\ (0 < discrete)%nat /\ k = discrete
  | _ => False
  end.

Fixpoint imap_from {A B : Type} (f : nat -> A -> B) (i : nat) (l : list A) : list B :=
  match l with
  | [] => []
  | x :: l' => f i x :: imap_from f (S i) l'
  end.

Fixpoint imapM_from {A B : Type} (f : nat -> A -> result B) (i : nat) (l : list A)
  : result (list B) :=
  match l with
  | [] => Ok []
  | x :: l' => z <- f i x ;; zs <- imapM_from f (S i) l' ;; Ok (z :: zs)
  end.

(** [OneHotCategorical.mode]: the one-hot vector of [argmax], the first
    maximal entry; stated on the logits, whose order is that of the
    probabilities. *)
Fixpoint argmax_from (best : R) (besti i : nat) (l : row) : nat :=
  match l with
  | [] => besti
  | x :: l' =>
      if Rlt_dec best x then argmax_from x i (S i) l'
      else argmax_from best besti (S i) l'
  end.

Definition argmax (l : row) : nat :=
  match l with
  | [] => 0%nat
  | x :: l' => argmax_from x 0 1 l'
  end.

Definition one_hot_mode (l : row) : row :=
  map (fun k => if Nat.eqb k (argmax l) then 1 else 0) (seq 0 (length l)).

(** A batched tensor of shape [1, B, D] is the list of its [B] rows; one row
    is the tensor of shape [1, 1, D]. *)
Definition tensor3 (r : row) : Tensor := {| shape := [1%nat; 1%nat; length r]; data := r |}.

Section Models.

(** Source of randomness of one categorical draw. *)
Variable noise : Type.

(** [OneHotCategoricalStraightThrough]: the mode of one categorical variable
    given its logits, and a reparameterised sample given the randomness. *)
Variable mode_of : row -> row.
Variable rsample : noise -> row -> row.

(** [torch.finfo(dtype).eps] *)
Variable eps : R.

(** sheeprl/algos/dreamer_v2/utils.py : compute_stochastic_state.
    [sample = None] is [sample=False]; [Some xi] is [sample=True] with the
    randomness [xi j] for the [j]-th categorical variable. *)
Definition compute_stochastic_state (logits : Tensor) (discrete : nat)
    (sample : option (nat -> noise)) : result Tensor :=
  logits <- view_split_last logits discrete ;;
  Ok {| shape := shape logits;
        data := concat (imap_from (fun j l =>
                          match sample with
                          | Some xi => rsample (xi j) l
                          | None => mode_of l
                          end) 0 (chunks discrete (data logits))) |}.

(** *** RSSM *)

Variable recurrent_model : row -> row -> row.
Variable representation_model : row -> row.
Variable transition_model : row -> row.
Variable discrete : nat.
Variable unimix : R.

Definition RSSM_uniform_mix (logits : Tensor) : result Tensor :=
  let d := dim logits in
  logits <- (if (d =? 3)%nat then view_split_last logits discrete
             else if negb (d =? 4)%nat then Raise RuntimeError
             else Ok logits) ;;
  let logits := if Rlt_dec 0 unimix then mix_tensor eps unimix discrete logits
                else logits in
  view_merge_last2 logits.

(** [_representation] and [_transition] on one batch row. *)
Definition RSSM_representation_row (recurrent_state embedded_obs : row)
    (xi : nat -> noise) : result (row * row) :=
  logits <- RSSM_uniform_mix (tensor3 (representation_model (recurrent_state ++ embedded_obs))) ;;
  st <- compute_stochastic_state logits discrete (Some xi) ;;
  Ok (data logits, data st).

Definition RSSM_transition_row (recurrent_out : row) (sample_state : option (nat -> noise))
  : result (row * row) :=
  logits <- RSSM_uniform_mix (tensor3 (transition_model recurrent_out)) ;;
  st <- compute_stochastic_state logits discrete sample_state ;;
  Ok (data logits, data st).

(** The stochastic state of an episode start: the mode of the prior for the
    recurrent state [h]. *)
Definition prior_mode (h : row) : row :=
  match RSSM_transition_row h None with
  | Ok (_, st) => st
  | Raise _ => []
  end.

(** The batched versions: position [i] of the batch draws with [xi i]. *)
Definition RSSM_transition (recurrent_out : list row)
    (sample_state : option (nat -> nat -> noise)) : result (list row * list row) :=
  rs <- imapM_from (fun i h => RSSM_transition_row h (option_map (fun xi => xi i) sample_state))
                   0 recurrent_out ;;
  Ok (split rs).

Definition RSSM_representation (recurrent_state embedded_obs : list row)
    (xi : nat -> nat -> noise) : result (list row * list row) :=
  he <- zipM (fun h e => Ok (h, e)) recurrent_state embedded_obs ;;
  rs <- imapM_from (fun i he => RSSM_representation_row (fst he) (snd he) (xi i)) 0 he ;;
  Ok (split rs).

(** [(1 - is_first) * x + is_first * y] at one position. *)
Definition blend (f : R) (x y : row) : result row :=
  ew Rplus (map (fun v => (1 - f) * v) x) (map (fun v => f * v) y).

(** The first four statements of [dynamic]: the action, the recurrent state
    and the (flattened) stochastic state that the recurrent model is then
    applied to. *)
Definition dynamic_reset (posterior : list (list row)) (recurrent_state action : list row)
    (is_first : list R) : result (list row * list row * list row) :=
  action <- zipM (fun f a => Ok (map (fun v => (1 - f) * v) a)) is_first action ;;
  recurrent_state <-
    zipM (fun f h => blend f h (map tanh (map (fun _ => 0) h))) is_first recurrent_state ;;
  let posterior := map (@concat R) posterior in
  prior <- RSSM_transition recurrent_state None ;;
  fp <- zipM (fun f p => Ok (f, p)) is_first posterior ;;
  posterior <-
    zipM (fun fp pr =>
            if (length pr =? length (snd fp))%nat then blend (fst fp) (snd fp) pr
            else Raise RuntimeError) fp (snd prior) ;;
  Ok (action, recurrent_state, posterior).

Definition dynamic (posterior : list (list row))
    (recurrent_state action embedded_obs : list row) (is_first : list R)
    (xi_prior xi_posterior : nat -> nat -> noise)
  : result (list row * list row * list row * list row * list row) :=
  used <- dynamic_reset posterior recurrent_state action is_first ;;
  let '(action, recurrent_state, posterior) := used in
  pa <- zipM (fun p a => Ok (p ++ a)) posterior action ;;
  recurrent_state <- zipM (fun x h => Ok (recurrent_model x h)) pa recurrent_state ;;
  prior <- RSSM_transition recurrent_state (Some xi_prior) ;;
  post <- RSSM_representation recurrent_state embedded_obs xi_posterior ;;
  Ok (recurrent_state, snd post, snd prior, fst post, fst prior).

Definition imagination (prior recurrent_state actions : list row)
    (xi : nat -> nat -> noise) : result (list row * list row) :=
  pa <- zipM (fun p a => Ok (p ++ a)) prior actions ;;
  recurrent_state <- zipM (fun x h => Ok (recurrent_model x h)) pa recurrent_state ;;
  imagined <- RSSM_transition recurrent_state (Some xi) ;;
  Ok (snd imagined, recurrent_state).

(** *** PlayerDV3 *)

(** An index Python accepts for a sequence of [n] items. *)
Definition valid_index (n : nat) (i : Z) : Prop := (- Z.of_nat n <= i < Z.of_nat n)%Z.

(** Whether environment [j] is named by one of the indices. *)
Definition indicated (n : nat) (reset_envs : list Z) (j : nat) : bool :=
  existsb (fun i => match py_index n i with
                    | Ok j' => Nat.eqb j' j
                    | Raise _ => false
                    end) reset_envs.

Record PlayerDV3 : Type := mkPlayer {
  actions : list row;
  recurrent_state : list row;
  stochastic_state : list row;
  num_envs : nat;
  actions_dim : list nat;
  recurrent_state_size : nat
}.

(** [t[:, idxs]] *)
Definition gather (t : list row) (idxs : list Z) : result (list row) :=
  mapM (fun i => j <- py_index (length t) i ;; index t j) idxs.

Fixpoint replace_nth (j : nat) (v : row) (t : list row) : list row :=
  match t, j with
  | [], _ => []
  | _ :: t', O => v :: t'
  | x :: t', S j' => x :: replace_nth j' v t'
  end.

(** [t[:, idxs] = vals]: row by row, each value of the size of the row it
    replaces. *)
Fixpoint assign_rows (t : list row) (idxs : list Z) (vals : list row) : result (list row) :=
  match idxs, vals with
  | [], [] => Ok t
  | i :: idxs', v :: vals' =>
      j <- py_index (length t) i ;;
      old <- index t j ;;
      if (length v =? length old)%nat then assign_rows (replace_nth j v t) idxs' vals'
      else Raise RuntimeError
  | _, _ => Raise RuntimeError
  end.

Definition zeros_like (t : list row) : list row := map (map (fun _ => 0)) t.

(** The branch [reset_envs is None or len(reset_envs) == 0]. *)
Definition init_states_all (p : PlayerDV3) : result PlayerDV3 :=
  let actions' := repeat (repeat 0 (list_sum (actions_dim p))) (num_envs p) in
  let recurrent_state' :=
    map (map tanh) (repeat (repeat 0 (recurrent_state_size p)) (num_envs p)) in
  prior <- RSSM_transition recurrent_state' None ;;
  Ok {| actions := actions';
        recurrent_state := recurrent_state';
        stochastic_state := snd prior;
        num_envs := num_envs p;
        actions_dim := actions_dim p;
        recurrent_state_size := recurrent_state_size p |}.

(** The [else] branch. *)
Definition init_states_some (p : PlayerDV3) (reset_envs : list Z) : result PlayerDV3 :=
  a_sel <- gather (actions p) reset_envs ;;
  actions' <- assign_rows (actions p) reset_envs (zeros_like a_sel) ;;
  h_sel <- gather (recurrent_state p) reset_envs ;;
  recurrent_state' <-
    assign_rows (recurrent_state p) reset_envs (map (map tanh) (zeros_like h_sel)) ;;
  h_new <- gather recurrent_state' reset_envs ;;
  prior <- RSSM_transition h_new None ;;
  stochastic_state' <- assign_rows (stochastic_state p) reset_envs (snd prior) ;;
  Ok {| actions := actions';
        recurrent_state := recurrent_state';
        stochastic_state := stochastic_state';
        num_envs := num_envs p;
        actions_dim := actions_dim p;
        recurrent_state_size := recurrent_state_size p |}.

Definition init_states (p : PlayerDV3) (reset_envs : option (list Z)) : result PlayerDV3 :=
  match reset_envs with
  | None => init_states_all p
  | Some l => if (length l =? 0)%nat then init_states_all p else init_states_some p l
  end.

(** *** Actor._uniform_mix *)

Variable _unimix : R.

Definition Actor_uniform_mix (logits : Tensor) : result Tensor :=
  if Rlt_dec 0 _unimix then
    match shape logits with
    | [] => Raise IndexError
    | _ => Ok (mix_tensor eps _unimix (last (shape logits) 0%nat) logits)
    end
  else Ok logits.

End Models.

(** *** Actor.__init__ : the checks on the configured distribution *)

Section ActorInit.

Import String Ascii.
Local Open Scope string_scope.

Definition lower_ascii (c : ascii) : ascii :=
  let n := nat_of_ascii c in
  if ((65 <=? n) && (n <=? 90))%nat then ascii_of_nat (n + 32) else c.

(** [str.lower] on the ASCII range. *)
Fixpoint lower (s : string) : string :=
  match s with
  | EmptyString => EmptyString
  | String c s' => String (lower_ascii c) (lower s')
  end.

Definition distributions : list string :=
  ["auto"; "normal"; "tanh_normal"; "discrete"; "trunc_normal"].

Definition mem (s : string) (l : list string) : bool := existsb (String.eqb s) l.

(** The part of [__init__] that settles [self.distribution]; the result is
    the stored distribution name. *)
Definition Actor_init (distribution : string) (is_continuous : bool) : result string :=
  let distribution := lower distribution in
  if negb (mem distribution distributions) then Raise ValueError
  else if (distribution =? "discrete") && is_continuous then Raise ValueError
  else if distribution =? "auto" then
         (if is_continuous then Ok "trunc_normal" else Ok "discrete")
  else Ok distribution.

End ActorInit.

End DreamerV3.

(** ** A small instance of the networks

    One categorical variable with two classes, no unimix.  The recurrent
    model answers with 1/2 in every coordinate, the transition model with the
    logits [1, 0] and the representation model with the logits [0, 1].  The
    mode is torch's; the sampler draws the most likely class. *)

Module Toy.

Local Open Scope R_scope.

Definition mode_of : row -> row := DreamerV3.one_hot_mode.
Definition rsample (_ : unit) (l : row) : row := DreamerV3.one_hot_mode l.
Definition recurrent_model (_ h : row) : row := map (fun _ => 1 / 2) h.
Definition transition_model (_ : row) : row := [1; 0].
Definition representation_model (_ : row) : row := [0; 1].
Definition eps : R := 1 / 4.
Definition discrete : nat := 2.
Definition unimix : R := 0.
Definition xi (_ _ : nat) : unit := tt.

End Toy.

(** ** sheeprl/utils/distribution.py : TwoHotEncodingDistribution.mean, .mode *)

Module TwoHotMean.

Local Open Scope R_scope.

(** [self.probs = F.softmax(logits, dim=-1)] *)
Definition probs (logits : list R) : list R := DreamerV3.softmax logits.

(** [(self.probs * self.bins).sum(dim=self.dims, keepdim=True)] for one
    distribution with [dims = 1], the sum running over the bins: the
    predicted scalar before [transbwd]. *)
Definition expected_bin (logits : list R) (low high : R) : R :=
  rsum (zipw Rmult (probs logits) (TwoHot.bins logits low high)).

Definition mean (logits : list R) (low high : R) (transbwd : R -> R) : R :=
  transbwd (expected_bin logits low high).

Definition mode (logits : list R) (low high : R) (transbwd : R -> R) : R :=
  transbwd (expected_bin logits low high).

End TwoHotMean.

(** ** sheeprl/algos/sac_pixel/agent.py : SACPixelContinuousActor and the
       target values of SACPixelAgent *)

Module SACPixelMore.

Import SACPixel.
Local Open Scope R_scope.

Definition LOG_STD_MAX : R := 2.
Definition LOG_STD_MIN : R := -10.

(** [torch.clamp(x, lo, hi)] *)
Definition clamp (lo hi x : R) : R := Rmin (Rmax x lo) hi.

(** [Normal(mean, std).log_prob(x)] at one entry. *)
Definition normal_log_prob (mean std x : R) : R :=
  - ((x - mean) ^ 2) / (2 * std ^ 2) - ln std - ln (sqrt (2 * PI)).

Section Actor.

(** One observation, and the two linear heads behind the shared trunk
    [model(after_conv(feature_extractor(obs)))]. *)
Variable obs : Type.
Variables fc_mean fc_logstd : obs -> row.
Variables action_low action_high : R.

Definition action_scale : R := (action_high - action_low) / 2.
Definition action_bias : R := (action_high + action_low) / 2.

(** [normal.rsample()]: [mean + eps * std] with a standard normal draw [eps]. *)
Definition rsample (m s e : R) : R := m + e * s.

Definition squash (x_t : R) : R := tanh x_t * action_scale + action_bias.

(** The argument of the logarithm of the change of variable. *)
Definition log_argument (x_t : R) : R :=
  action_scale * (1 - tanh x_t ^ 2) + 1 / 1000000.

Definition log_prob_entry (m s e : R) : R :=
  let x_t := rsample m s e in
  normal_log_prob m s x_t - ln (log_argument x_t).

(** [mean], [std] and the draw have one entry per action dimension. *)
Definition get_actions_and_log_probs (mean std eps : row) : row * R :=
  let mse := combine mean (combine std eps) in
  (map (fun t => squash (rsample (fst t) (fst (snd t)) (snd (snd t)))) mse,
   rsum (map (fun t => log_prob_entry (fst t) (fst (snd t)) (snd (snd t))) mse)).

Definition forward_std (o : obs) : row :=
  map (fun l => exp (clamp LOG_STD_MIN LOG_STD_MAX l)) (fc_logstd o).

Definition forward (o : obs) (eps : row) : row * R :=
  get_actions_and_log_probs (fc_mean o) (forward_std o) eps.

Definition get_greedy_actions (o : obs) : row :=
  map (fun m => tanh m * action_scale + action_bias) (fc_mean o).

End Actor.

Section Agent.

Variable obs : Type.
(** [self.actor(obs)] given the draw of its [rsample]. *)
Variable actor : obs -> row -> row * R.
(** [get_target_q_values]: the outputs of all target critics, concatenated. *)
Variable get_target_q_values : obs -> row -> row.
Variable log_alpha : R.

Definition alpha : R := exp log_alpha.

(** [torch.min(t, dim=-1)[0]]; an empty axis raises. *)
Definition row_min (l : row) : result R :=
  match l with
  | [] => Raise IndexError
  | x :: l' => Ok (fold_left Rmin l' x)
  end.

(** One transition of the batch. *)
Definition get_next_target_q_values (next_obs : obs) (eps : row) (rewards dones gamma : R)
  : result R :=
  let next := actor next_obs eps in
  let qf_next_target := get_target_q_values next_obs (fst next) in
  m <- row_min qf_next_target ;;
  let min_qf_next_target := m - alpha * snd next in
  Ok (rewards + (1 - dones) * gamma * min_qf_next_target).

End Agent.

(** [k] calls of [qfs_target_ema] in a row, the online critics untouched in
    between. *)
Fixpoint qfs_target_ema_times (k : nat) (a : SACPixelAgent) : result SACPixelAgent :=
  match k with
  | O => Ok a
  | S k' => a' <- qfs_target_ema a ;; qfs_target_ema_times k' a'
  end.

End SACPixelMore.

(** ** sheeprl/algos/dreamer_v3/agent.py : PlayerDV3.get_greedy_action,
       PlayerDV3.get_exploration_action *)

Module DreamerV3More.

Import DreamerV3.
Local Open Scope R_scope.

(** [torch.cat(heads, -1)] for the heads of one environment; an empty
    sequence of heads raises. *)
Definition cat_heads (heads : list row) : result row :=
  match heads with
  | [] => Raise RuntimeError
  | _ => Ok (concat heads)
  end.

(** [torch.clip(x, -1, 1)] *)
Definition clip_unit (x : R) : R := Rmin (Rmax x (-1)) 1.

Section Player.

Variable noise : Type.
Variable mode_of : row -> row.
Variable rsample : noise -> row -> row.
Variable eps : R.
Variable recurrent_model : row -> row -> row.
Variables representation_model transition_model : row -> row.
Variables (discrete : nat) (unimix : R).

(** The fields of the player next to its states. *)
Variables (stochastic_size discrete_size : nat) (expl_amount : R).

(** [self.encoder] on the observations of the batch: one embedding per
    environment. *)
Variable obs : Type.
Variable encoder : obs -> list row.

(** [self.actor] on the latent state of one environment: its action heads,
    given [is_training] and the randomness of the draw (a [mask] is handed
    to the actor as it is and is part of this function). *)
Variable actor_noise : Type.
Variable actor : row -> bool -> actor_noise -> list row.

(** The new states of the player and, per environment, the action heads. *)
Definition get_greedy_action (p : PlayerDV3) (o : obs) (is_training : bool)
    (xi : nat -> nat -> noise) (zeta : nat -> actor_noise)
  : result (PlayerDV3 * list (list row)) :=
  let embedded_obs := encoder o in
  sa <- zipM (fun s a => Ok (s ++ a)) (stochastic_state p) (actions p) ;;
  recurrent_state' <- zipM (fun x h => Ok (recurrent_model x h)) sa (recurrent_state p) ;;
  post <- RSSM_representation mode_of rsample eps representation_model discrete unimix
            recurrent_state' embedded_obs xi ;;
  stochastic_state' <-
    mapM (fun s => if (length s =? stochastic_size * discrete_size)%nat then Ok s
                   else Raise RuntimeError) (snd post) ;;
  sh <- zipM (fun s h => Ok (s ++ h)) stochastic_state' recurrent_state' ;;
  let heads := imap_from (fun i x => actor x is_training (zeta i)) 0 sh in
  actions' <- mapM cat_heads heads ;;
  Ok ({| actions := actions';
         recurrent_state := recurrent_state';
         stochastic_state := stochastic_state';
         num_envs := num_envs p;
         actions_dim := actions_dim p;
         recurrent_state_size := recurrent_state_size p |}, heads).

(** The randomness of the exploration: the standard normal draws of
    [Normal(actions, expl_amount).sample()] per environment and entry, the uniform
    one-hot samples per environment and head, and the single [torch.rand]
    draw of each head, shared by all environments. *)
Record exploration_noise : Type := mkExploration {
  normal_draw : nat -> nat -> R;
  one_hot_draw : nat -> nat -> row -> row;
  rand_draw : nat -> R
}.

Definition get_exploration_action (p : PlayerDV3) (o : obs) (is_continuous : bool)
    (xi : nat -> nat -> noise) (zeta : nat -> actor_noise) (en : exploration_noise)
  : result (PlayerDV3 * list (list row)) :=
  greedy <- get_greedy_action p o true xi zeta ;;
  let p' := fst greedy in
  let heads := snd greedy in
  let with_actions a :=
    {| actions := a;
       recurrent_state := recurrent_state p';
       stochastic_state := stochastic_state p';
       num_envs := num_envs p';
       actions_dim := actions_dim p';
       recurrent_state_size := recurrent_state_size p' |} in
  if is_continuous then
    cat <- mapM cat_heads heads ;;
    let acts :=
      if Rlt_dec 0 expl_amount
      then imap_from (fun i a =>
                        imap_from (fun j m => clip_unit (m + normal_draw en i j * expl_amount))
                                  0 a)
                     0 cat
      else cat in
    Ok (with_actions acts, map (fun a => [a]) acts)
  else
    let expl :=
      imap_from (fun i hs =>
                   imap_from (fun k act =>
                                if Rlt_dec (rand_draw en k) expl_amount
                                then one_hot_draw en i k act else act) 0 hs)
                0 heads in
    cat <- mapM cat_heads expl ;;
    Ok (with_actions cat, expl).

End Player.

End DreamerV3More.

(** ** sheeprl/utils/distribution.py : TruncatedStandardNormal, TruncatedNormal,
       MSEDistribution *)

Module TruncatedNormal.

Local Open Scope R_scope.

Definition CONST_SQRT_2 : R := sqrt 2.
Definition CONST_INV_SQRT_2PI : R := 1 / sqrt (2 * PI).
Definition CONST_INV_SQRT_2 : R := 1 / sqrt 2.
Definition CONST_LOG_INV_SQRT_2PI : R := ln CONST_INV_SQRT_2PI.

Section Erf.

(** [Tensor.erf] and [Tensor.erfinv]. *)
Variables erf erfinv : R -> R.

(** [torch.finfo(dtype).eps] *)
Variable eps : R.

Definition _little_phi (x : R) : R := exp (- (x ^ 2) * (1 / 2)) * CONST_INV_SQRT_2PI.

Definition _big_phi (x : R) : R := 1 / 2 * (1 + erf (x * CONST_INV_SQRT_2)).

Definition _inv_big_phi (x : R) : R := CONST_SQRT_2 * erfinv (2 * x - 1).

(** A distribution with scalar bounds: the bounds and the attributes that
    [mean], [cdf], [icdf] and [log_prob] read. *)
Record TruncatedStandardNormal : Type := mkStandard {
  a : R;
  b : R;
  _validate_args : bool;
  _little_phi_a : R;
  _little_phi_b : R;
  _big_phi_a : R;
  _big_phi_b : R;
  _Z : R;
  _log_Z : R;
  _mean : R
}.

(** [TruncatedStandardNormal.__init__] *)
Definition standard_init (a b : R) (validate_args : bool) : result TruncatedStandardNormal :=
  if Rle_dec b a then Raise ValueError
  else
    let Z := Rmax (_big_phi b - _big_phi a) eps in
    Ok {| a := a; b := b; _validate_args := validate_args;
          _little_phi_a := _little_phi a;
          _little_phi_b := _little_phi b;
          _big_phi_a := _big_phi a;
          _big_phi_b := _big_phi b;
          _Z := Z;
          _log_Z := ln Z;
          _mean := - (_little_phi b - _little_phi a) / Z |}.

(** [Distribution._validate_sample]: the value has to lie in the support
    [interval(a, b)]. *)
Definition _validate_sample (d : TruncatedStandardNormal) (value : R) : result unit :=
  if _validate_args d then
    if Rle_dec (a d) value then
      if Rle_dec value (b d) then Ok tt else Raise ValueError
    else Raise ValueError
  else Ok tt.

Definition standard_cdf (d : TruncatedStandardNormal) (value : R) : result R :=
  _ <- _validate_sample d value ;;
  Ok (Rmin (Rmax ((_big_phi value - _big_phi_a d) / _Z d) 0) 1).

Definition standard_icdf (d : TruncatedStandardNormal) (value : R) : R :=
  _inv_big_phi (_big_phi_a d + value * _Z d).

Definition standard_log_prob (d : TruncatedStandardNormal) (value : R) : result R :=
  _ <- _validate_sample d value ;;
  Ok (CONST_LOG_INV_SQRT_2PI - _log_Z d - value ^ 2 * (1 / 2)).

Record TruncatedNormal : Type := mkTruncated {
  standard : TruncatedStandardNormal;
  loc : R;
  scale : R;
  _log_scale : R;
  mean : R
}.

(** [TruncatedNormal.__init__] *)
Definition init (loc scale a b : R) (validate_args : bool) : result TruncatedNormal :=
  let a := (a - loc) / scale in
  let b := (b - loc) / scale in
  d <- standard_init a b validate_args ;;
  Ok {| standard := d; loc := loc; scale := scale;
        _log_scale := ln scale;
        mean := _mean d * scale + loc |}.

Definition _to_std_rv (d : TruncatedNormal) (value : R) : R := (value - loc d) / scale d.

Definition _from_std_rv (d : TruncatedNormal) (value : R) : R := value * scale d + loc d.

Definition cdf (d : TruncatedNormal) (value : R) : result R :=
  standard_cdf (standard d) (_to_std_rv d value).

Definition icdf (d : TruncatedNormal) (value : R) : R :=
  _from_std_rv d (standard_icdf (standard d) value).

Definition log_prob (d : TruncatedNormal) (value : R) : result R :=
  lp <- standard_log_prob (standard d) (_to_std_rv d value) ;;
  Ok (lp - _log_scale d).

End Erf.

End TruncatedNormal.

Module MSEDistribution.

Local Open Scope R_scope.

Inductive error : Type := AssertionError | NotImplementedError.

Inductive outcome (A : Type) : Type :=
| Returns (x : A)
| Throws (e : error).

Arguments Returns {A} x.
Arguments Throws {A} e.

Inductive aggregation : Type := agg_mean | agg_sum | agg_other.

(** [log_prob] of a distribution over one event of [dims = 1]: [mode] and
    [value] are rows, the loss is aggregated along the row. *)
Definition log_prob (mode : row) (agg : aggregation) (value : row) : outcome R :=
  if negb (length mode =? length value)%nat then Throws AssertionError
  else
    let distance := zipw (fun m v => (m - v) ^ 2) mode value in
    match agg with
    | agg_mean => Returns (- (rsum distance / INR (length distance)))
    | agg_sum => Returns (- rsum distance)
    | agg_other => Throws NotImplementedError
    end.

End MSEDistribution.

(** ** sheeprl/algos/dreamer_v3/agent.py : Actor.forward, the parameters of
       the continuous action distributions *)

Module ActorForward.

Local Open Scope R_scope.

(** [F.softplus] with its default [beta = 1] and [threshold = 20]. *)
Definition softplus (x : R) : R := if Rlt_dec 20 x then x else ln (1 + exp x).

Definition sigmoid (x : R) : R := 1 / (1 + exp (- x)).

Section Names.

Import String.

(** Location and scale handed to the action distribution for one entry of
    [mean] and [std], by the stored distribution name; no branch of
    [forward] covers any other name. *)
Definition continuous_params (distribution : string) (init_std min_std mean std : R)
  : option (R * R) :=
  if (distribution =? "tanh_normal")%string then
    Some (5 * tanh (mean / 5), softplus (std + init_std) + min_std)
  else if (distribution =? "normal")%string then Some (mean, std)
  else if (distribution =? "trunc_normal")%string then
    Some (tanh mean, 2 * sigmoid ((std + init_std) / 2) + min_std)
  else None.

End Names.

(** The [trunc_normal] branch: [TruncatedNormal(torch.tanh(mean), std, -1, 1)]. *)
Definition trunc_normal_dist (erf : R -> R) (eps init_std min_std mean std : R)
    (validate_args : bool) : result TruncatedNormal.TruncatedNormal :=
  TruncatedNormal.init erf eps (tanh mean) (2 * sigmoid ((std + init_std) / 2) + min_std)
    (-1) 1 validate_args.

End ActorForward.

(** ** sheeprl/envs/minerl_envs/obtain.py : CustomObtain.determine_success_from_rewards *)

Module Obtain.

Local Open Scope Z_scope.

(** One [dict(type=..., amount=..., reward=...)] of a reward schedule; the
    rewards are the integers of the schedules. *)
Record schedule_entry : Type := mkEntry {
  type_ : String.string;
  amount : Z;
  reward : Z
}.

(** [round(n * 0.1)]: the product is the double nearest to [n / 10], which is
    the exact tie when [n] ends in 5, and [round] sends a tie to the even
    neighbour. *)
Definition round_tenth (n : nat) : nat :=
  let q := (n / 10)%nat in
  let r := (n mod 10)%nat in
  if (r <? 5)%nat then q
  else if (5 <? r)%nat then S q
  else if Nat.even q then q else S q.

(** [set(rewards).intersection(reward_values)], as a list without
    repetitions. *)
Definition intersection (rewards reward_values : list Z) : list Z :=
  filter (fun r => existsb (Z.eqb r) reward_values) (nodup Z.eq_dec rewards).

Definition determine_success_from_rewards (reward_schedule : list schedule_entry)
    (rewards : list Z) : bool :=
  let max_missing := round_tenth (length reward_schedule) in
  let reward_values := map reward reward_schedule in
  Z.of_nat (length reward_values) - Z.of_nat max_missing
  <=? Z.of_nat (length (intersection rewards reward_values)).

Section Schedules.

Import String.
Local Open Scope string_scope.

(** The schedule of [CustomObtainDiamond]. *)
Definition diamond_schedule : list schedule_entry :=
  [ mkEntry "log" 1 1; mkEntry "planks" 1 2; mkEntry "stick" 1 4;
    mkEntry "crafting_table" 1 4; mkEntry "wooden_pickaxe" 1 8;
    mkEntry "cobblestone" 1 16; mkEntry "furnace" 1 32; mkEntry "stone_pickaxe" 1 32;
    mkEntry "iron_ore" 1 64; mkEntry "iron_ingot" 1 128; mkEntry "iron_pickaxe" 1 256;
    mkEntry "diamond" 1 1024 ].

(** The schedule of [CustomObtainIronPickaxe]. *)
Definition iron_pickaxe_schedule : list schedule_entry :=
  [ mkEntry "log" 1 1; mkEntry "planks" 1 2; mkEntry "stick" 1 4;
    mkEntry "crafting_table" 1 4; mkEntry "wooden_pickaxe" 1 8;
    mkEntry "cobblestone" 1 16; mkEntry "furnace" 1 32; mkEntry "stone_pickaxe" 1 32;
    mkEntry "iron_ore" 1 64; mkEntry "iron_ingot" 1 128; mkEntry "iron_pickaxe" 1 256 ].

End Schedules.

End Obtain.

(** * Properties *)

(** ** The result monad and rows *)

Lemma ew_ok (f : R -> R -> R) (a b : row) :
  length a = length b -> ew f a b = Ok (zipw f a b).
Proof.
  unfold ew.
  revert b; induction a as [|x a IH]; intros [|y b] Hl; simpl in *;
    try discriminate; auto.
  rewrite IH by lia. reflexivity.
Qed.

Lemma zipw_length (f : R -> R -> R) (a b : row) :
  length a = length b -> length (zipw f a b) = length a.
Proof.
  revert b; induction a as [|x a IH]; intros [|y b] Hl; simpl in *;
    try discriminate; auto.
Qed.

Lemma zipM_nth_error {A B C : Type} (f : A -> B -> result C) (a : list A) (b : list B)
    (cs : list C) :
  zipM f a b = Ok cs ->
  forall i x y, nth_error a i = Some x -> nth_error b i = Some y ->
    exists z, f x y = Ok z /\ nth_error cs i = Some z.
Proof.
  revert b cs; induction a as [|x0 a IH]; intros [|y0 b] cs Hz; simpl in Hz;
    try discriminate.
  - intros [|i] x y Hx; simpl in Hx; discriminate.
  - destruct (f x0 y0) as [z0|] eqn:Hf; simpl in Hz; try discriminate.
    destruct (zipM f a b) as [zs|] eqn:Hr; simpl in Hz; try discriminate.
    injection Hz as <-.
    intros [|i] x y Hx Hy; simpl in *.
    + injection Hx as <-. injection Hy as <-. eauto.
    + eapply IH; eauto.
Qed.

Lemma zipM_length {A B C : Type} (f : A -> B -> result C) (a : list A) (b : list B)
    (cs : list C) :
  zipM f a b = Ok cs -> length a = length b /\ length cs = length a.
Proof.
  revert b cs; induction a as [|x0 a IH]; intros [|y0 b] cs Hz; simpl in Hz;
    try discriminate.
  - injection Hz as <-. auto.
  - destruct (f x0 y0) as [z0|] eqn:Hf; simpl in Hz; try discriminate.
    destruct (zipM f a b) as [zs|] eqn:Hr; simpl in Hz; try discriminate.
    injection Hz as <-. destruct (IH _ _ Hr). simpl. lia.
Qed.

(** [zipM] succeeds as soon as the lengths agree and [f] succeeds on every
    pair of entries at one index. *)
Lemma zipM_total {A B C : Type} (f : A -> B -> result C) (a : list A) (b : list B) :
  length a = length b ->
  (forall i x y, nth_error a i = Some x -> nth_error b i = Some y -> exists z, f x y = Ok z) ->
  exists cs, zipM f a b = Ok cs.
Proof.
  revert b; induction a as [|x0 a IH]; intros [|y0 b] Hl Hf; simpl in *;
    try discriminate; eauto.
  destruct (Hf 0%nat x0 y0 eq_refl eq_refl) as [z0 Hz0]. rewrite Hz0. simpl.
  destruct (IH b) as [zs Hzs]; [lia | |].
  - intros i x y Hx Hy. apply (Hf (S i) x y); assumption.
  - rewrite Hzs. simpl. eauto.
Qed.

Lemma shaped_nth_error (T B : nat) (t : tensor) (i : nat) :
  shaped T B t -> (i < T)%nat ->
  nth_error t i = Some (nth i t []) /\ length (nth i t []) = B.
Proof.
  intros [Hl Hf] Hi. split.
  - apply nth_error_nth'. lia.
  - rewrite Forall_forall in Hf. apply Hf. apply nth_In. lia.
Qed.

Lemma map_const_repeat {A : Type} (l : list A) (c : R) :
  map (fun _ => c) l = repeat c (length l).
Proof. induction l; simpl; congruence. Qed.

(** ** Lambda returns *)

Module LambdaValuesFacts.

Import LambdaValues.
Local Open Scope R_scope.

(** The loop body and the step of the specification agree on rows of one
    size. *)
Lemma code_step_spec_step (lmbda : R) (rt ct vn g : row) :
  length ct = length rt -> length vn = length rt -> length g = length rt ->
  zipw Rplus (zipw Rplus rt (map (fun x => x * (1 - lmbda)) (zipw Rmult ct vn)))
             (zipw Rmult (map (fun x => x * lmbda) ct) g)
  = spec_step lmbda rt ct vn g.
Proof.
  unfold spec_step, radd, rmul, rscale.
  revert ct vn g; induction rt as [|r rt IH]; intros [|c ct] [|v vn] [|g0 g] H1 H2 H3;
    simpl in *; try discriminate; auto.
  f_equal; [ring | apply IH; lia].
Qed.

Lemma spec_step_length (lmbda : R) (rt ct vn g : row) :
  length ct = length rt -> length vn = length rt -> length g = length rt ->
  length (spec_step lmbda rt ct vn g) = length rt.
Proof.
  unfold spec_step, radd, rmul, rscale.
  revert ct vn g; induction rt as [|r rt IH]; intros [|c ct] [|v vn] [|g0 g] H1 H2 H3;
    simpl in *; try discriminate; auto.
Qed.

Section Recursion.

Variables (H B : nat) (lmbda : R).
Variables (rewards values continues : tensor) (b : row).
Hypothesis HH : (1 <= H)%nat.
Hypothesis Hr : shaped H B rewards.
Hypothesis Hv : shaped H B values.
Hypothesis Hc : shaped H B continues.
Hypothesis Hb : length b = B.

Local Abbreviation V := (V H values b).
Local Abbreviation G := (G H lmbda rewards values continues b).

Lemma G_last : G H = b.
Proof. unfold LambdaValues.G. rewrite Nat.sub_diag. reflexivity. Qed.

Lemma G_step (t : nat) :
  (t < H)%nat ->
  G t = spec_step lmbda (nth t rewards []) (nth t continues []) (V (S t)) (G (S t)).
Proof.
  intros Ht. unfold LambdaValues.G.
  replace (H - t)%nat with (S (H - S t)) by lia. reflexivity.
Qed.

Lemma V_length (t : nat) : length (V t) = B.
Proof.
  unfold LambdaValues.V. destruct (Nat.ltb_spec t H); auto.
  apply (shaped_nth_error Hv). assumption.
Qed.

Lemma G_length (t : nat) : (t <= H)%nat -> length (G t) = B.
Proof.
  intros Ht. remember (H - t)%nat as k eqn:Hk. revert t Ht Hk.
  induction k as [|k IH]; intros t Ht Hk.
  - replace t with H by lia. rewrite G_last. exact Hb.
  - assert (Hlt : (t < H)%nat) by lia.
    rewrite (G_step Hlt). rewrite spec_step_length;
      rewrite ?(proj2 (shaped_nth_error Hc Hlt)), ?(proj2 (shaped_nth_error Hr Hlt)),
        ?V_length; auto.
    apply IH; lia.
Qed.

(** [next_val = cat(values[1:], bootstrap)] holds [V_{t+1}] at index [t]. *)
Lemma next_val_nth (t : nat) :
  (t < H)%nat -> nth_error (tl values ++ [b]) t = Some (V (S t)).
Proof.
  intros Ht. destruct Hv as [Hl _]. unfold LambdaValues.V.
  destruct values as [|v0 vs]; simpl in *; [lia|].
  destruct (Nat.ltb_spec (S t) H) as [Hlt|Hge].
  - rewrite nth_error_app1 by lia. apply nth_error_nth'. lia.
  - rewrite nth_error_app2 by lia. replace (t - length vs)%nat with 0%nat by lia.
    reflexivity.
Qed.

Lemma inputs_ok :
  exists inputs,
    (cn <- tew Rmult continues (tl values ++ [b]) ;;
     tew Rplus rewards (map (map (fun x => x * (1 - lmbda))) cn)) = Ok inputs /\
    forall t, (t < H)%nat ->
      nth_error inputs t =
      Some (zipw Rplus (nth t rewards [])
              (map (fun x => x * (1 - lmbda)) (zipw Rmult (nth t continues []) (V (S t))))).
Proof.
  assert (Hnl : length (tl values ++ [b]) = H).
  { destruct Hv as [Hl _]. rewrite length_app. destruct values; simpl in *; lia. }
  destruct (@zipM_total _ _ _ (ew Rmult) continues (tl values ++ [b])) as [cn Hcn].
  { pose proof (proj1 Hc). lia. }
  { intros i x y Hx Hy. assert (Hi : (i < H)%nat).
    { destruct Hc as [Hl _]. rewrite <- Hl. apply nth_error_Some. congruence. }
    rewrite (next_val_nth Hi) in Hy. injection Hy as <-.
    rewrite (proj1 (shaped_nth_error Hc Hi)) in Hx. injection Hx as <-.
    rewrite ew_ok; eauto. rewrite V_length. apply (shaped_nth_error Hc Hi). }
  unfold tew at 1. rewrite Hcn. simpl.
  assert (Hcn_nth : forall t, (t < H)%nat ->
            nth_error cn t = Some (zipw Rmult (nth t continues []) (V (S t)))).
  { intros t Ht.
    destruct (zipM_nth_error _ _ _ Hcn t (proj1 (shaped_nth_error Hc Ht)) (next_val_nth Ht))
      as [z [Hz1 Hz2]].
    rewrite ew_ok in Hz1 by (rewrite V_length; apply (shaped_nth_error Hc Ht)).
    congruence. }
  destruct (zipM_length _ _ _ Hcn) as [_ Hcl].
  destruct (@zipM_total _ _ _ (ew Rplus) rewards
              (map (map (fun x => x * (1 - lmbda))) cn)) as [inputs Hin].
  { rewrite length_map. pose proof (proj1 Hr). pose proof (proj1 Hc). lia. }
  { intros i x y Hx Hy. assert (Hi : (i < H)%nat).
    { destruct Hr as [Hl _]. rewrite <- Hl. apply nth_error_Some. congruence. }
    rewrite nth_error_map, (Hcn_nth _ Hi) in Hy. injection Hy as <-.
    rewrite (proj1 (shaped_nth_error Hr Hi)) in Hx. injection Hx as <-.
    rewrite ew_ok; eauto. rewrite length_map, zipw_length;
      rewrite ?V_length, ?(proj2 (shaped_nth_error Hc Hi)), ?(proj2 (shaped_nth_error Hr Hi));
      auto. }
  exists inputs. split; [exact Hin|].
  intros t Ht.
  assert (Hy : nth_error (map (map (fun x => x * (1 - lmbda))) cn) t =
               Some (map (fun x => x * (1 - lmbda)) (zipw Rmult (nth t continues []) (V (S t))))).
  { rewrite nth_error_map, (Hcn_nth _ Ht). reflexivity. }
  destruct (zipM_nth_error _ _ _ Hin t (proj1 (shaped_nth_error Hr Ht)) Hy) as [z [Hz1 Hz2]].
  rewrite ew_ok in Hz1; [congruence|].
  rewrite length_map, zipw_length;
    rewrite ?V_length, ?(proj2 (shaped_nth_error Hc Ht)), ?(proj2 (shaped_nth_error Hr Ht));
    auto.
Qed.

Lemma lambda_step_G (inputs : tensor) (t : nat) :
  (forall t, (t < H)%nat ->
     nth_error inputs t =
     Some (zipw Rplus (nth t rewards [])
             (map (fun x => x * (1 - lmbda)) (zipw Rmult (nth t continues []) (V (S t)))))) ->
  (t < H)%nat ->
  lambda_step inputs continues lmbda t [G (S t)] = Ok [G t].
Proof.
  intros Hin Ht. unfold lambda_step, index.
  rewrite (Hin t Ht), (proj1 (shaped_nth_error Hc Ht)). simpl.
  pose proof (proj2 (shaped_nth_error Hc Ht)) as Lc.
  pose proof (proj2 (shaped_nth_error Hr Ht)) as Lr.
  pose proof (V_length (S t)) as Lv.
  assert (Lg : length (G (S t)) = B) by (apply G_length; lia).
  rewrite ew_ok by (rewrite length_map; lia). simpl.
  rewrite ew_ok.
  - simpl. rewrite code_step_spec_step by lia. rewrite <- (G_step Ht). reflexivity.
  - rewrite !zipw_length; rewrite ?length_map, ?zipw_length; lia.
Qed.

Lemma lambda_loop_G (inputs : tensor) :
  (forall t, (t < H)%nat -> lambda_step inputs continues lmbda t [G (S t)] = Ok [G t]) ->
  forall k lv, (k <= H)%nat ->
    lambda_loop inputs continues lmbda (rev (seq 0 k)) [G k] lv
    = Ok (lv ++ map (fun t => [G t]) (rev (seq 0 k))).
Proof.
  intros Hstep k. induction k as [|k IH]; intros lv Hk.
  - simpl. rewrite app_nil_r. reflexivity.
  - rewrite seq_S, rev_app_distr. simpl.
    rewrite Hstep by lia. simpl. rewrite IH by lia.
    rewrite <- app_assoc. reflexivity.
Qed.

(** The call with bootstrap [b] returns the returns [G 0 .. G (H-1)]. *)
Lemma compute_lambda_values_G :
  compute_lambda_values rewards values continues (Some [b]) H lmbda
  = Ok (map G (seq 0 H)).
Proof.
  unfold compute_lambda_values.
  destruct inputs_ok as [inputs [Hin Hnth]].
  destruct (tew Rmult continues (tl values ++ [b])) as [cn|] eqn:Hcn; simpl in Hin;
    [|discriminate].
  simpl. rewrite Hin. simpl.
  rewrite <- G_last at 1.
  rewrite lambda_loop_G with (inputs := inputs);
    [| intros; apply lambda_step_G; auto | lia].
  simpl. rewrite <- map_rev, rev_involutive.
  assert (Hcat : forall l : list nat, concat (map (fun t => [G t]) l) = map G l).
  { induction l; simpl; congruence. }
  unfold cat0. destruct H as [|H']; [lia|].
  simpl. rewrite Hcat. reflexivity.
Qed.

End Recursion.

(** The default bootstrap: a row of zeros of the batch size. *)
Lemma default_bootstrap (H B : nat) (values : tensor) :
  (1 <= H)%nat -> shaped H B values ->
  zeros_like (last_slice values) = [repeat 0 B].
Proof.
  intros HH [Hl Hf]. unfold last_slice, zeros_like.
  destruct values as [|v vs]; simpl in Hl; [lia|].
  simpl map at 1. cbv beta. f_equal. rewrite map_const_repeat. f_equal.
  rewrite Forall_forall in Hf. apply Hf.
  destruct vs; [left; reflexivity|]. apply in_cons.
  change (In (last (l :: vs) []) (l :: vs)).
  destruct (exists_last (l := l :: vs)) as [l' [a E]]; [discriminate|].
  rewrite E. rewrite last_last. apply in_or_app. right. left. reflexivity.
Qed.

(** C2: for a horizon [H >= 1] and inputs of time length [H], the function
    returns the sequence [G 0 .. G (H-1)] of the backward recursion
    [G t = r_t + c_t * ((1 - lambda) * V (t+1) + lambda * G (t+1))] with
    [V H = G H = b], where [b] is the bootstrap row, or zero when the bootstrap
    is [None]. *)
Theorem compute_lambda_values_recursion :
  forall (H B : nat) (lmbda : R) (rewards values continues : tensor)
         (bootstrap : option row),
    (1 <= H)%nat ->
    shaped H B rewards -> shaped H B values -> shaped H B continues ->
    (forall b, bootstrap = Some b -> length b = B) ->
    let b := match bootstrap with Some b => b | None => repeat 0 B end in
    exists G : nat -> row,
      G H = b /\
      (forall t, (t < H)%nat ->
         G t = spec_step lmbda (nth t rewards []) (nth t continues [])
                 (if (S t <? H)%nat then nth (S t) values [] else b) (G (S t))) /\
      compute_lambda_values rewards values continues
        (option_map (fun b => [b]) bootstrap) H lmbda
      = Ok (map G (seq 0 H)).
Proof.
  intros H B lmbda rewards values continues bootstrap HH Hr Hv Hc Hb b.
  assert (Lb : length b = B).
  { subst b. destruct bootstrap; [auto | apply repeat_length]. }
  exists (G H lmbda rewards values continues b). split; [|split].
  - apply G_last.
  - intros t Ht. exact (G_step lmbda rewards values continues b HH Lb Ht).
  - destruct bootstrap as [b0|]; simpl.
    + eapply compute_lambda_values_G; eauto.
    + rewrite <- (compute_lambda_values_G lmbda b HH Hr Hv Hc Lb).
      unfold compute_lambda_values. rewrite (default_bootstrap HH Hv). reflexivity.
Qed.

Lemma compute_lambda_values_recursion_witness :
  exists G : nat -> row,
    G 2%nat = [9; 10] /\
    (forall t, (t < 2)%nat ->
       G t = spec_step (1 / 2) (nth t [[1; 2]; [3; 4]] []) (nth t [[1; 0]; [1; 1]] [])
               (if (S t <? 2)%nat then nth (S t) [[5; 6]; [7; 8]] [] else [9; 10])
               (G (S t))) /\
    compute_lambda_values [[1; 2]; [3; 4]] [[5; 6]; [7; 8]] [[1; 0]; [1; 1]]
      (Some [[9; 10]]) 2 (1 / 2)
    = Ok (map G (seq 0 2)).
Proof.
  apply (@compute_lambda_values_recursion 2 2 (1 / 2) [[1; 2]; [3; 4]] [[5; 6]; [7; 8]]
           [[1; 0]; [1; 1]] (Some [9; 10])).
  - lia.
  - split; [reflexivity | repeat constructor].
  - split; [reflexivity | repeat constructor].
  - split; [reflexivity | repeat constructor].
  - intros b Hb. injection Hb as <-. reflexivity.
Defined.

(** C9: with horizon 1 and a single environment the result is the single
    value [r_0 + c_0 * b], whatever [lmbda] is; with no bootstrap given, [b]
    is zero. *)
Theorem compute_lambda_values_one_step :
  forall (r0 v0 c0 b lmbda : R),
    compute_lambda_values [[r0]] [[v0]] [[c0]] (Some [[b]]) 1 lmbda = Ok [[r0 + c0 * b]] /\
    compute_lambda_values [[r0]] [[v0]] [[c0]] None 1 lmbda = Ok [[r0 + c0 * 0]].
Proof.
  intros r0 v0 c0 b lmbda. split; cbn; do 3 f_equal; ring.
Qed.

(** Two steps by hand: [inputs = [11; 17]], then [17 + 30 / 2 = 32] and
    [11 + 32 / 2 = 27]. *)
Example compute_lambda_values_two_steps :
  compute_lambda_values [[1]; [2]] [[10]; [20]] [[1]; [1]] (Some [[30]]) 2 (1 / 2)
  = Ok [[27]; [32]].
Proof. cbn. do 2 f_equal; [|f_equal]; f_equal; field. Qed.

(** A horizon longer than the tensors runs off the end of [inputs]. *)
Example compute_lambda_values_long_horizon :
  compute_lambda_values [[1]] [[10]] [[1]] (Some [[30]]) 2 (1 / 2) = Raise IndexError.
Proof. reflexivity. Qed.

End LambdaValuesFacts.

(** ** Two-hot targets *)

Module TwoHotFacts.

Import TwoHot.
Local Open Scope R_scope.

Lemma filter_count_split (x : R) (l : list R) :
  (length (filter (fun b => Rleb b x) l) + length (filter (fun b => Rltb x b) l)
   = length l)%nat.
Proof.
  induction l as [|a l IH]; simpl; auto.
  unfold Rleb, Rltb in *.
  destruct (Rle_dec a x), (Rlt_dec x a); simpl; try lia; lra.
Qed.

(** Counting the bins below a threshold index. *)
Lemma count_le_threshold (f : nat -> R) (x : R) :
  forall n a c, (c <= n)%nat ->
    (forall i, (a <= i < a + c)%nat -> f i <= x) ->
    (forall i, (a + c <= i < a + n)%nat -> x < f i) ->
    length (filter (fun b => Rleb b x) (map f (seq a n))) = c.
Proof.
  induction n as [|n IH]; intros a c Hc Hle Hgt; simpl.
  - lia.
  - unfold Rleb at 1. destruct (Rle_dec (f a) x) as [Hfa|Hfa].
    + destruct c as [|c].
      * specialize (Hgt a ltac:(lia)). lra.
      * simpl. f_equal. apply IH; [lia | |]; intros i Hi; [apply Hle | apply Hgt]; lia.
    + destruct c as [|c].
      * apply IH; [lia | |]; intros i Hi; [apply Hle | apply Hgt]; lia.
      * specialize (Hle a ltac:(lia)). lra.
Qed.

Lemma count_le_const (v x : R) (l : list nat) :
  length (filter (fun b => Rleb b x) (map (fun _ => v) l)) = 0%nat \/
  length (filter (fun b => Rleb b x) (map (fun _ => v) l)) = length l.
Proof.
  unfold Rleb. destruct (Rle_dec v x) as [Hv|Hv]; [right | left];
    induction l; simpl; auto; destruct (Rle_dec v x); simpl; try lia; lra.
Qed.

Section Bins.

Variables (low high : R) (n : nat).

Local Abbreviation bin := (TwoHot.bin low high n).

Lemma linspace_length : length (linspace low high n) = n.
Proof. unfold linspace. rewrite length_map, length_seq. reflexivity. Qed.

Lemma linspace_nth (j : nat) : (j < n)%nat -> nth j (linspace low high n) 0 = bin j.
Proof.
  intros Hj. unfold linspace.
  rewrite nth_indep with (d' := bin 0) by (rewrite length_map, length_seq; lia).
  rewrite map_nth, seq_nth by lia. reflexivity.
Qed.

Lemma bin_step (j : nat) : bin (S j) - bin j = (high - low) / INR (n - 1).
Proof. unfold TwoHot.bin. rewrite S_INR. ring. Qed.

Lemma step_pos : low < high -> (2 <= n)%nat -> 0 < (high - low) / INR (n - 1).
Proof.
  intros Hlh Hn. apply Rdiv_lt_0_compat; [lra|].
  apply lt_0_INR. lia.
Qed.

Lemma bin_le (i j : nat) : low < high -> (i <= j)%nat -> bin i <= bin j.
Proof.
  intros Hlh Hij. unfold TwoHot.bin.
  destruct (Nat.le_gt_cases 2 n) as [Hn|Hn].
  - pose proof (step_pos Hlh Hn). apply le_INR in Hij. nra.
  - replace (n - 1)%nat with 0%nat by lia. simpl. unfold Rdiv. rewrite Rinv_0. lra.
Qed.

Lemma bin_lt (i j : nat) : low < high -> (2 <= n)%nat -> (i < j)%nat -> bin i < bin j.
Proof.
  intros Hlh Hn Hij. unfold TwoHot.bin. pose proof (step_pos Hlh Hn). apply lt_INR in Hij. nra.
Qed.

Lemma bin_first : bin 0 = low.
Proof. unfold TwoHot.bin. simpl. ring. Qed.

Lemma bin_last : (1 <= n)%nat -> low < high -> bin (n - 1) <= high.
Proof.
  intros Hn Hlh. unfold TwoHot.bin.
  destruct (Nat.le_gt_cases 2 n) as [Hn2|Hn2].
  - right. field. apply Rgt_not_eq. apply lt_0_INR. lia.
  - replace (n - 1)%nat with 0%nat by lia. simpl. lra.
Qed.

End Bins.

Lemma zipw_map_map {A : Type} (f : R -> R -> R) (g h : A -> R) (l : list A) :
  zipw f (map g l) (map h l) = map (fun k => f (g k) (h k)) l.
Proof. induction l; simpl; congruence. Qed.

Lemma rsum_map_plus {A : Type} (g h : A -> R) (l : list A) :
  rsum (map (fun k => g k + h k) l) = rsum (map g l) + rsum (map h l).
Proof. induction l; simpl; [ring | rewrite IHl; ring]. Qed.

Lemma rsum_indicator (w : R) (i : nat) :
  forall n a, (a <= i < a + n)%nat ->
    rsum (map (fun k => if Nat.eqb k i then w else 0) (seq a n)) = w.
Proof.
  assert (Hz : forall n a, (i < a)%nat ->
            rsum (map (fun k => if Nat.eqb k i then w else 0) (seq a n)) = 0).
  { induction n as [|n IH]; intros a Ha; simpl; auto.
    destruct (Nat.eqb_spec a i); [lia|]. rewrite IH by lia. ring. }
  induction n as [|n IH]; intros a Ha; simpl; [lia|].
  destruct (Nat.eqb_spec a i) as [->|Hne].
  - rewrite Hz by lia. ring.
  - rewrite IH by lia. ring.
Qed.

Lemma rsum_two_bins (n i j : nat) (w w' : R) :
  (i < n)%nat -> (j < n)%nat -> rsum (two_bins n i j w w') = w + w'.
Proof.
  intros Hi Hj. unfold two_bins. rewrite rsum_map_plus.
  rewrite !rsum_indicator by lia. reflexivity.
Qed.

Lemma two_bins_same (n i : nat) (w w' : R) :
  w + w' = 1 -> two_bins n i i w w' = one_bin n i.
Proof.
  intros Hw. unfold two_bins, one_bin. apply map_ext. intros k.
  destruct (Nat.eqb k i); lra.
Qed.

Lemma two_bins_left (n i j : nat) : two_bins n i j 1 0 = one_bin n i.
Proof.
  unfold two_bins, one_bin. apply map_ext. intros k.
  destruct (Nat.eqb k i), (Nat.eqb k j); lra.
Qed.

Section Target.

Variables (logits : list R) (low high : R) (transfwd : R -> R).

Local Abbreviation n := (length logits).
Local Abbreviation bin := (TwoHot.bin low high (length logits)).
Local Abbreviation bins := (TwoHot.bins logits low high).
Local Abbreviation count x := (length (filter (fun b => Rleb b x) (TwoHot.bins logits low high))).

Lemma bins_length : length bins = n.
Proof. apply linspace_length. Qed.

Lemma count_le_n (y : R) : (count y <= n)%nat.
Proof. pose proof (filter_count_split y bins). rewrite bins_length in *. lia. Qed.

(** After clipping, [below] and [above] are [c - 1] and [c] cut to the range
    of bins, [c] being the number of bins not above the target. *)
Lemma indices (y : R) :
  (1 <= n)%nat ->
  below_index logits low high y = Z.of_nat (count y - 1) /\
  above_index logits low high y = Z.of_nat (Nat.min (count y) (n - 1)).
Proof.
  intros Hn. unfold below_index, above_index, clip.
  pose proof (filter_count_split y bins) as Hs. rewrite bins_length in *.
  split; lia.
Qed.

Lemma tindex_nat (j : nat) : (j < n)%nat -> tindex bins (Z.of_nat j) = Ok (bin j).
Proof.
  intros Hj. unfold tindex, py_index. rewrite bins_length.
  replace ((0 <=? Z.of_nat j)%Z && (Z.of_nat j <? Z.of_nat n)%Z) with true
    by (symmetry; apply andb_true_iff; split; [apply Z.leb_le | apply Z.ltb_lt]; lia).
  simpl. rewrite Nat2Z.id. unfold index.
  rewrite nth_error_nth' with (d := 0) by (rewrite bins_length; lia).
  unfold TwoHot.bins. rewrite linspace_nth by lia. reflexivity.
Qed.

Lemma one_hot_nat (j : nat) :
  (j < n)%nat ->
  one_hot (Z.of_nat j) (length bins)
  = Ok (map (fun k => if Nat.eqb k j then 1 else 0) (seq 0 n)).
Proof.
  intros Hj. unfold one_hot. rewrite bins_length.
  replace ((0 <=? Z.of_nat j)%Z && (Z.of_nat j <? Z.of_nat n)%Z) with true
    by (symmetry; apply andb_true_iff; split; [apply Z.leb_le | apply Z.ltb_lt]; lia).
  f_equal. apply map_ext. intros k.
  destruct (Z.eqb_spec (Z.of_nat k) (Z.of_nat j)), (Nat.eqb_spec k j); auto; lia.
Qed.

(** The target as two weighted bins. *)
Lemma target_form (x : R) (bi ai : nat) :
  (bi < n)%nat -> (ai < n)%nat ->
  below_index logits low high (transfwd x) = Z.of_nat bi ->
  above_index logits low high (transfwd x) = Z.of_nat ai ->
  let db := if Nat.eqb bi ai then 1 else Rabs (bin bi - transfwd x) in
  let da := if Nat.eqb bi ai then 1 else Rabs (bin ai - transfwd x) in
  two_hot_target logits low high transfwd x
  = Ok (two_bins n bi ai (da / (db + da)) (db / (db + da))).
Proof.
  intros Hbi Hai Hb Ha db da. unfold two_hot_target.
  rewrite Hb, Ha, !tindex_nat, !one_hot_nat by assumption. simpl.
  f_equal. rewrite !map_map, zipw_map_map. unfold two_bins.
  replace (Z.of_nat bi =? Z.of_nat ai)%Z with (Nat.eqb bi ai)
    by (destruct (Z.eqb_spec (Z.of_nat bi) (Z.of_nat ai)), (Nat.eqb_spec bi ai); auto; lia).
  apply map_ext. intros k. fold db da.
  destruct (Nat.eqb k bi), (Nat.eqb k ai); ring.
Qed.

(** All bins at or below the target: both indices are the last bin. *)
Lemma target_last (x : R) :
  (1 <= n)%nat -> count (transfwd x) = n ->
  two_hot_target logits low high transfwd x = Ok (one_bin n (n - 1)).
Proof.
  intros Hn Hc. destruct (indices (transfwd x) Hn) as [Hb Ha]. rewrite Hc in *.
  rewrite Nat.min_r in Ha by lia.
  rewrite (target_form x (bi := n - 1) (ai := n - 1)) by (assumption || lia).
  rewrite Nat.eqb_refl. f_equal. apply two_bins_same. lra.
Qed.

(** No bin at or below the target: both indices are the first bin. *)
Lemma target_first (x : R) :
  (1 <= n)%nat -> count (transfwd x) = 0%nat ->
  two_hot_target logits low high transfwd x = Ok (one_bin n 0).
Proof.
  intros Hn Hc. destruct (indices (transfwd x) Hn) as [Hb Ha]. rewrite Hc in *.
  simpl in Hb, Ha.
  rewrite (target_form x (bi := 0) (ai := 0)) by (assumption || lia).
  simpl. f_equal. apply two_bins_same. lra.
Qed.

(** The target between the bins [c - 1] and [c]. *)
Lemma target_between (x : R) (c : nat) :
  (0 < c < n)%nat -> count (transfwd x) = c ->
  let db := Rabs (bin (c - 1) - transfwd x) in
  let da := Rabs (bin c - transfwd x) in
  two_hot_target logits low high transfwd x
  = Ok (two_bins n (c - 1) c (da / (db + da)) (db / (db + da))).
Proof.
  intros Hc Hcount db da.
  destruct (indices (transfwd x) ltac:(lia)) as [Hb Ha]. rewrite Hcount in *.
  rewrite Nat.min_l in Ha by lia.
  rewrite (target_form x (bi := c - 1) (ai := c)) by (assumption || lia).
  destruct (Nat.eqb_spec (c - 1) c); [lia|]. reflexivity.
Qed.

Lemma count_threshold (y : R) (c : nat) :
  (c <= n)%nat ->
  (forall i, (i < c)%nat -> bin i <= y) ->
  (forall i, (c <= i < n)%nat -> y < bin i) ->
  count y = c.
Proof.
  intros Hc Hle Hgt. unfold TwoHot.bins, linspace.
  apply count_le_threshold;
    [assumption | intros i Hi; apply Hle; lia | intros i Hi; apply Hgt; lia].
Qed.

End Target.

Lemma one_bin_distribution (n i : nat) :
  (i < n)%nat ->
  length (one_bin n i) = n /\ Forall (fun t => 0 <= t) (one_bin n i) /\
  rsum (one_bin n i) = 1.
Proof.
  intros Hi. unfold one_bin. split; [|split].
  - rewrite length_map, length_seq. reflexivity.
  - apply Forall_forall. intros t Ht. apply in_map_iff in Ht.
    destruct Ht as [k [<- _]]. destruct (Nat.eqb k i); lra.
  - apply rsum_indicator. lia.
Qed.

Lemma two_bins_distribution (n i j : nat) (w w' : R) :
  (i < n)%nat -> (j < n)%nat -> 0 <= w -> 0 <= w' -> w + w' = 1 ->
  length (two_bins n i j w w') = n /\ Forall (fun t => 0 <= t) (two_bins n i j w w') /\
  rsum (two_bins n i j w w') = 1.
Proof.
  intros Hi Hj Hw Hw' Hs. split; [|split].
  - unfold two_bins. rewrite length_map, length_seq. reflexivity.
  - apply Forall_forall. intros t Ht. apply in_map_iff in Ht.
    destruct Ht as [k [<- _]]. destruct (Nat.eqb k i), (Nat.eqb k j); lra.
  - rewrite rsum_two_bins by assumption. exact Hs.
Qed.

(** With a zero step all bins coincide, and the target is never strictly
    between two of them. *)
Lemma count_degenerate (logits : list R) (low high y : R) :
  (high - low) / INR (length logits - 1) = 0 ->
  length (filter (fun b => Rleb b y) (bins logits low high)) = 0%nat \/
  length (filter (fun b => Rleb b y) (bins logits low high)) = length logits.
Proof.
  intros Hstep. unfold bins, linspace.
  rewrite (map_ext (bin low high (length logits)) (fun _ => low)).
  - destruct (count_le_const low y (seq 0 (length logits))) as [D|D];
      [left | right]; rewrite D; rewrite ?length_seq; reflexivity.
  - intros i. unfold bin. rewrite Hstep. ring.
Qed.

(** C5: with bins from [low] to [high], [low < high], a transformed target
    equal to a bin puts all weight on that bin; a transformed target below
    [low] (above [high]) puts all weight on the first (last) bin; a transformed
    target midway between two adjacent bins gives each of them weight 1/2. *)
Theorem two_hot_target_special_cases :
  forall (logits : list R) (low high : R) (transfwd : R -> R) (x : R),
    low < high -> (1 <= length logits)%nat ->
    let n := length logits in
    let y := transfwd x in
    let target := two_hot_target logits low high transfwd x in
    (forall j, (j < n)%nat -> y = nth j (bins logits low high) 0 ->
       target = Ok (one_bin n j)) /\
    (y < low -> target = Ok (one_bin n 0)) /\
    (high < y -> target = Ok (one_bin n (n - 1))) /\
    (forall j, (S j < n)%nat ->
       y = (nth j (bins logits low high) 0 + nth (S j) (bins logits low high) 0) / 2 ->
       target = Ok (two_bins n j (S j) (1 / 2) (1 / 2))).
Proof.
  intros logits low high transfwd x Hlh Hn n y target.
  subst target. fold y. split; [|split; [|split]].
  - intros j Hj Hy. unfold bins in Hy. rewrite linspace_nth in Hy by exact Hj.
    destruct (Nat.eq_dec j (n - 1)) as [->|Hne].
    + apply target_last; [exact Hn|].
      apply count_threshold; [lia | | intros i Hi; lia].
      intros i Hi. fold y. rewrite Hy. apply bin_le; [exact Hlh | fold n; lia].
    + assert (Hc : length (filter (fun b => Rleb b y) (bins logits low high)) = S j).
      { apply count_threshold; [fold n; lia | |]; intros i Hi; rewrite Hy.
        - apply bin_le; [exact Hlh | lia].
        - apply bin_lt; [exact Hlh | fold n; lia | lia]. }
      rewrite (@target_between logits low high transfwd x (S j)) by (fold n; lia || exact Hc).
      simpl. rewrite Nat.sub_0_r. fold y. rewrite Hy.
      pose proof (@bin_lt low high n (j) (S j) Hlh ltac:(lia) ltac:(lia)) as Hlt.
      replace (bin low high (length logits) j - bin low high (length logits) j) with 0 by ring.
      rewrite Rabs_R0. fold n.
      rewrite (Rabs_right (bin low high n (S j) - bin low high n j)) by lra.
      replace ((bin low high n (S j) - bin low high n j) /
               (0 + (bin low high n (S j) - bin low high n j))) with 1 by (field; lra).
      replace (0 / (0 + (bin low high n (S j) - bin low high n j))) with 0 by (field; lra).
      f_equal. apply two_bins_left.
  - intros Hy. apply target_first; [exact Hn|].
    apply count_threshold; [lia | intros i Hi; lia |].
    intros i Hi. fold y.
    pose proof (@bin_le low high n (0) (i) Hlh ltac:(lia)) as Hle.
    rewrite bin_first in Hle. fold n. lra.
  - intros Hy. apply target_last; [exact Hn|].
    apply count_threshold; [lia | | intros i Hi; lia].
    intros i Hi. fold y n.
    pose proof (@bin_le low high n (i) (n - 1) Hlh ltac:(lia)) as Hle.
    pose proof (@bin_last low high n Hn Hlh). lra.
  - intros j Hj Hy. unfold bins in Hy. rewrite !linspace_nth in Hy by (fold n; lia).
    fold n in Hy.
    pose proof (@bin_lt low high n (j) (S j) Hlh ltac:(lia) ltac:(lia)) as Hlt.
    assert (Hc : length (filter (fun b => Rleb b y) (bins logits low high)) = S j).
    { apply count_threshold; [fold n; lia | |]; intros i Hi; fold n.
      - pose proof (@bin_le low high n (i) (j) Hlh ltac:(lia)). lra.
      - pose proof (@bin_le low high n (S j) (i) Hlh ltac:(lia)). lra. }
    rewrite (@target_between logits low high transfwd x (S j)) by (fold n; lia || exact Hc).
    simpl. rewrite Nat.sub_0_r. fold y n.
    rewrite (Rabs_left (bin low high n j - y)) by lra.
    rewrite (Rabs_right (bin low high n (S j) - y)) by lra.
    f_equal. f_equal; rewrite Hy; field; lra.
Qed.

Lemma two_hot_target_special_cases_witness :
  two_hot_target [0; 0; 0] (-1) 1 (fun x => x) 0 = Ok (one_bin 3 1) /\
  two_hot_target [0; 0; 0] (-1) 1 (fun x => x) (-2) = Ok (one_bin 3 0) /\
  two_hot_target [0; 0; 0] (-1) 1 (fun x => x) 5 = Ok (one_bin 3 2) /\
  two_hot_target [0; 0; 0] (-1) 1 (fun x => x) (1 / 2) = Ok (two_bins 3 1 2 (1 / 2) (1 / 2)).
Proof.
  assert (Hlh : -1 < 1) by lra.
  assert (Hn : (1 <= length [0; 0; 0])%nat) by (simpl; lia).
  split; [|split; [|split]].
  - destruct (@two_hot_target_special_cases [0; 0; 0] (-1) 1 (fun x => x) 0 Hlh Hn)
      as [Hbin _].
    apply (Hbin 1%nat); [simpl; lia|].
    unfold bins, linspace, bin. simpl. field.
  - destruct (@two_hot_target_special_cases [0; 0; 0] (-1) 1 (fun x => x) (-2) Hlh Hn)
      as [_ [Hlow _]].
    apply Hlow. lra.
  - destruct (@two_hot_target_special_cases [0; 0; 0] (-1) 1 (fun x => x) 5 Hlh Hn)
      as [_ [_ [Hhigh _]]].
    apply Hhigh. lra.
  - destruct (@two_hot_target_special_cases [0; 0; 0] (-1) 1 (fun x => x) (1 / 2) Hlh Hn)
      as [_ [_ [_ Hmid]]].
    apply (Hmid 1%nat); [simpl; lia|].
    unfold bins, linspace, bin. simpl. field.
Defined.

(** C10: for every scalar input the two-hot target is a probability vector
    over the bins: one entry per bin, every entry non-negative, entries
    summing to one. *)
Theorem two_hot_target_distribution :
  forall (logits : list R) (low high : R) (transfwd : R -> R) (x : R),
    (1 <= length logits)%nat ->
    exists target,
      two_hot_target logits low high transfwd x = Ok target /\
      length target = length logits /\
      Forall (fun t => 0 <= t) target /\
      rsum target = 1.
Proof.
  intros logits low high transfwd x Hn.
  set (n := length logits) in *. set (y := transfwd x).
  set (c := length (filter (fun b => Rleb b y) (bins logits low high))).
  assert (Hcn : (c <= n)%nat) by apply count_le_n.
  destruct (Nat.eq_dec c 0) as [Hc0|Hc0].
  - exists (one_bin n 0). split; [apply target_first; assumption|].
    apply one_bin_distribution. lia.
  - destruct (Nat.eq_dec c n) as [Hcl|Hcl].
    + exists (one_bin n (n - 1)). split; [apply target_last; assumption|].
      apply one_bin_distribution. lia.
    + pose proof (@target_between logits low high transfwd x c
                    ltac:(fold n; lia) eq_refl) as Ht.
      simpl in Ht. fold y n in Ht.
      set (db := Rabs (bin low high n (c - 1) - y)) in *.
      set (da := Rabs (bin low high n c - y)) in *.
      assert (Hdb : 0 <= db) by apply Rabs_pos.
      assert (Hda : 0 <= da) by apply Rabs_pos.
      assert (Hpos : 0 < db + da).
      { destruct (Rtotal_order 0 (db + da)) as [Hlt|[Heq|Hgt]]; [exact Hlt | | lra].
        exfalso.
        assert (Hb0 : db = 0) by lra. assert (Ha0 : da = 0) by lra.
        subst db da.
        assert (E1 : bin low high n (c - 1) - y = 0).
        { destruct (Req_dec (bin low high n (c - 1) - y) 0) as [E|E]; [exact E|].
          apply Rabs_no_R0 in E. contradiction. }
        assert (E2 : bin low high n c - y = 0).
        { destruct (Req_dec (bin low high n c - y) 0) as [E|E]; [exact E|].
          apply Rabs_no_R0 in E. contradiction. }
        pose proof (bin_step low high n (c - 1)) as Hs.
        replace (S (c - 1)) with c in Hs by lia.
        destruct (@count_degenerate logits low high y) as [D|D];
          [fold n; lra | fold c in D; lia | fold c n in D; lia]. }
      eexists. split; [exact Ht|].
      apply two_bins_distribution; try lia.
      * apply Rle_mult_inv_pos; assumption.
      * apply Rle_mult_inv_pos; assumption.
      * field. lra.
Qed.

Lemma two_hot_target_distribution_witness :
  exists target,
    two_hot_target [0; 0; 0] (-1) 1 (fun x => x) (1 / 2) = Ok target /\
    length target = length [0; 0; 0] /\
    Forall (fun t => 0 <= t) target /\
    rsum target = 1.
Proof.
  apply (@two_hot_target_distribution [0; 0; 0] (-1) 1 (fun x => x) (1 / 2)).
  simpl. lia.
Defined.

(** Three bins [-1, 0, 1] and the target 1/4: weights 3/4 and 1/4 on the
    bins 0 and 1. *)
Example two_hot_target_quarter :
  two_hot_target [0; 0; 0] (-1) 1 (fun x => x) (1 / 4) = Ok [0; 3 / 4; 1 / 4].
Proof.
  rewrite (@target_between [0; 0; 0] (-1) 1 (fun x => x) (1 / 4) 2).
  - unfold two_bins, bin. simpl.
    replace (-1 + 1 * ((1 - -1) / (1 + 1)) - 1 / 4) with (- (1 / 4)) by field.
    replace (-1 + (1 + 1) * ((1 - -1) / (1 + 1)) - 1 / 4) with (3 / 4) by field.
    rewrite Rabs_Ropp, !Rabs_right by lra.
    f_equal. f_equal; [|f_equal; [|f_equal]]; field.
  - simpl. lia.
  - apply count_threshold; [simpl; lia | |]; intros i Hi; unfold bin; simpl in *.
    + destruct i as [|[|i]]; [| |lia]; simpl; lra.
    + assert (i = 2%nat) by lia. subst i. simpl. lra.
Qed.

End TwoHotFacts.

(** ** Target network moving average *)

Module SACPixelFacts.

Import SACPixel.
Local Open Scope R_scope.

Lemma ema_param_ok (tau : R) (p t : row) :
  length p = length t -> ema_param tau p t = Ok (ema_spec tau p t).
Proof.
  intros Hl. unfold ema_param. rewrite ew_ok by (rewrite !length_map; exact Hl).
  f_equal. unfold ema_spec. clear Hl. revert t.
  induction p as [|x p IH]; intros [|y t]; simpl; auto. f_equal. apply IH.
Qed.

Lemma ema_spec_hard_copy (p t : row) : length p = length t -> ema_spec 1 p t = p.
Proof.
  unfold ema_spec. revert t.
  induction p as [|x p IH]; intros [|y t] Hl; simpl in *; try discriminate; auto.
  f_equal; [ring | apply IH; lia].
Qed.

Lemma ema_spec_length (tau : R) (p t : row) :
  length p = length t -> length (ema_spec tau p t) = length p.
Proof. apply zipw_length. Qed.

Lemma ema_loop_ok (tau : R) (params targets : list row) :
  Forall2 (fun p t => length p = length t) params targets ->
  exists targets',
    ema_loop tau params targets = Ok targets' /\
    Forall2 (fun p t => length p = length t) params targets' /\
    (forall i p t, nth_error params i = Some p -> nth_error targets i = Some t ->
       nth_error targets' i = Some (ema_spec tau p t)) /\
    (tau = 1 -> targets' = params).
Proof.
  induction 1 as [|p t params targets Hpt Hrest IH].
  - exists []. repeat split; auto.
    intros [|i] p t Hp; discriminate.
  - destruct IH as [rest [Hloop [Hshape [Hnth Hone]]]].
    exists (ema_spec tau p t :: rest). simpl.
    rewrite ema_param_ok by exact Hpt. simpl. rewrite Hloop. simpl.
    repeat split.
    + constructor; [symmetry; apply ema_spec_length; exact Hpt | exact Hshape].
    + intros [|i] p' t' Hp Ht; simpl in *.
      * injection Hp as <-. injection Ht as <-. reflexivity.
      * eapply Hnth; eauto.
    + intros ->. rewrite ema_spec_hard_copy by exact Hpt. f_equal. auto.
Qed.

(** The invariant holds after construction and is kept by the update. *)
Lemma init_same_structure (critics : list row) (tau : R) :
  same_structure (init critics tau).
Proof.
  unfold same_structure, init. simpl. induction critics; constructor; auto.
Qed.

Lemma qfs_target_ema_same_structure (a a' : SACPixelAgent) :
  same_structure a -> qfs_target_ema a = Ok a' -> same_structure a'.
Proof.
  intros Hs. unfold qfs_target_ema.
  destruct (ema_loop_ok (_tau a) Hs) as [ts [Hloop [Hshape _]]].
  rewrite Hloop. simpl. intros E. injection E as <-. exact Hshape.
Qed.

(** C6: one call of the update replaces every target parameter by
    [tau * online + (1 - tau) * previous target], leaves the online
    parameters alone, and with [tau = 1] makes the target parameters equal to
    the online ones. *)
Theorem qfs_target_ema_update :
  forall a : SACPixelAgent,
    same_structure a ->
    exists a',
      qfs_target_ema a = Ok a' /\
      qfs_unwrapped a' = qfs_unwrapped a /\
      length (qfs_target a') = length (qfs_target a) /\
      (forall i param target_param,
         nth_error (qfs_unwrapped a) i = Some param ->
         nth_error (qfs_target a) i = Some target_param ->
         nth_error (qfs_target a') i = Some (ema_spec (_tau a) param target_param)) /\
      (_tau a = 1 -> qfs_target a' = qfs_unwrapped a).
Proof.
  intros a Hs. destruct (ema_loop_ok (_tau a) Hs) as [ts [Hloop [Hshape [Hnth Hone]]]].
  unfold qfs_target_ema. rewrite Hloop. simpl.
  eexists. split; [reflexivity|]. simpl. repeat split; auto.
  apply Forall2_length in Hshape. apply Forall2_length in Hs. congruence.
Qed.

Lemma qfs_target_ema_update_witness :
  (exists a',
     qfs_target_ema (mkAgent [[1; 2]; [3]] [[5; 6]; [7]] (1 / 2)) = Ok a' /\
     nth_error (qfs_target a') 0 = Some (ema_spec (1 / 2) [1; 2] [5; 6]) /\
     nth_error (qfs_target a') 1 = Some (ema_spec (1 / 2) [3] [7])) /\
  (exists a',
     qfs_target_ema (mkAgent [[1; 2]; [3]] [[5; 6]; [7]] 1) = Ok a' /\
     qfs_target a' = [[1; 2]; [3]]).
Proof.
  split.
  - destruct (@qfs_target_ema_update (mkAgent [[1; 2]; [3]] [[5; 6]; [7]] (1 / 2)))
      as [a' [E [_ [_ [Hnth _]]]]]; [repeat constructor|].
    exists a'. split; [exact E|]. split.
    + apply (Hnth 0%nat); reflexivity.
    + apply (Hnth 1%nat); reflexivity.
  - destruct (@qfs_target_ema_update (mkAgent [[1; 2]; [3]] [[5; 6]; [7]] 1))
      as [a' [E [_ [_ [_ Hone]]]]]; [repeat constructor|].
    exists a'. split; [exact E|]. apply Hone. reflexivity.
Defined.

End SACPixelFacts.

(** ** Actor construction *)

Module ActorInitFacts.

Import DreamerV3.
Import String.
Local Open Scope string_scope.

Lemma mem_In (s : string) (l : list string) : mem s l = true <-> In s l.
Proof.
  unfold mem. rewrite existsb_exists. split.
  - intros [x [Hin Heq]]. apply String.eqb_eq in Heq. subst; assumption.
  - intros Hin. exists s. split; [assumption | apply String.eqb_refl].
Qed.

Lemma Actor_init_cases (distribution : string) (is_continuous : bool) :
  let rejected :=
    ~ In (lower distribution) distributions
    \/ (lower distribution = "discrete" /\ is_continuous = true) in
  (rejected /\ Actor_init distribution is_continuous = Raise ValueError) \/
  (~ rejected /\ exists name, Actor_init distribution is_continuous = Ok name).
Proof.
  intros rejected. subst rejected. unfold Actor_init.
  destruct (mem (lower distribution) distributions) eqn:Hmem; cbn [negb].
  - apply mem_In in Hmem.
    destruct (String.eqb_spec (lower distribution) "discrete") as [Hd|Hd];
      destruct is_continuous; cbn [andb].
    + left. split; [right; auto | reflexivity].
    + right. split.
      * intros [Hn|[_ Hc]]; [contradiction | discriminate].
      * destruct (lower distribution =? "auto"); eauto.
    + right. split.
      * intros [Hn|[He _]]; contradiction.
      * destruct (lower distribution =? "auto"); eauto.
    + right. split.
      * intros [Hn|[He _]]; contradiction.
      * destruct (lower distribution =? "auto"); eauto.
  - left. split; [|reflexivity].
    left. intros Hin. apply mem_In in Hin. congruence.
Qed.

(** C8: the construction-time checks raise exactly when the lower-cased
    distribution name is not one of the five supported names, or is
    "discrete" while [is_continuous] is true; in every other configuration
    they pass and yield the stored distribution name. *)
Theorem Actor_init_raises_iff :
  forall (distribution : string) (is_continuous : bool),
    let rejected :=
      ~ In (lower distribution) ["auto"; "normal"; "tanh_normal"; "discrete"; "trunc_normal"]
      \/ (lower distribution = "discrete" /\ is_continuous = true) in
    ((exists e, Actor_init distribution is_continuous = Raise e) <-> rejected) /\
    ((exists name, Actor_init distribution is_continuous = Ok name) <-> ~ rejected).
Proof.
  intros distribution is_continuous rejected.
  destruct (Actor_init_cases distribution is_continuous) as [[Hr E]|[Hr [name E]]];
    fold distributions in rejected; fold rejected in Hr; rewrite E.
  - split; split; intros; eauto; try contradiction.
    destruct H as [name' E']. discriminate.
  - split; split; intros; eauto; try contradiction.
    destruct H as [e E']. discriminate.
Qed.

Example Actor_init_mixed_case : Actor_init "Tanh_Normal" true = Ok "tanh_normal".
Proof. reflexivity. Qed.

Example Actor_init_auto_continuous : Actor_init "AUTO" true = Ok "trunc_normal".
Proof. reflexivity. Qed.

Example Actor_init_discrete_continuous : Actor_init "discrete" true = Raise ValueError.
Proof. reflexivity. Qed.

Example Actor_init_unknown : Actor_init "beta" false = Raise ValueError.
Proof. reflexivity. Qed.

End ActorInitFacts.

(** ** Unimix smoothing *)

Module UnimixFacts.

Import DreamerV3.
Local Open Scope R_scope.

(** *** Slices of a flat buffer *)

Lemma chunks_fuel_nil (fuel k : nat) : chunks_fuel fuel k [] = [].
Proof. destruct fuel; reflexivity. Qed.

Lemma chunks_fuel_all (k : nat) :
  (0 < k)%nat ->
  forall m fuel l, length l = (m * k)%nat -> (m <= fuel)%nat ->
    Forall (fun g => length g = k) (chunks_fuel fuel k l) /\
    concat (chunks_fuel fuel k l) = l.
Proof.
  intros Hk. induction m as [|m IH]; intros fuel l Hl Hf.
  - destruct l; [|discriminate]. rewrite chunks_fuel_nil. split; constructor.
  - destruct fuel as [|fuel]; [lia|].
    rewrite Nat.mul_succ_l in Hl.
    destruct l as [|x l]; [simpl in Hl; lia|].
    cbn [chunks_fuel].
    destruct (IH fuel (skipn k (x :: l))) as [Hall Hcat].
    + rewrite length_skipn. lia.
    + lia.
    + split.
      * constructor; [|exact Hall]. rewrite length_firstn. lia.
      * cbn [concat]. rewrite Hcat. apply firstn_skipn.
Qed.

Lemma chunks_all (k m : nat) (l : list R) :
  (0 < k)%nat -> length l = (m * k)%nat ->
  Forall (fun g => length g = k) (chunks k l) /\ concat (chunks k l) = l.
Proof.
  intros Hk Hl. unfold chunks. apply (@chunks_fuel_all k Hk m); [exact Hl | nia].
Qed.

Lemma chunks_fuel_concat (k : nat) :
  (0 < k)%nat ->
  forall (ls : list row) fuel,
    Forall (fun g => length g = k) ls -> (length ls <= fuel)%nat ->
    chunks_fuel fuel k (concat ls) = ls.
Proof.
  intros Hk. induction ls as [|g ls IH]; intros fuel Hall Hf.
  - apply chunks_fuel_nil.
  - inversion Hall as [|g' ls' Hg Hls]; subst.
    destruct fuel as [|fuel]; [simpl in Hf; lia|].
    cbn [concat chunks_fuel].
    destruct (g ++ concat ls) as [|y rest] eqn:E.
    + destruct g; [simpl in Hk; lia | discriminate].
    + rewrite <- E. rewrite firstn_app, skipn_app.
      rewrite Nat.sub_diag, firstn_all, skipn_all. simpl.
      rewrite app_nil_r. f_equal. apply IH; [exact Hls | simpl in Hf; lia].
Qed.

Lemma concat_length_uniform (k : nat) (ls : list row) :
  Forall (fun g => length g = k) ls -> length (concat ls) = (length ls * k)%nat.
Proof.
  induction 1 as [|g ls Hg Hls IH]; simpl; auto.
  rewrite length_app, IH, Hg. reflexivity.
Qed.

Lemma chunks_concat (k : nat) (ls : list row) :
  (0 < k)%nat -> Forall (fun g => length g = k) ls -> chunks k (concat ls) = ls.
Proof.
  intros Hk Hall. unfold chunks. apply chunks_fuel_concat; auto.
  rewrite (concat_length_uniform Hall). nia.
Qed.

(** *** Sums *)

Lemma rsum_map_scale {A : Type} (f : A -> R) (k : R) (l : list A) :
  rsum (map (fun x => f x * k) l) = rsum (map f l) * k.
Proof. induction l; simpl; [ring | rewrite IHl; ring]. Qed.

Lemma rsum_map_affine (a b : R) (l : list R) :
  rsum (map (fun p => a * p + b) l) = a * rsum l + INR (length l) * b.
Proof.
  induction l as [|x l IH]; [simpl; ring|].
  cbn [map rsum length]. rewrite IH, S_INR. ring.
Qed.

Lemma rsum_map_le (f : R -> R) (d : R) (l : list R) :
  (forall q, In q l -> f q <= q + d) ->
  rsum (map f l) <= rsum l + INR (length l) * d.
Proof.
  induction l as [|x l IH]; intros Hf; [simpl; lra|].
  cbn [map rsum length]. rewrite S_INR.
  pose proof (Hf x (or_introl eq_refl)).
  assert (rsum (map f l) <= rsum l + INR (length l) * d)
    by (apply IH; intros q Hq; apply Hf; right; exact Hq).
  lra.
Qed.

Lemma rsum_pos (l : list R) : l <> [] -> (forall q, In q l -> 0 < q) -> 0 < rsum l.
Proof.
  induction l as [|x l IH]; intros Hne Hpos; [congruence|].
  simpl. pose proof (Hpos x (or_introl eq_refl)).
  destruct l as [|y l]; [simpl; lra|].
  assert (0 < rsum (y :: l)) by (apply IH; [discriminate | intros q Hq; apply Hpos; right; exact Hq]).
  lra.
Qed.

(** *** One slice *)

Lemma clamp_probs_bounds (eps p : R) :
  0 < eps <= 1 / 2 -> eps <= clamp_probs eps p <= 1 - eps.
Proof.
  intros He. unfold clamp_probs, Rmin, Rmax.
  destruct (Rle_dec p eps); destruct (Rle_dec _ (1 - eps)); lra.
Qed.

Lemma clamp_probs_le (eps p d : R) :
  0 < eps <= 1 / 2 -> 0 <= d -> eps - d <= p -> clamp_probs eps p <= p + d.
Proof.
  intros He Hd Hp. unfold clamp_probs, Rmin, Rmax.
  destruct (Rle_dec p eps); destruct (Rle_dec _ (1 - eps)); lra.
Qed.

(** Clamping and renormalising keeps every entry of a probability vector
    above a common lower bound [a], as long as [a] times the number of
    entries is at most one. *)
Lemma clamp_normalised_bound (eps a : R) (m : list R) :
  0 < eps <= 1 / 2 -> 0 < a -> a * INR (length m) <= 1 ->
  (forall q, In q m -> a <= q) -> rsum m = 1 ->
  forall p, In p m -> a <= clamp_probs eps p / rsum (map (clamp_probs eps) m).
Proof.
  intros He Ha Hlen Hlow Hsum p Hp.
  set (S := rsum (map (clamp_probs eps) m)).
  assert (HS : 0 < S).
  { apply rsum_pos.
    - destruct m; [contradiction | discriminate].
    - intros q Hq. apply in_map_iff in Hq. destruct Hq as [q' [<- _]].
      pose proof (clamp_probs_bounds q' He). lra. }
  assert (Hlen1 : 1 <= INR (length m)).
  { destruct m as [|x m]; [contradiction|].
    cbn [length]. rewrite S_INR. pose proof (pos_INR (length m)). lra. }
  pose proof (clamp_probs_bounds p He) as Hcp.
  apply Rmult_le_reg_r with S; [exact HS|].
  replace (clamp_probs eps p / S * S) with (clamp_probs eps p) by (field; lra).
  destruct (Rle_dec eps a) as [Hea|Hea].
  - (* no entry is raised: the clamped sum is at most one *)
    assert (HS1 : S <= 1).
    { pose proof (@rsum_map_le (clamp_probs eps) 0 m) as Hle.
      rewrite Rmult_0_r, Rplus_0_r, Hsum in Hle. apply Hle.
      intros q Hq. apply clamp_probs_le; [exact He | lra |].
      pose proof (Hlow q Hq). lra. }
    unfold clamp_probs, Rmin, Rmax in *.
    pose proof (Hlow p Hp) as Hap.
    destruct (Rle_dec p eps); destruct (Rle_dec _ (1 - eps)); try nra.
    + (* p was cut down to 1 - eps *)
      destruct m as [|x [|y m]]; [contradiction | |].
      * destruct Hp as [->|[]]. subst S. cbn [map rsum] in *.
        unfold clamp_probs, Rmin, Rmax in *.
        destruct (Rle_dec p eps); destruct (Rle_dec _ (1 - eps)); simpl in *; nra.
      * cbn [length] in Hlen. rewrite !S_INR in Hlen.
        pose proof (pos_INR (length m)). nra.
  - (* entries below eps are raised by at most eps - a each *)
    assert (HS1 : S <= 1 + INR (length m) * (eps - a)).
    { rewrite <- Hsum. apply rsum_map_le.
      intros q Hq. apply clamp_probs_le; [exact He | lra |].
      pose proof (Hlow q Hq). lra. }
    assert (a * S <= eps) by nra.
    lra.
Qed.

Lemma softmax_length (g : row) : length (softmax g) = length g.
Proof. unfold softmax. apply length_map. Qed.

Lemma softmax_distribution (g : row) :
  g <> [] -> (forall p, In p (softmax g) -> 0 < p) /\ rsum (softmax g) = 1.
Proof.
  intros Hg.
  assert (Hs : 0 < rsum (map exp g)).
  { apply rsum_pos.
    - destruct g; [congruence | discriminate].
    - intros q Hq. apply in_map_iff in Hq. destruct Hq as [x [<- _]]. apply exp_pos. }
  unfold softmax. split.
  - intros p Hp. apply in_map_iff in Hp. destruct Hp as [x [<- _]].
    apply Rdiv_lt_0_compat; [apply exp_pos | exact Hs].
  - unfold Rdiv. rewrite rsum_map_scale. field. lra.
Qed.

(** The categorical distribution given by the logarithms of positive weights
    is the normalised weights. *)
Lemma softmax_of_ln (c : list R) :
  (forall q, In q c -> 0 < q) -> softmax (map ln c) = map (fun q => q / rsum c) c.
Proof.
  intros Hpos. unfold softmax. rewrite !map_map.
  assert (E : map (fun x => exp (ln x)) c = c).
  { rewrite <- (map_id c) at 2. apply map_ext_in. intros q Hq. apply exp_ln. auto. }
  rewrite E. apply map_ext_in. intros q Hq. rewrite exp_ln by auto. reflexivity.
Qed.

Lemma mix_slice_length (eps u : R) (k : nat) (g : row) :
  length (mix_slice eps u k g) = length g.
Proof.
  unfold mix_slice, probs_to_logits. rewrite !length_map. apply softmax_length.
Qed.

(** The bound on one categorical variable with [K] classes. *)
Lemma mix_slice_bound (eps u : R) (K : nat) (g : row) :
  0 < eps <= 1 / 2 -> 0 < u <= 1 -> (1 <= K)%nat -> length g = K ->
  forall p, In p (softmax (mix_slice eps u K g)) -> u / INR K <= p.
Proof.
  intros He Hu HK Hg p Hp.
  assert (HK0 : 0 < INR K) by (apply lt_0_INR; lia).
  assert (Hne : g <> []) by (destruct g; [simpl in Hg; lia | discriminate]).
  destruct (softmax_distribution Hne) as [Hpos Hsum].
  unfold mix_slice, probs_to_logits in Hp.
  set (m := map (fun p => (1 - u) * p + u * (1 / INR K)) (softmax g)) in *.
  rewrite <- (map_map (clamp_probs eps) ln) in Hp.
  rewrite softmax_of_ln in Hp.
  2:{ intros q Hq. apply in_map_iff in Hq. destruct Hq as [q' [<- _]].
      pose proof (clamp_probs_bounds q' He). lra. }
  apply in_map_iff in Hp. destruct Hp as [c [<- Hc]].
  apply in_map_iff in Hc. destruct Hc as [q [<- Hq]].
  assert (Hlen : length m = K).
  { subst m. rewrite length_map, softmax_length. exact Hg. }
  apply clamp_normalised_bound; auto.
  - apply Rdiv_lt_0_compat; lra.
  - rewrite Hlen. replace (u / INR K * INR K) with u by (field; lra). lra.
  - intros q' Hq'. subst m. apply in_map_iff in Hq'. destruct Hq' as [p' [<- Hp']].
    pose proof (Hpos p' Hp').
    replace (u / INR K) with (0 + u * (1 / INR K)) by (field; lra).
    apply Rplus_le_compat_r. nra.
  - subst m. rewrite rsum_map_affine, Hsum, softmax_length, Hg. field. lra.
Qed.

(** *** Whole tensors *)

Lemma numel_app (a b : list nat) : numel (a ++ b) = (numel a * numel b)%nat.
Proof. unfold numel. induction a as [|x a IH]; simpl; [lia | rewrite IH; lia]. Qed.

(** The class probabilities read off the mixed tensor are those of the mixed
    slices. *)
Lemma mix_tensor_probs (eps u : R) (k K m : nat) (t : Tensor) :
  (1 <= K)%nat -> last (shape t) 0%nat = K -> length (data t) = (m * K)%nat ->
  categorical_probs K (data (mix_tensor eps u k t))
  = map (fun g => softmax (mix_slice eps u k g)) (chunks K (data t)).
Proof.
  intros HK Hlast Hlen. unfold categorical_probs, mix_tensor. cbn [data].
  rewrite Hlast. destruct (@chunks_all K m (data t)) as [Hall _]; auto.
  rewrite chunks_concat.
  - apply map_map.
  - lia.
  - apply Forall_forall. intros g Hg. apply in_map_iff in Hg.
    destruct Hg as [g' [<- Hg']]. rewrite mix_slice_length.
    rewrite Forall_forall in Hall. auto.
Qed.

Lemma mix_tensor_bound (eps u : R) (K m : nat) (t : Tensor) :
  0 < eps <= 1 / 2 -> 0 < u <= 1 ->
  (1 <= K)%nat -> last (shape t) 0%nat = K -> length (data t) = (m * K)%nat ->
  forall probs p,
    In probs (categorical_probs K (data (mix_tensor eps u K t))) -> In p probs ->
    u / INR K <= p.
Proof.
  intros He Hu HK Hlast Hlen probs p Hprobs Hp.
  rewrite (@mix_tensor_probs eps u K K m t HK Hlast Hlen) in Hprobs.
  apply in_map_iff in Hprobs. destruct Hprobs as [g [<- Hg]].
  destruct (@chunks_all K m (data t)) as [Hall _]; auto.
  rewrite Forall_forall in Hall.
  apply (@mix_slice_bound eps u K g He Hu HK (Hall g Hg)). exact Hp.
Qed.

Lemma view_split_last_3 (a b N k : nat) (d : list R) :
  (0 < a * b)%nat -> (0 < k)%nat ->
  view_split_last {| shape := [a; b; (N * k)%nat]; data := d |} k
  = Ok {| shape := [a; b; N; k]; data := d |}.
Proof.
  intros Hab Hk. unfold view_split_last. cbn [shape data removelast numel fold_right app].
  replace (a * (b * (N * k * 1)))%nat with (N * (a * (b * 1) * k))%nat by lia.
  assert (Hm : (a * (b * 1) * k)%nat <> 0%nat) by nia.
  destruct (Nat.eqb_spec (a * (b * 1) * k) 0); [contradiction|].
  rewrite Nat.Div0.mod_mul, Nat.div_mul by exact Hm. reflexivity.
Qed.

Lemma view_merge_last2_4 (a b N k : nat) (d : list R) :
  (0 < a * b)%nat ->
  view_merge_last2 {| shape := [a; b; N; k]; data := d |}
  = Ok {| shape := [a; b; (N * k)%nat]; data := d |}.
Proof.
  intros Hab. unfold view_merge_last2. cbn [shape data length Nat.sub firstn numel fold_right app].
  replace (a * (b * (N * (k * 1))))%nat with (N * k * (a * (b * 1)))%nat by lia.
  assert (Hm : (a * (b * 1))%nat <> 0%nat) by nia.
  destruct (Nat.eqb_spec (a * (b * 1)) 0); [contradiction|].
  rewrite Nat.Div0.mod_mul, Nat.div_mul by exact Hm. reflexivity.
Qed.

Lemma RSSM_uniform_mix_ok (eps u : R) (discrete : nat) (logits : Tensor) :
  0 < u -> well_formed logits -> rssm_supported discrete (shape logits) ->
  exists (t : Tensor) (m : nat),
    RSSM_uniform_mix eps discrete u logits = Ok (mkTensor
      (firstn 2 (shape logits) ++ [(numel (skipn 2 (shape logits)))%nat])
      (data (mix_tensor eps u discrete t))) /\
    last (shape t) 0%nat = discrete /\ data t = data logits /\
    length (data t) = (m * discrete)%nat.
Proof.
  intros Hu Hwf Hs. destruct logits as [s d]. unfold well_formed in Hwf.
  cbn [shape data] in *. unfold RSSM_uniform_mix, dim. cbn [shape].
  destruct s as [|a [|b [|x [|y [|z s]]]]]; try contradiction.
  - (* [a, b, x] *)
    destruct Hs as [Hab [Hk Hmod]].
    assert (Hx : exists N, x = (N * discrete)%nat).
    { exists (x / discrete)%nat. apply Nat.Div0.div_exact in Hmod. lia. }
    clear Hmod. destruct Hx as [N ->].
    cbn [length Nat.eqb]. rewrite view_split_last_3 by assumption.
    cbn [bind]. destruct (Rlt_dec 0 u) as [_|Hn]; [|contradiction].
    unfold mix_tensor at 1. cbn [shape]. rewrite view_merge_last2_4 by assumption.
    exists (mkTensor [a; b; N; discrete] d), (a * b * N)%nat.
    cbn [shape data firstn skipn app numel fold_right last].
    repeat split.
    + rewrite Nat.mul_1_r. reflexivity.
    + rewrite Hwf. cbn [numel fold_right]. lia.
  - (* [a, b, x, y] *)
    destruct Hs as [Hab [Hk ->]].
    cbn [length Nat.eqb negb bind]. destruct (Rlt_dec 0 u) as [_|Hn]; [|contradiction].
    unfold mix_tensor at 1. cbn [shape]. rewrite view_merge_last2_4 by assumption.
    exists (mkTensor [a; b; x; discrete] d), (a * b * x)%nat.
    cbn [shape data firstn skipn app numel fold_right last].
    repeat split.
    + rewrite Nat.mul_1_r. reflexivity.
    + rewrite Hwf. cbn [numel fold_right]. lia.
Qed.

Lemma shape_last (s : list nat) :
  s <> [] -> numel s = (numel (removelast s) * last s 0)%nat.
Proof.
  intros Hs. rewrite (app_removelast_last 0%nat Hs) at 1.
  rewrite numel_app. cbn [numel fold_right]. lia.
Qed.

Lemma map_id_on {A : Type} (f : A -> A) (l : list A) :
  (forall x, In x l -> f x = x) -> map f l = l.
Proof.
  intros H. rewrite <- (map_id l) at 2. apply map_ext_in. exact H.
Qed.

(** On one categorical variable, when no mixed probability leaves
    [eps, 1 - eps], the probabilities of the returned logits are exactly the
    mixture [(1 - u) * p + u / K] of the given ones with the uniform
    distribution. *)
Lemma mix_slice_exact (eps u : R) (K : nat) (g : row) :
  0 < eps -> (1 <= K)%nat -> length g = K ->
  (forall p, In p (softmax g) -> eps <= (1 - u) * p + u * (1 / INR K) <= 1 - eps) ->
  softmax (mix_slice eps u K g)
  = map (fun p => (1 - u) * p + u * (1 / INR K)) (softmax g).
Proof.
  intros He HK Hg Hin.
  assert (HK0 : 0 < INR K) by (apply lt_0_INR; lia).
  assert (Hne : g <> []) by (destruct g; [simpl in Hg; lia | discriminate]).
  destruct (softmax_distribution Hne) as [Hpos Hsum].
  unfold mix_slice, probs_to_logits.
  set (m := map (fun p => (1 - u) * p + u * (1 / INR K)) (softmax g)).
  assert (Hm : forall q, In q m -> eps <= q <= 1 - eps).
  { intros q Hq. unfold m in Hq. apply in_map_iff in Hq. destruct Hq as [p [<- Hp]].
    apply Hin. exact Hp. }
  rewrite <- (map_map (clamp_probs eps) ln).
  assert (Ecl : map (clamp_probs eps) m = m).
  { apply map_id_on. intros q Hq. destruct (Hm q Hq) as [H1 H2].
    unfold clamp_probs. rewrite Rmax_left by exact H1. apply Rmin_left. exact H2. }
  rewrite Ecl. rewrite softmax_of_ln by (intros q Hq; destruct (Hm q Hq); lra).
  assert (Es : rsum m = 1).
  { unfold m. rewrite rsum_map_affine, Hsum, softmax_length, Hg. field. lra. }
  rewrite Es. apply map_id_on. intros q _. field.
Qed.

Lemma softmax_singleton (x : R) : softmax [x] = [1].
Proof.
  unfold softmax. cbn [map rsum]. f_equal. pose proof (exp_pos x). field. lra.
Qed.

Lemma softmax_le_1 (g : row) (p : R) : In p (softmax g) -> 0 < p <= 1.
Proof.
  intros Hp.
  assert (Hne : g <> []) by (destruct g; [destruct Hp | discriminate]).
  destruct (softmax_distribution Hne) as [Hpos Hsum]. split; [auto|].
  rewrite <- Hsum. clear Hsum. revert Hpos Hp. generalize (softmax g). intros l.
  induction l as [|q l IH]; intros Hpos Hp; [destruct Hp|].
  assert (Hnn : 0 <= rsum l).
  { clear - Hpos. induction l as [|r l IH]; simpl; [lra|].
    assert (0 < r) by (apply Hpos; right; left; reflexivity).
    assert (0 <= rsum l) by (apply IH; intros z [Hz|Hz]; apply Hpos; [left | right; right]; auto).
    lra. }
  assert (Hq : 0 < q) by (apply Hpos; left; reflexivity).
  simpl. destruct Hp as [->|Hp]; [lra|].
  assert (p <= rsum l) by (apply IH; [intros z Hz; apply Hpos; right; exact Hz | exact Hp]).
  lra.
Qed.

(** The returned logits of one categorical variable are the logarithms of
    the mixture, clamped to [eps, 1 - eps]. *)
Lemma mix_slice_formula (eps u : R) (K : nat) (g : row) :
  mix_slice eps u K g
  = map (fun p => ln (clamp_probs eps ((1 - u) * p + u * (1 / INR K)))) (softmax g).
Proof. unfold mix_slice, probs_to_logits. rewrite map_map. reflexivity. Qed.

(** As soon as [eps <= u / K] the clamp does not change the distribution:
    the returned logits stand for the mixture itself. *)
Lemma mix_slice_represents (eps u : R) (K : nat) (g : row) :
  0 < eps <= 1 / 2 -> 0 < u <= 1 -> (1 <= K)%nat -> length g = K ->
  eps <= u / INR K ->
  softmax (mix_slice eps u K g)
  = map (fun p => (1 - u) * p + u * (1 / INR K)) (softmax g).
Proof.
  intros He Hu HK Hg Heps.
  destruct (Nat.eq_dec K 1) as [->|HK1].
  - destruct g as [|x [|y g]]; try (simpl in Hg; lia).
    rewrite mix_slice_formula, softmax_singleton. cbn [map].
    rewrite softmax_singleton. f_equal. simpl. field.
  - assert (HK2 : 2 <= INR K) by (apply (le_INR 2); lia).
    assert (Hinv : u / INR K <= u / 2).
    { unfold Rdiv. apply Rmult_le_compat_l; [lra|]. apply Rinv_le_contravar; lra. }
    apply mix_slice_exact; try assumption; try lra.
    intros p Hp. destruct (softmax_le_1 g p Hp) as [Hp0 Hp1].
    replace (u * (1 / INR K)) with (u / INR K) by (field; lra).
    assert (0 <= (1 - u) * p) by (apply Rmult_le_pos; lra).
    assert ((1 - u) * p <= 1 - u) by nra.
    lra.
Qed.

Lemma concat_mix_length (eps u : R) (K : nat) (ls : list row) :
  length (concat (map (mix_slice eps u K) ls)) = length (concat ls).
Proof.
  induction ls as [|g ls IH]; simpl; auto.
  rewrite !length_app, mix_slice_length, IH. reflexivity.
Qed.

(** What the mixing does to a whole tensor whose last axis has [K >= 1]
    classes. *)
Lemma mix_tensor_spec (eps u : R) (K m : nat) (t : Tensor) :
  0 < eps <= 1 / 2 -> 0 < u <= 1 ->
  (1 <= K)%nat -> last (shape t) 0%nat = K -> length (data t) = (m * K)%nat ->
  data (mix_tensor eps u K t)
  = concat (map (fun g => map (fun p => ln (clamp_probs eps ((1 - u) * p + u * (1 / INR K))))
                              (softmax g))
                (chunks K (data t))) /\
  length (data (mix_tensor eps u K t)) = length (data t) /\
  (forall probs p,
     In probs (categorical_probs K (data (mix_tensor eps u K t))) -> In p probs ->
     u / INR K <= p) /\
  (eps <= u / INR K ->
   categorical_probs K (data (mix_tensor eps u K t))
   = map (fun g => map (fun p => (1 - u) * p + u * (1 / INR K)) (softmax g))
         (chunks K (data t))).
Proof.
  intros He Hu HK Hlast Hlen.
  destruct (@chunks_all K m (data t)) as [Hall Hcat]; [lia | exact Hlen |].
  split; [|split; [|split]].
  - unfold mix_tensor. cbn [data]. rewrite Hlast. f_equal.
    apply map_ext. intros g. apply mix_slice_formula.
  - unfold mix_tensor. cbn [data]. rewrite Hlast, concat_mix_length, Hcat. reflexivity.
  - apply (@mix_tensor_bound eps u K m t); assumption.
  - intros Heps. rewrite (@mix_tensor_probs eps u K K m t HK Hlast Hlen).
    apply map_ext_in. intros g Hg. rewrite Forall_forall in Hall.
    apply mix_slice_represents; auto.
Qed.

(** C4: for [0 < u <= 1] and a tensor of a supported shape, [_uniform_mix]
    returns, slice by slice along the class axis, the logarithms of
    [p' = (1 - u) * softmax(l) + u / K] clamped to [eps, 1 - eps] (torch's
    [probs_to_logits]), one logit per input logit.  Every class probability
    of the categorical distributions these logits define is at least
    [u / K], and as soon as [eps <= u / K] these probabilities are [p']
    itself.  In the RSSM [K = discrete] and the tensor has shape
    [T, B, N * discrete] or [T, B, N, discrete]; in the actor [K] is the
    size of the last axis. *)
Theorem uniform_mix_lower_bound :
  forall (eps u : R) (discrete : nat) (logits : Tensor),
    0 < eps <= 1 / 2 -> 0 < u <= 1 -> well_formed logits ->
    (rssm_supported discrete (shape logits) ->
     exists out,
       RSSM_uniform_mix eps discrete u logits = Ok out /\
       shape out = firstn 2 (shape logits) ++ [numel (skipn 2 (shape logits))] /\
       data out
       = concat (map (fun g =>
                        map (fun p => ln (clamp_probs eps
                                            ((1 - u) * p + u * (1 / INR discrete))))
                            (softmax g))
                     (chunks discrete (data logits))) /\
       length (data out) = length (data logits) /\
       (forall probs p,
          In probs (categorical_probs discrete (data out)) -> In p probs ->
          u / INR discrete <= p) /\
       (eps <= u / INR discrete ->
        categorical_probs discrete (data out)
        = map (fun g => map (fun p => (1 - u) * p + u * (1 / INR discrete)) (softmax g))
              (chunks discrete (data logits)))) /\
    (shape logits <> [] ->
     exists out,
       Actor_uniform_mix eps u logits = Ok out /\
       shape out = shape logits /\
       data out
       = concat (map (fun g =>
                        map (fun p => ln (clamp_probs eps
                                            ((1 - u) * p
                                             + u * (1 / INR (last (shape logits) 0%nat)))))
                            (softmax g))
                     (chunks (last (shape logits) 0%nat) (data logits))) /\
       length (data out) = length (data logits) /\
       (forall probs p,
          In probs (categorical_probs (last (shape logits) 0%nat) (data out)) -> In p probs ->
          u / INR (last (shape logits) 0%nat) <= p) /\
       (eps <= u / INR (last (shape logits) 0%nat) ->
        categorical_probs (last (shape logits) 0%nat) (data out)
        = map (fun g =>
                 map (fun p => (1 - u) * p + u * (1 / INR (last (shape logits) 0%nat)))
                     (softmax g))
              (chunks (last (shape logits) 0%nat) (data logits)))).
Proof.
  intros eps u discrete logits He Hu Hwf. split.
  - intros Hs.
    assert (Hk : (1 <= discrete)%nat).
    { destruct (shape logits) as [|a [|b [|x [|y [|z s]]]]]; try contradiction;
        destruct Hs as [_ [Hk _]]; lia. }
    destruct (@RSSM_uniform_mix_ok eps u discrete logits) as [t [m [E [Hlast [Hd Hlen]]]]];
      [lra | assumption | assumption |].
    destruct (@mix_tensor_spec eps u discrete m t He Hu Hk Hlast Hlen)
      as [Q1 [Q2 [Q3 Q4]]].
    rewrite Hd in Q1, Q2, Q4.
    eexists. split; [exact E|]. cbn [shape data]. auto.
  - intros Hs.
    set (K := last (shape logits) 0%nat).
    exists (mix_tensor eps u K logits).
    split.
    { unfold Actor_uniform_mix. destruct (Rlt_dec 0 u) as [_|Hn]; [|lra].
      fold K. destruct (shape logits); [congruence | reflexivity]. }
    split; [reflexivity|].
    pose proof (shape_last Hs) as Hnum. fold K in Hnum.
    destruct (Nat.eq_dec K 0) as [HK0|HK0].
    + (* no class at all: the tensor is empty *)
      assert (Hnil : data logits = []).
      { apply length_zero_iff_nil. rewrite Hwf, Hnum, HK0. lia. }
      unfold categorical_probs, mix_tensor. cbn [data]. rewrite Hnil.
      unfold chunks. cbn [length chunks_fuel map concat].
      repeat split; try reflexivity. intros probs p Hprobs. destruct Hprobs.
    + apply (@mix_tensor_spec eps u K (numel (removelast (shape logits))) logits);
        try assumption; try reflexivity; try lia.
      rewrite Hwf. exact Hnum.
Qed.

Lemma uniform_mix_lower_bound_witness :
  (exists out,
     RSSM_uniform_mix (1 / 1000) 2 (1 / 100) (mkTensor [1%nat; 1%nat; 4%nat] [0; 1; 2; 0])
     = Ok out /\
     shape out = firstn 2 [1%nat; 1%nat; 4%nat] ++ [numel (skipn 2 [1%nat; 1%nat; 4%nat])] /\
     data out
     = concat (map (fun g =>
                      map (fun p => ln (clamp_probs (1 / 1000)
                                          ((1 - 1 / 100) * p + 1 / 100 * (1 / INR 2))))
                          (softmax g))
                   (chunks 2 [0; 1; 2; 0])) /\
     length (data out) = length [0; 1; 2; 0] /\
     (forall probs p,
        In probs (categorical_probs 2 (data out)) -> In p probs -> 1 / 100 / INR 2 <= p) /\
     (1 / 1000 <= 1 / 100 / INR 2 ->
      categorical_probs 2 (data out)
      = map (fun g => map (fun p => (1 - 1 / 100) * p + 1 / 100 * (1 / INR 2)) (softmax g))
            (chunks 2 [0; 1; 2; 0]))) /\
  (exists out,
     Actor_uniform_mix (1 / 1000) (1 / 100) (mkTensor [1%nat; 1%nat; 4%nat] [0; 1; 2; 0])
     = Ok out /\
     shape out = [1%nat; 1%nat; 4%nat] /\
     data out
     = concat (map (fun g =>
                      map (fun p => ln (clamp_probs (1 / 1000)
                                          ((1 - 1 / 100) * p + 1 / 100 * (1 / INR 4))))
                          (softmax g))
                   (chunks 4 [0; 1; 2; 0])) /\
     length (data out) = length [0; 1; 2; 0] /\
     (forall probs p,
        In probs (categorical_probs 4 (data out)) -> In p probs -> 1 / 100 / INR 4 <= p) /\
     (1 / 1000 <= 1 / 100 / INR 4 ->
      categorical_probs 4 (data out)
      = map (fun g => map (fun p => (1 - 1 / 100) * p + 1 / 100 * (1 / INR 4)) (softmax g))
            (chunks 4 [0; 1; 2; 0]))).
Proof.
  destruct (@uniform_mix_lower_bound (1 / 1000) (1 / 100) 2
              (mkTensor [1%nat; 1%nat; 4%nat] [0; 1; 2; 0])) as [Hrssm Hactor].
  - lra.
  - lra.
  - reflexivity.
  - split.
    + apply Hrssm. simpl. repeat split; lia.
    + apply Hactor. discriminate.
Defined.

End UnimixFacts.

(** ** RSSM: resets inside [dynamic] *)

Module RSSMFacts.

Import DreamerV3 UnimixFacts.
Local Open Scope R_scope.

(** *** The monadic list traversals *)

Lemma zipM_spec {A B C : Type} (f : A -> B -> result C) (a : list A) (b : list B) :
  length a = length b ->
  (forall i x y, nth_error a i = Some x -> nth_error b i = Some y -> exists z, f x y = Ok z) ->
  exists cs,
    zipM f a b = Ok cs /\ length cs = length a /\
    forall i x y, nth_error a i = Some x -> nth_error b i = Some y ->
      exists z, f x y = Ok z /\ nth_error cs i = Some z.
Proof.
  intros Hl Hf. destruct (zipM_total f a b Hl Hf) as [cs Hcs].
  exists cs. split; [exact Hcs|]. split; [apply (zipM_length _ _ _ Hcs)|].
  apply (zipM_nth_error _ _ _ Hcs).
Qed.

Lemma imapM_from_spec {A B : Type} (f : nat -> A -> result B) (l : list A) :
  forall a,
    (forall i x, nth_error l i = Some x -> exists z, f (a + i)%nat x = Ok z) ->
    exists rs,
      imapM_from f a l = Ok rs /\ length rs = length l /\
      forall i x, nth_error l i = Some x ->
        exists z, f (a + i)%nat x = Ok z /\ nth_error rs i = Some z.
Proof.
  induction l as [|x0 l IH]; intros a Hf.
  - exists []. repeat split. intros [|i] x Hx; discriminate.
  - destruct (Hf 0%nat x0 eq_refl) as [z0 Hz0]. rewrite Nat.add_0_r in Hz0.
    destruct (IH (S a)) as [rs [Hrs [Hlen Hnth]]].
    { intros i x Hx. replace (S a + i)%nat with (a + S i)%nat by lia.
      apply Hf. exact Hx. }
    exists (z0 :: rs). simpl. rewrite Hz0. simpl. rewrite Hrs. simpl.
    repeat split; [congruence|].
    intros [|i] x Hx; simpl in Hx.
    + injection Hx as <-. rewrite Nat.add_0_r. eauto.
    + replace (a + S i)%nat with (S a + i)%nat by lia. apply Hnth. exact Hx.
Qed.

Lemma split_nth_error {A B : Type} (l : list (A * B)) (i : nat) :
  nth_error (fst (split l)) i = option_map fst (nth_error l i) /\
  nth_error (snd (split l)) i = option_map snd (nth_error l i).
Proof.
  revert i. induction l as [|[x y] l IH]; intros [|i]; simpl; auto;
    destruct (split l) as [xs ys] eqn:E; simpl; auto.
Qed.

Lemma imap_from_const {A B : Type} (f : A -> B) (l : list A) (a : nat) :
  imap_from (fun _ x => f x) a l = map f l.
Proof. revert a. induction l as [|x l IH]; intros a; simpl; [|rewrite IH]; reflexivity. Qed.

Lemma imap_from_length {A B : Type} (f : nat -> A -> B) (l : list A) (a : nat) :
  length (imap_from f a l) = length l.
Proof. revert a. induction l as [|x l IH]; intros a; simpl; [|rewrite IH]; reflexivity. Qed.

Lemma concat_map_length (f : row -> row) (ls : list row) :
  (forall g, length (f g) = length g) ->
  length (concat (map f ls)) = length (concat ls).
Proof.
  intros Hf. induction ls as [|g ls IH]; simpl; auto.
  rewrite !length_app, Hf, IH. reflexivity.
Qed.

(** *** Masks *)

Lemma tanh_0 : tanh 0 = 0.
Proof. unfold tanh. rewrite sinh_0, cosh_0. field. Qed.

Lemma blend_first (x y : row) : length x = length y -> blend 1 x y = Ok y.
Proof.
  intros Hl. unfold blend. rewrite ew_ok by (rewrite !length_map; exact Hl).
  f_equal. revert y Hl.
  induction x as [|a x IH]; intros [|b y] Hl; simpl in *; try discriminate; auto.
  f_equal; [ring | apply IH; lia].
Qed.

Lemma blend_not_first (x y : row) : length x = length y -> blend 0 x y = Ok x.
Proof.
  intros Hl. unfold blend. rewrite ew_ok by (rewrite !length_map; exact Hl).
  f_equal. revert y Hl.
  induction x as [|a x IH]; intros [|b y] Hl; simpl in *; try discriminate; auto.
  f_equal; [ring | apply IH; lia].
Qed.

Lemma blend_ok (f : R) (x y : row) :
  length x = length y -> exists z, blend f x y = Ok z /\ length z = length x.
Proof.
  intros Hl. unfold blend. rewrite ew_ok by (rewrite !length_map; exact Hl).
  eexists. split; [reflexivity|].
  rewrite zipw_length; rewrite !length_map; auto.
Qed.

Lemma scale_first (a : row) : map (fun v => (1 - 1) * v) a = map (fun _ => 0) a.
Proof. apply map_ext. intros v. ring. Qed.

Lemma scale_not_first (a : row) : map (fun v => (1 - 0) * v) a = a.
Proof. rewrite <- (map_id a) at 2. apply map_ext. intros v. ring. Qed.

Lemma split_lengths {A B : Type} (l : list (A * B)) :
  length (fst (split l)) = length l /\ length (snd (split l)) = length l.
Proof.
  induction l as [|[x y] l IH]; simpl; auto.
  destruct (split l) as [xs ys]; simpl in *. destruct IH. split; congruence.
Qed.

(** *** One batch row through the transition and representation models *)

Section Networks.

Variable noise : Type.
Variable mode_of : row -> row.
Variable rsample : noise -> row -> row.
Variable eps : R.
Variable recurrent_model : row -> row -> row.
Variables representation_model transition_model : row -> row.
Variables (discrete : nat) (unimix : R).

(** Number of categorical variables of the stochastic state. *)
Variable stoch : nat.

Hypothesis Hdiscrete : (0 < discrete)%nat.
Hypothesis Htransition : forall h, length (transition_model h) = (stoch * discrete)%nat.
Hypothesis Hrepresentation : forall x, length (representation_model x) = (stoch * discrete)%nat.
Hypothesis Hmode : forall l, length (mode_of l) = length l.

Local Abbreviation transition_row :=
  (RSSM_transition_row mode_of rsample eps transition_model discrete unimix).
Local Abbreviation representation_row :=
  (RSSM_representation_row mode_of rsample eps representation_model discrete unimix).
Local Abbreviation transition :=
  (RSSM_transition mode_of rsample eps transition_model discrete unimix).
Local Abbreviation representation :=
  (RSSM_representation mode_of rsample eps representation_model discrete unimix).

Lemma uniform_mix_row (r : row) :
  length r = (stoch * discrete)%nat ->
  exists lg,
    RSSM_uniform_mix eps discrete unimix (tensor3 r)
    = Ok (mkTensor [1%nat; 1%nat; (stoch * discrete)%nat] lg) /\
    length lg = (stoch * discrete)%nat.
Proof.
  intros Hr. unfold tensor3. rewrite Hr. unfold RSSM_uniform_mix, dim.
  cbn [shape length Nat.eqb]. rewrite view_split_last_3 by lia. cbn [bind].
  destruct (Rlt_dec 0 unimix) as [Hu|Hu].
  - unfold mix_tensor. cbn [shape data last]. rewrite view_merge_last2_4 by lia.
    eexists. split; [reflexivity|].
    rewrite concat_map_length by (intros g; apply mix_slice_length).
    destruct (@chunks_all discrete stoch r Hdiscrete Hr) as [_ Hcat].
    rewrite Hcat. exact Hr.
  - rewrite view_merge_last2_4 by lia. eauto.
Qed.

Lemma stochastic_state_row (lg : row) (sample : option (nat -> noise)) :
  length lg = (stoch * discrete)%nat ->
  exists st,
    compute_stochastic_state mode_of rsample
      (mkTensor [1%nat; 1%nat; (stoch * discrete)%nat] lg) discrete sample
    = Ok (mkTensor [1%nat; 1%nat; stoch; discrete] st) /\
    (sample = None -> length st = (stoch * discrete)%nat).
Proof.
  intros Hl. unfold compute_stochastic_state.
  rewrite view_split_last_3 by lia. cbn [bind shape data].
  eexists. split; [reflexivity|]. intros ->.
  rewrite imap_from_const, concat_map_length by exact Hmode.
  destruct (@chunks_all discrete stoch lg Hdiscrete Hl) as [_ Hcat].
  rewrite Hcat. exact Hl.
Qed.

Lemma transition_row_ok (h : row) (sample : option (nat -> noise)) :
  exists lg st,
    transition_row h sample = Ok (lg, st) /\
    (sample = None -> length st = (stoch * discrete)%nat).
Proof.
  unfold RSSM_transition_row.
  destruct (@uniform_mix_row (transition_model h) (Htransition h)) as [lg [E Hl]]. rewrite E. cbn [bind].
  destruct (@stochastic_state_row lg sample Hl) as [st [E' Hs]]. rewrite E'. cbn [bind data].
  eauto.
Qed.

Lemma representation_row_ok (h e : row) (xi : nat -> noise) :
  exists lg st, representation_row h e xi = Ok (lg, st).
Proof.
  unfold RSSM_representation_row.
  destruct (@uniform_mix_row (representation_model (h ++ e)) (Hrepresentation (h ++ e))) as [lg [E Hl]]. rewrite E. cbn [bind].
  destruct (@stochastic_state_row lg (Some xi) Hl) as [st [E' Hs]]. rewrite E'. cbn [bind data].
  eauto.
Qed.

(** *** The batched versions, position by position *)

Lemma transition_ok (hs : list row) (sample : option (nat -> nat -> noise)) :
  exists lgs sts,
    transition hs sample = Ok (lgs, sts) /\
    length lgs = length hs /\ length sts = length hs /\
    forall i h, nth_error hs i = Some h ->
      exists lg st,
        transition_row h (option_map (fun xi => xi i) sample) = Ok (lg, st) /\
        nth_error lgs i = Some lg /\ nth_error sts i = Some st.
Proof.
  unfold RSSM_transition.
  destruct (imapM_from_spec
              (fun i h => transition_row h (option_map (fun xi => xi i) sample)) hs 0)
    as [rs [E [Hlen Hnth]]].
  { intros i h _. destruct (transition_row_ok h (option_map (fun xi => xi (0 + i)%nat) sample))
      as [lg [st [E _]]]. eauto. }
  rewrite E. cbn [bind].
  destruct (split_lengths rs) as [L1 L2].
  exists (fst (split rs)), (snd (split rs)).
  split; [destruct (split rs); reflexivity|].
  split; [congruence|]. split; [congruence|].
  intros i h Hh. destruct (Hnth i h Hh) as [[lg st] [Ez Hz]]. simpl in Ez.
  exists lg, st. split; [exact Ez|].
  destruct (split_nth_error rs i) as [N1 N2]. rewrite N1, N2, Hz. auto.
Qed.

Lemma representation_ok (hs es : list row) (xi : nat -> nat -> noise) :
  length hs = length es ->
  exists lgs sts,
    representation hs es xi = Ok (lgs, sts) /\
    length lgs = length hs /\ length sts = length hs /\
    forall i h e, nth_error hs i = Some h -> nth_error es i = Some e ->
      exists lg st,
        representation_row h e (xi i) = Ok (lg, st) /\
        nth_error lgs i = Some lg /\ nth_error sts i = Some st.
Proof.
  intros Hl. unfold RSSM_representation.
  destruct (zipM_spec (fun h e => Ok (h, e)) hs es Hl) as [he [E [Hlen Hnth]]];
    [eauto|].
  rewrite E. cbn [bind].
  destruct (imapM_from_spec
              (fun i (p : row * row) => representation_row (fst p) (snd p) (xi i)) he 0)
    as [rs [E' [Hlen' Hnth']]].
  { intros i [h e] _. cbn [fst snd].
    destruct (representation_row_ok h e (xi (0 + i)%nat)) as [lg [st Er]]. eauto. }
  rewrite E'. cbn [bind].
  destruct (split_lengths rs) as [L1 L2].
  exists (fst (split rs)), (snd (split rs)).
  split; [destruct (split rs); reflexivity|].
  split; [congruence|]. split; [congruence|].
  intros i h e Hh He.
  destruct (Hnth i h e Hh He) as [z [Ez Hz]]. injection Ez as <-.
  destruct (Hnth' i (h, e) Hz) as [[lg st] [Er Hr]]. simpl in Er.
  exists lg, st. split; [exact Er|].
  destruct (split_nth_error rs i) as [N1 N2]. rewrite N1, N2, Hr. auto.
Qed.

Lemma transition_row_length (h lg st : row) :
  transition_row h None = Ok (lg, st) -> length st = (stoch * discrete)%nat.
Proof.
  intros E. destruct (transition_row_ok h None) as [lg' [st' [E' Hl]]].
  rewrite E in E'. injection E' as _ <-. auto.
Qed.

(** What the first statements of [dynamic] compute at every batch position. *)
Lemma dynamic_reset_spec (B : nat) (posterior : list (list row))
    (recurrent_state action : list row) (is_first : list R) :
  length is_first = B -> length action = B -> length recurrent_state = B ->
  length posterior = B ->
  Forall (fun p => length (concat p) = (stoch * discrete)%nat) posterior ->
  exists a' h' z',
    dynamic_reset mode_of rsample eps transition_model discrete unimix
      posterior recurrent_state action is_first = Ok (a', h', z') /\
    length a' = B /\ length h' = B /\ length z' = B /\
    forall i f a h p,
      nth_error is_first i = Some f -> nth_error action i = Some a ->
      nth_error recurrent_state i = Some h -> nth_error posterior i = Some p ->
      exists hr lg st zr,
        nth_error a' i = Some (map (fun v => (1 - f) * v) a) /\
        blend f h (map tanh (map (fun _ => 0) h)) = Ok hr /\
        nth_error h' i = Some hr /\
        transition_row hr None = Ok (lg, st) /\
        blend f (concat p) st = Ok zr /\
        nth_error z' i = Some zr.
Proof.
  intros L1 L2 L3 L4 HP. unfold dynamic_reset.
  destruct (zipM_spec (fun f a => Ok (map (fun v => (1 - f) * v) a)) is_first action)
    as [a' [E1 [La N1]]]; [lia | eauto |].
  rewrite E1. cbn [bind].
  destruct (zipM_spec (fun f h => blend f h (map tanh (map (fun _ => 0) h)))
              is_first recurrent_state) as [h' [E2 [Lh N2]]]; [lia | |].
  { intros i f h _ _.
    destruct (@blend_ok f h (map tanh (map (fun _ => 0) h))) as [z [Ez _]];
      [rewrite !length_map; reflexivity | eauto]. }
  rewrite E2. cbn [bind].
  destruct (transition_ok h' None) as [lgs [sts [E3 [Llg [Lst N3]]]]].
  rewrite E3. cbn [bind snd].
  destruct (zipM_spec (fun f (p : row) => Ok (f, p)) is_first (map (@concat R) posterior))
    as [fp [E4 [Lfp N4]]]; [rewrite length_map; lia | eauto |].
  rewrite E4. cbn [bind].
  assert (Hpos : forall i f p, nth_error is_first i = Some f -> nth_error posterior i = Some p ->
            nth_error fp i = Some (f, concat p) /\ length (concat p) = (stoch * discrete)%nat).
  { intros i f p Hf Hp.
    destruct (N4 i f (concat p) Hf) as [z [Ez Hz]].
    - rewrite nth_error_map, Hp. reflexivity.
    - injection Ez as <-. split; [exact Hz|].
      rewrite Forall_forall in HP. apply HP. eapply nth_error_In; eauto. }
  destruct (zipM_spec
              (fun (fp : R * row) (pr : row) =>
                 if (length pr =? length (snd fp))%nat then blend (fst fp) (snd fp) pr
                 else Raise RuntimeError) fp sts) as [z' [E5 [Lz N5]]]; [lia | |].
  { intros i x pr Hx Hpr.
    assert (Hi : (i < B)%nat).
    { rewrite <- L1, <- Lfp. apply nth_error_Some. congruence. }
    destruct (nth_error is_first i) as [f|] eqn:Hf;
      [|apply nth_error_None in Hf; lia].
    destruct (nth_error posterior i) as [p|] eqn:Hp;
      [|apply nth_error_None in Hp; lia].
    destruct (Hpos i f p Hf Hp) as [Hfp Hlp]. rewrite Hfp in Hx. injection Hx as <-.
    destruct (nth_error h' i) as [hr|] eqn:Hhr;
      [|apply nth_error_None in Hhr; lia].
    destruct (N3 i hr Hhr) as [lg [st [Et [_ Hst]]]]. cbn [option_map] in Et.
    rewrite Hst in Hpr. injection Hpr as <-.
    cbn [fst snd]. rewrite (@transition_row_length _ _ _ Et), Hlp, Nat.eqb_refl.
    destruct (@blend_ok f (concat p) st) as [z [Ez _]];
      [rewrite (@transition_row_length _ _ _ Et); exact Hlp | eauto]. }
  rewrite E5. cbn [bind].
  exists a', h', z'. split; [reflexivity|].
  split; [lia|]. split; [lia|]. split; [lia|].
  intros i f a h p Hf Ha Hh Hp.
  destruct (N1 i f a Hf Ha) as [z1 [Ez1 Hz1]]. injection Ez1 as <-.
  destruct (N2 i f h Hf Hh) as [hr [Ehr Hhr]].
  destruct (N3 i hr Hhr) as [lg [st [Et [_ Hst]]]]. cbn [option_map] in Et.
  destruct (Hpos i f p Hf Hp) as [Hfp Hlp].
  destruct (N5 i (f, concat p) st Hfp Hst) as [zr [Ezr Hzr]]. cbn [fst snd] in Ezr.
  rewrite (@transition_row_length _ _ _ Et), Hlp, Nat.eqb_refl in Ezr.
  exists hr, lg, st, zr. auto 10.
Qed.

(** The whole step, in terms of what the reset produced. *)
Lemma dynamic_spec (B : nat) (posterior : list (list row))
    (recurrent_state action embedded_obs : list row) (is_first : list R)
    (xi_prior xi_posterior : nat -> nat -> noise) :
  length is_first = B -> length action = B -> length recurrent_state = B ->
  length posterior = B -> length embedded_obs = B ->
  Forall (fun p => length (concat p) = (stoch * discrete)%nat) posterior ->
  exists a' h' z' hn post prior plg qlg,
    dynamic_reset mode_of rsample eps transition_model discrete unimix
      posterior recurrent_state action is_first = Ok (a', h', z') /\
    dynamic mode_of rsample eps recurrent_model representation_model transition_model
      discrete unimix posterior recurrent_state action embedded_obs is_first
      xi_prior xi_posterior = Ok (hn, post, prior, plg, qlg) /\
    forall i av hv zv e,
      nth_error a' i = Some av -> nth_error h' i = Some hv ->
      nth_error z' i = Some zv -> nth_error embedded_obs i = Some e ->
      exists pl ps ql qs,
        nth_error hn i = Some (recurrent_model (zv ++ av) hv) /\
        representation_row (recurrent_model (zv ++ av) hv) e (xi_posterior i) = Ok (pl, ps) /\
        nth_error post i = Some ps /\ nth_error plg i = Some pl /\
        transition_row (recurrent_model (zv ++ av) hv) (Some (xi_prior i)) = Ok (ql, qs) /\
        nth_error prior i = Some qs /\ nth_error qlg i = Some ql.
Proof.
  intros L1 L2 L3 L4 L5 HP.
  destruct (@dynamic_reset_spec B posterior recurrent_state action is_first L1 L2 L3 L4 HP) as [a' [h' [z' [E [La [Lh [Lz _]]]]]]].
  exists a', h', z'. unfold dynamic. rewrite E. cbn [bind].
  destruct (zipM_spec (fun p a : row => Ok (p ++ a)) z' a') as [pa [E1 [Lpa N1]]];
    [lia | eauto |].
  rewrite E1. cbn [bind].
  destruct (zipM_spec (fun x h : row => Ok (recurrent_model x h)) pa h')
    as [hn [E2 [Lhn N2]]]; [lia | eauto |].
  rewrite E2. cbn [bind].
  destruct (transition_ok hn (Some xi_prior)) as [qlg [prior [E3 [Lq [Lp N3]]]]].
  rewrite E3. cbn [bind].
  destruct (@representation_ok hn embedded_obs xi_posterior) as [plg [post [E4 [Lpl [Lpo N4]]]]];
    [lia|].
  rewrite E4. cbn [bind fst snd].
  exists hn, post, prior, plg, qlg. split; [reflexivity|]. split; [reflexivity|].
  intros i av hv zv e Ha Hh Hz He.
  destruct (N1 i zv av Hz Ha) as [x [Ex Hx]]. injection Ex as <-.
  destruct (N2 i (zv ++ av) hv Hx Hh) as [y [Ey Hy]]. injection Ey as <-.
  destruct (N3 i _ Hy) as [ql [qs [Et [Hql Hqs]]]]. cbn [option_map] in Et.
  destruct (N4 i _ e Hy He) as [pl [ps [Er [Hpl Hps]]]].
  exists pl, ps, ql, qs. auto 10.
Qed.


(** C1, as the code has it: at a position with [is_first = 1] the returned
    recurrent state is the recurrent model applied to the reset inputs (the
    mode of the prior of [tanh(0)], a zero action, the recurrent state
    [tanh(0)]), and the returned posterior is the representation model's
    sample for that new recurrent state and the embedded observation.  Both
    depend on the supplied posterior, action and recurrent state only through
    their sizes. *)
Theorem dynamic_first_position :
  forall (B : nat) (posterior : list (list row))
         (recurrent_state action embedded_obs : list row) (is_first : list R)
         (xi_prior xi_posterior : nat -> nat -> noise),
    length is_first = B -> length action = B -> length recurrent_state = B ->
    length posterior = B -> length embedded_obs = B ->
    Forall (fun p => length (concat p) = (stoch * discrete)%nat) posterior ->
    exists hn post prior plg qlg,
      dynamic mode_of rsample eps recurrent_model representation_model transition_model
        discrete unimix posterior recurrent_state action embedded_obs is_first
        xi_prior xi_posterior = Ok (hn, post, prior, plg, qlg) /\
      forall i a h p e,
        nth_error is_first i = Some 1 ->
        nth_error action i = Some a -> nth_error recurrent_state i = Some h ->
        nth_error posterior i = Some p -> nth_error embedded_obs i = Some e ->
        let h0 := map tanh (repeat 0 (length h)) in
        exists lg0 z0 pl ps,
          transition_row h0 None = Ok (lg0, z0) /\
          nth_error hn i = Some (recurrent_model (z0 ++ repeat 0 (length a)) h0) /\
          representation_row (recurrent_model (z0 ++ repeat 0 (length a)) h0) e
            (xi_posterior i) = Ok (pl, ps) /\
          nth_error post i = Some ps.
Proof.
  intros B posterior recurrent_state action embedded_obs is_first xi_prior xi_posterior
         L1 L2 L3 L4 L5 HP.
  destruct (@dynamic_spec B posterior recurrent_state action embedded_obs is_first
              xi_prior xi_posterior L1 L2 L3 L4 L5 HP)
    as [a' [h' [z' [hn [post [prior [plg [qlg [Er [Ed N]]]]]]]]]].
  destruct (@dynamic_reset_spec B posterior recurrent_state action is_first L1 L2 L3 L4 HP) as [a2 [h2 [z2 [Er2 [_ [_ [_ N2]]]]]]].
  rewrite Er in Er2. injection Er2 as <- <- <-.
  exists hn, post, prior, plg, qlg. split; [exact Ed|].
  intros i a h p e Hf Ha Hh Hp He h0.
  destruct (N2 i _ a h p Hf Ha Hh Hp) as [hr [lg [st [zr [Na [Eh [Nh [Et [Ez Nz]]]]]]]]].
  rewrite blend_first in Eh by (rewrite !length_map; reflexivity).
  injection Eh as <-.
  rewrite blend_first in Ez
    by (rewrite (@transition_row_length _ _ _ Et); rewrite Forall_forall in HP;
        apply HP; eapply nth_error_In; eauto).
  injection Ez as <-.
  rewrite scale_first in Na. rewrite map_const_repeat in Na, Nh, Et. fold h0 in Nh, Et.
  destruct (N i _ _ _ e Na Nh Nz He) as [pl [ps [ql [qs [Nhn [Erep [Npost _]]]]]]].
  exists lg, st, pl, ps. auto.
Qed.

End Networks.

(** *** The small instance *)

Lemma toy_transition_row (h : row) (sample : option (nat -> unit)) :
  RSSM_transition_row Toy.mode_of Toy.rsample Toy.eps Toy.transition_model
    Toy.discrete Toy.unimix h sample = Ok ([1; 0], [1; 0]).
Proof.
  unfold RSSM_transition_row, RSSM_uniform_mix, Toy.unimix.
  destruct (Rlt_dec 0 0) as [H|_]; [lra|].
  destruct sample; cbn; destruct (Rlt_dec 1 0); try lra; reflexivity.
Qed.

Lemma toy_representation_row (h e : row) (xi : nat -> unit) :
  RSSM_representation_row Toy.mode_of Toy.rsample Toy.eps Toy.representation_model
    Toy.discrete Toy.unimix h e xi = Ok ([0; 1], [0; 1]).
Proof.
  unfold RSSM_representation_row, RSSM_uniform_mix, Toy.unimix.
  destruct (Rlt_dec 0 0) as [H|_]; [lra|].
  cbn. destruct (Rlt_dec 0 1); try lra; reflexivity.
Qed.

Lemma toy_mode_length (l : row) : length (Toy.mode_of l) = length l.
Proof. unfold Toy.mode_of, one_hot_mode. rewrite length_map, length_seq. reflexivity. Qed.

Ltac toy_eval :=
  repeat (cbn [zipM mapM bind imapM_from map concat app option_map split snd fst length
               Nat.eqb Toy.recurrent_model];
          rewrite ?toy_transition_row, ?toy_representation_row).

Lemma toy_dynamic :
  dynamic Toy.mode_of Toy.rsample Toy.eps Toy.recurrent_model Toy.representation_model
    Toy.transition_model Toy.discrete Toy.unimix
    [[[0; 1]]] [[5]] [[7]] [[3]] [1] Toy.xi Toy.xi
  = Ok ([[1 / 2]], [[0; 1]], [[1; 0]], [[0; 1]], [[1; 0]]).
Proof.
  unfold dynamic, dynamic_reset, RSSM_transition, RSSM_representation, blend, ew.
  toy_eval. reflexivity.
Qed.


Lemma dynamic_first_position_witness :
  exists hn post prior plg qlg,
    dynamic Toy.mode_of Toy.rsample Toy.eps Toy.recurrent_model Toy.representation_model
      Toy.transition_model Toy.discrete Toy.unimix
      [[[0; 1]]] [[5]] [[7]] [[3]] [1] Toy.xi Toy.xi = Ok (hn, post, prior, plg, qlg) /\
    exists lg0 z0 pl ps,
      RSSM_transition_row Toy.mode_of Toy.rsample Toy.eps Toy.transition_model
        Toy.discrete Toy.unimix [tanh 0] None = Ok (lg0, z0) /\
      nth_error hn 0 = Some (Toy.recurrent_model (z0 ++ [0]) [tanh 0]) /\
      RSSM_representation_row Toy.mode_of Toy.rsample Toy.eps Toy.representation_model
        Toy.discrete Toy.unimix (Toy.recurrent_model (z0 ++ [0]) [tanh 0]) [3]
        (Toy.xi 0) = Ok (pl, ps) /\
      nth_error post 0 = Some ps.
Proof.
  destruct (@dynamic_first_position unit Toy.mode_of Toy.rsample Toy.eps Toy.recurrent_model
              Toy.representation_model Toy.transition_model Toy.discrete Toy.unimix 1%nat)
    with (B := 1%nat) (posterior := [[[0; 1]]]) (recurrent_state := [[5]]) (action := [[7]])
         (embedded_obs := [[3]]) (is_first := [1]) (xi_prior := Toy.xi)
         (xi_posterior := Toy.xi) as [hn [post [prior [plg [qlg [E N]]]]]].
  - unfold Toy.discrete. lia.
  - intros h. reflexivity.
  - intros x. reflexivity.
  - intros l. apply toy_mode_length.
  - reflexivity.
  - reflexivity.
  - reflexivity.
  - reflexivity.
  - reflexivity.
  - repeat constructor.
  - exists hn, post, prior, plg, qlg. split; [exact E|].
    apply (N 0%nat [7] [5] [[0; 1]] [3]); reflexivity.
Defined.

(** A call of [dynamic] with [is_first = 1] at position 0: the returned
    recurrent state there is not [tanh(0)], and the returned posterior is not
    the prior computed from [tanh(0)]. *)
Lemma dynamic_first_position_not_init :
  exists hn post prior plg qlg,
    dynamic Toy.mode_of Toy.rsample Toy.eps Toy.recurrent_model Toy.representation_model
      Toy.transition_model Toy.discrete Toy.unimix
      [[[0; 1]]] [[5]] [[7]] [[3]] [1] Toy.xi Toy.xi = Ok (hn, post, prior, plg, qlg) /\
    nth_error [1] 0 = Some 1 /\
    nth_error hn 0 <> Some (map tanh (map (fun _ => 0) [5])) /\
    forall lg st,
      RSSM_transition_row Toy.mode_of Toy.rsample Toy.eps Toy.transition_model
        Toy.discrete Toy.unimix (map tanh (map (fun _ => 0) [5])) None = Ok (lg, st) ->
      nth_error post 0 <> Some st.
Proof.
  exists [[1 / 2]], [[0; 1]], [[1; 0]], [[0; 1]], [[1; 0]].
  split; [exact toy_dynamic|]. split; [reflexivity|]. split.
  - simpl. rewrite tanh_0. intros E. injection E as E. lra.
  - intros lg st E. rewrite toy_transition_row in E. injection E as _ <-.
    simpl. intros E. injection E as E _. lra.
Qed.

End RSSMFacts.

(** ** The player's stored state *)

Module PlayerFacts.

Import DreamerV3 UnimixFacts RSSMFacts.
Local Open Scope R_scope.

Lemma py_index_valid (n : nat) (i : Z) :
  valid_index n i -> exists j, py_index n i = Ok j /\ (j < n)%nat.
Proof.
  unfold valid_index, py_index. intros Hi.
  destruct (Z.leb_spec 0 i); destruct (Z.ltb_spec i (Z.of_nat n)); cbn [andb]; try lia.
  - exists (Z.to_nat i). split; [reflexivity | lia].
  - destruct (Z.leb_spec (- Z.of_nat n) i); destruct (Z.ltb_spec i 0); cbn [andb]; try lia.
    exists (Z.to_nat (Z.of_nat n + i)). split; [reflexivity | lia].
Qed.

Lemma replace_nth_length (j : nat) (v : row) (t : list row) :
  length (replace_nth j v t) = length t.
Proof.
  revert j. induction t as [|x t IH]; intros [|j]; simpl; auto.
Qed.

Lemma replace_nth_same (j : nat) (v : row) (t : list row) :
  (j < length t)%nat -> nth_error (replace_nth j v t) j = Some v.
Proof.
  revert j. induction t as [|x t IH]; intros [|j] Hj; simpl in *; try lia; auto.
  apply IH. lia.
Qed.

Lemma replace_nth_other (j k : nat) (v : row) (t : list row) :
  j <> k -> nth_error (replace_nth j v t) k = nth_error t k.
Proof.
  revert j k. induction t as [|x t IH]; intros [|j] [|k] Hjk; simpl; auto; try lia.
Qed.

(** [t[:, idxs]] picks the rows the indices name. *)
Lemma gather_spec (t : list row) (l : list Z) :
  Forall (valid_index (length t)) l ->
  exists vals,
    gather t l = Ok vals /\
    Forall2 (fun i v => exists j, py_index (length t) i = Ok j /\ nth_error t j = Some v)
            l vals.
Proof.
  unfold gather. induction 1 as [|i l Hi Hl IH].
  - exists []. split; [reflexivity | constructor].
  - destruct IH as [vals [E F]].
    destruct (py_index_valid Hi) as [j [Ej Hj]].
    destruct (nth_error t j) as [v|] eqn:Ev; [|apply nth_error_None in Ev; lia].
    exists (v :: vals). cbn [mapM]. rewrite Ej, E. cbn [bind]. unfold index. rewrite Ev.
    cbn [bind]. split; [reflexivity|].
    constructor; eauto.
Qed.

(** [t[:, idxs] = vals] when the value for environment [j] is [g j]: the
    named rows become [g j], the others stay. *)
Lemma assign_rows_spec (g : nat -> row) (l : list Z) :
  forall (vals t : list row),
    (forall j old, nth_error t j = Some old -> length (g j) = length old) ->
    Forall2 (fun i v => exists j, py_index (length t) i = Ok j /\ (j < length t)%nat /\ v = g j)
            l vals ->
    exists t',
      assign_rows t l vals = Ok t' /\ length t' = length t /\
      forall j old, nth_error t j = Some old ->
        nth_error t' j = Some (if indicated (length t) l j then g j else old).
Proof.
  induction l as [|i l IH]; intros vals t Hg F; inversion F as [|i' v l' vals' Hi Hrest]; subst.
  - exists t. repeat split. intros j old Hj. exact Hj.
  - destruct Hi as [j0 [Ej0 [Hj0 ->]]].
    destruct (nth_error t j0) as [old0|] eqn:Eold; [|apply nth_error_None in Eold; lia].
    cbn [assign_rows]. rewrite Ej0. cbn [bind]. unfold index. rewrite Eold. cbn [bind].
    rewrite (Hg j0 old0 Eold), Nat.eqb_refl.
    destruct (IH vals' (replace_nth j0 (g j0) t)) as [t' [E [Lt N]]].
    + intros j old Hj. destruct (Nat.eq_dec j0 j) as [<-|Hne].
      * rewrite replace_nth_same in Hj by exact Hj0. injection Hj as <-. reflexivity.
      * rewrite replace_nth_other in Hj by exact Hne. eauto.
    + rewrite replace_nth_length. exact Hrest.
    + exists t'. split; [exact E|]. rewrite replace_nth_length in *. split; [exact Lt|].
      intros j old Hj. cbn [indicated existsb]. rewrite Ej0.
      fold (indicated (length t) l j).
      destruct (Nat.eqb_spec j0 j) as [<-|Hne]; cbn [orb].
      * rewrite (N j0 (g j0)) by (apply replace_nth_same; exact Hj0).
        destruct (indicated (length t) l j0); reflexivity.
      * apply N. rewrite replace_nth_other by exact Hne. exact Hj.
Qed.

Lemma Forall2_map_r {A B C : Type} (P : A -> C -> Prop) (f : B -> C) (l : list A)
    (vals : list B) :
  Forall2 (fun i v => P i (f v)) l vals -> Forall2 P l (map f vals).
Proof. induction 1; simpl; constructor; auto. Qed.

Lemma Forall2_impl {A B : Type} (P Q : A -> B -> Prop) (l : list A) (vals : list B) :
  (forall i v, P i v -> Q i v) -> Forall2 P l vals -> Forall2 Q l vals.
Proof. intros H. induction 1; constructor; auto. Qed.

Lemma Forall2_in_l {A B : Type} (P : A -> B -> Prop) (l : list A) (vals : list B) :
  Forall2 P l vals -> Forall2 (fun i v => In i l /\ P i v) l vals.
Proof.
  induction 1 as [|i v l vals Hi Hrest IH]; constructor.
  - split; [left; reflexivity | exact Hi].
  - eapply Forall2_impl; [|exact IH]. intros i' v' [Hin Hp]. split; [right|]; assumption.
Qed.

Lemma Forall2_nth_trans {A B C : Type} (P : A -> B -> Prop) (Q : A -> C -> Prop)
    (l : list A) (bs : list B) :
  Forall2 P l bs ->
  forall cs : list C,
    length cs = length bs ->
    (forall k a b c, nth_error l k = Some a -> nth_error bs k = Some b ->
       nth_error cs k = Some c -> P a b -> Q a c) ->
    Forall2 Q l cs.
Proof.
  induction 1 as [|a b l bs Hab Hrest IH]; intros [|c cs] Hl Hk; simpl in Hl;
    try discriminate; constructor.
  - apply (Hk 0%nat a b c); auto.
  - apply IH; [lia|]. intros k a' b' c' Ha Hb Hc. apply (Hk (S k)); assumption.
Qed.

Lemma indicated_in (n : nat) (l : list Z) (i : Z) (j : nat) :
  In i l -> py_index n i = Ok j -> indicated n l j = true.
Proof.
  intros Hin Hj. unfold indicated. apply existsb_exists. exists i.
  split; [exact Hin|]. rewrite Hj. apply Nat.eqb_refl.
Qed.

Section PlayerNetworks.

Variable noise : Type.
Variable mode_of : row -> row.
Variable rsample : noise -> row -> row.
Variable eps : R.
Variable transition_model : row -> row.
Variables (discrete : nat) (unimix : R) (stoch : nat).

Hypothesis Hdiscrete : (0 < discrete)%nat.
Hypothesis Htransition : forall h, length (transition_model h) = (stoch * discrete)%nat.
Hypothesis Hmode : forall l, length (mode_of l) = length l.

Local Abbreviation transition_row :=
  (RSSM_transition_row mode_of rsample eps transition_model discrete unimix).
Local Abbreviation prior_mode :=
  (DreamerV3.prior_mode mode_of rsample eps transition_model discrete unimix).
Local Abbreviation transition :=
  (RSSM_transition mode_of rsample eps transition_model discrete unimix).

Lemma prior_mode_spec (h lg st : row) :
  transition_row h None = Ok (lg, st) -> prior_mode h = st.
Proof. intros E. unfold DreamerV3.prior_mode. rewrite E. reflexivity. Qed.

Lemma prior_mode_length (h : row) : length (prior_mode h) = (stoch * discrete)%nat.
Proof.
  destruct (@transition_row_ok noise mode_of rsample eps transition_model discrete unimix
              stoch Hdiscrete Htransition Hmode h None) as [lg [st [E Hl]]].
  rewrite (@prior_mode_spec _ _ _ E). auto.
Qed.

(** The mode priors of a batch of recurrent states. *)
Lemma transition_modes (hs : list row) :
  exists lgs sts,
    transition hs None = Ok (lgs, sts) /\ length sts = length hs /\
    forall k h, nth_error hs k = Some h -> nth_error sts k = Some (prior_mode h).
Proof.
  destruct (@transition_ok noise mode_of rsample eps transition_model discrete unimix
              stoch Hdiscrete Htransition Hmode hs None) as [lgs [sts [E [_ [L N]]]]].
  exists lgs, sts. split; [exact E|]. split; [exact L|].
  intros k h Hh. destruct (N k h Hh) as [lg [st [Et [_ Hst]]]]. cbn [option_map] in Et.
  rewrite (@prior_mode_spec _ _ _ Et). exact Hst.
Qed.

Lemma init_states_all_spec (p : PlayerDV3) :
  exists p',
    init_states_all mode_of rsample eps transition_model discrete unimix p = Ok p' /\
    length (actions p') = num_envs p /\
    length (recurrent_state p') = num_envs p /\
    length (stochastic_state p') = num_envs p /\
    forall j, (j < num_envs p)%nat ->
      nth_error (actions p') j = Some (repeat 0 (list_sum (actions_dim p))) /\
      nth_error (recurrent_state p') j = Some (map tanh (repeat 0 (recurrent_state_size p))) /\
      nth_error (stochastic_state p') j
      = Some (prior_mode (map tanh (repeat 0 (recurrent_state_size p)))).
Proof.
  unfold init_states_all.
  destruct (transition_modes
              (map (map tanh) (repeat (repeat 0 (recurrent_state_size p)) (num_envs p))))
    as [lgs [sts [E [L N]]]].
  rewrite E. cbn [bind snd]. eexists. split; [reflexivity|].
  cbn [actions recurrent_state stochastic_state].
  split; [apply repeat_length|].
  split; [rewrite length_map; apply repeat_length|].
  split; [rewrite L, length_map; apply repeat_length|].
  intros j Hj.
  assert (Hh : nth_error (map (map tanh) (repeat (repeat 0 (recurrent_state_size p)) (num_envs p))) j
               = Some (map tanh (repeat 0 (recurrent_state_size p)))).
  { rewrite nth_error_map, nth_error_repeat by exact Hj. reflexivity. }
  split; [apply nth_error_repeat; exact Hj|]. split; [exact Hh|]. apply N. exact Hh.
Qed.

Lemma init_states_some_spec (p : PlayerDV3) (l : list Z) (n : nat) :
  length (actions p) = n -> length (recurrent_state p) = n ->
  length (stochastic_state p) = n ->
  Forall (fun z => length z = (stoch * discrete)%nat) (stochastic_state p) ->
  Forall (valid_index n) l ->
  exists p',
    init_states_some mode_of rsample eps transition_model discrete unimix p l = Ok p' /\
    forall j a h z,
      nth_error (actions p) j = Some a -> nth_error (recurrent_state p) j = Some h ->
      nth_error (stochastic_state p) j = Some z ->
      nth_error (actions p') j
      = Some (if indicated n l j then map (fun _ => 0) a else a) /\
      nth_error (recurrent_state p') j
      = Some (if indicated n l j then map tanh (map (fun _ => 0) h) else h) /\
      nth_error (stochastic_state p') j
      = Some (if indicated n l j then prior_mode (map tanh (map (fun _ => 0) h)) else z).
Proof.
  intros La Lh Lz Hz Hl. unfold init_states_some.
  set (g_a := fun j => map (fun _ : R => 0) (nth j (actions p) [])).
  set (g_h := fun j => map tanh (map (fun _ : R => 0) (nth j (recurrent_state p) []))).
  set (g_s := fun j => prior_mode (g_h j)).
  (* actions *)
  destruct (@gather_spec (actions p) l) as [a_sel [Ea Fa]]; [rewrite La; exact Hl|].
  rewrite Ea. cbn [bind].
  destruct (@assign_rows_spec g_a l (zeros_like a_sel) (actions p)) as [a' [Ea' [La' Na]]].
  { intros j old Hj. unfold g_a. rewrite (nth_error_nth _ _ _ Hj). apply length_map. }
  { unfold zeros_like. apply Forall2_map_r. eapply Forall2_impl; [|exact Fa].
    intros i v [j [Ej Hv]]. exists j. split; [exact Ej|]. split.
    - apply nth_error_Some. congruence.
    - unfold g_a. rewrite (nth_error_nth _ _ _ Hv). reflexivity. }
  rewrite Ea'. cbn [bind].
  (* recurrent states *)
  destruct (@gather_spec (recurrent_state p) l) as [h_sel [Eh Fh]]; [rewrite Lh; exact Hl|].
  rewrite Eh. cbn [bind].
  destruct (@assign_rows_spec g_h l (map (map tanh) (zeros_like h_sel)) (recurrent_state p))
    as [h' [Eh' [Lh' Nh]]].
  { intros j old Hj. unfold g_h. rewrite (nth_error_nth _ _ _ Hj). rewrite !length_map.
    reflexivity. }
  { unfold zeros_like. apply Forall2_map_r, Forall2_map_r. eapply Forall2_impl; [|exact Fh].
    intros i v [j [Ej Hv]]. exists j. split; [exact Ej|]. split.
    - apply nth_error_Some. congruence.
    - unfold g_h. rewrite (nth_error_nth _ _ _ Hv). reflexivity. }
  rewrite Eh'. cbn [bind].
  (* the reset recurrent states, read back *)
  destruct (@gather_spec h' l) as [h_new [En Fn]]; [rewrite Lh', Lh; exact Hl|].
  rewrite En. cbn [bind].
  destruct (transition_modes h_new) as [lgs [sts [Et [Lst Nst]]]].
  rewrite Et. cbn [bind snd].
  destruct (@assign_rows_spec g_s l sts (stochastic_state p)) as [z' [Ez' [Lz' Ns]]].
  { intros j old Hj. unfold g_s. rewrite prior_mode_length.
    rewrite Forall_forall in Hz. symmetry. apply Hz. eapply nth_error_In; eauto. }
  { eapply Forall2_nth_trans; [exact (Forall2_in_l Fn) | exact Lst |].
    intros k i b c Hi Hb Hc [Hin [j [Ej Hj]]].
    assert (Hjn : (j < n)%nat).
    { rewrite <- Lh, <- Lh'. apply nth_error_Some. congruence. }
    exists j. rewrite Lz. rewrite Lh', Lh in Ej. split; [exact Ej|]. split; [exact Hjn|].
    rewrite (Nst k b Hb) in Hc. injection Hc as <-. unfold g_s. f_equal.
    destruct (nth_error (recurrent_state p) j) as [old|] eqn:Eold;
      [|apply nth_error_None in Eold; lia].
    rewrite (Nh j old Eold) in Hj. rewrite Lh in Hj.
    rewrite (@indicated_in _ l _ _ Hin Ej) in Hj. congruence. }
  rewrite Ez'. cbn [bind].
  eexists. split; [reflexivity|]. cbn [actions recurrent_state stochastic_state].
  intros j a h z Ha Hh Hzj.
  rewrite (Na j a Ha), (Nh j h Hh), (Ns j z Hzj), La, Lh, Lz.
  unfold g_a, g_h, g_s, g_h.
  rewrite (nth_error_nth _ _ _ Ha), (nth_error_nth _ _ _ Hh).
  destruct (indicated n l j); auto.
Qed.

(** C7, as the code has it: with a non-empty list of valid indices, the
    stored action, recurrent state and stochastic state of the named
    environments become a zero action, [tanh(0)] and the mode of the prior of
    [tanh(0)], and the triple of every other environment is left as it was;
    with [None] or with an empty list, the three tensors are rebuilt with the
    episode-start values for all [num_envs] environments. *)
Theorem init_states_resets :
  forall p : PlayerDV3,
    (forall reset_envs,
       reset_envs = None \/ reset_envs = Some [] ->
       exists p',
         init_states mode_of rsample eps transition_model discrete unimix p reset_envs
         = Ok p' /\
         length (actions p') = num_envs p /\
         length (recurrent_state p') = num_envs p /\
         length (stochastic_state p') = num_envs p /\
         forall j, (j < num_envs p)%nat ->
           nth_error (actions p') j = Some (repeat 0 (list_sum (actions_dim p))) /\
           nth_error (recurrent_state p') j
           = Some (map tanh (repeat 0 (recurrent_state_size p))) /\
           nth_error (stochastic_state p') j
           = Some (prior_mode (map tanh (repeat 0 (recurrent_state_size p))))) /\
    (forall (l : list Z) (n : nat),
       l <> [] ->
       length (actions p) = n -> length (recurrent_state p) = n ->
       length (stochastic_state p) = n ->
       Forall (fun z => length z = (stoch * discrete)%nat) (stochastic_state p) ->
       Forall (valid_index n) l ->
       exists p',
         init_states mode_of rsample eps transition_model discrete unimix p (Some l)
         = Ok p' /\
         forall j a h z,
           nth_error (actions p) j = Some a -> nth_error (recurrent_state p) j = Some h ->
           nth_error (stochastic_state p) j = Some z ->
           (indicated n l j = true ->
            nth_error (actions p') j = Some (map (fun _ => 0) a) /\
            nth_error (recurrent_state p') j = Some (map tanh (map (fun _ => 0) h)) /\
            nth_error (stochastic_state p') j
            = Some (prior_mode (map tanh (map (fun _ => 0) h)))) /\
           (indicated n l j = false ->
            nth_error (actions p') j = Some a /\
            nth_error (recurrent_state p') j = Some h /\
            nth_error (stochastic_state p') j = Some z)).
Proof.
  intros p. split.
  - intros reset_envs Hr.
    assert (E : init_states mode_of rsample eps transition_model discrete unimix p reset_envs
                = init_states_all mode_of rsample eps transition_model discrete unimix p)
      by (destruct Hr as [->| ->]; reflexivity).
    rewrite E. apply init_states_all_spec.
  - intros l n Hne La Lh Lz Hz Hl.
    destruct (@init_states_some_spec p l n La Lh Lz Hz Hl) as [p' [E N]].
    exists p'. split.
    + unfold init_states. destruct l as [|i l]; [congruence|]. exact E.
    + intros j a h z Ha Hh Hzj. destruct (N j a h z Ha Hh Hzj) as [Na [Nh Ns]].
      split; intros Hi; rewrite Hi in *; auto.
Qed.

End PlayerNetworks.

(** *** The small instance, two environments *)

Lemma init_states_resets_witness :
  (exists p',
     init_states Toy.mode_of Toy.rsample Toy.eps Toy.transition_model Toy.discrete
       Toy.unimix (mkPlayer [[7]; [8]] [[5]; [6]] [[0; 1]; [0; 1]] 2 [1%nat] 1) None = Ok p' /\
     length (actions p') = 2%nat /\
     forall j, (j < 2)%nat ->
       nth_error (actions p') j = Some [0] /\
       nth_error (recurrent_state p') j = Some [tanh 0] /\
       nth_error (stochastic_state p') j
       = Some (prior_mode Toy.mode_of Toy.rsample Toy.eps Toy.transition_model
                 Toy.discrete Toy.unimix [tanh 0])) /\
  (exists p',
     init_states Toy.mode_of Toy.rsample Toy.eps Toy.transition_model Toy.discrete
       Toy.unimix (mkPlayer [[7]; [8]] [[5]; [6]] [[0; 1]; [0; 1]] 2 [1%nat] 1) (Some [(-1)%Z])
     = Ok p' /\
     (nth_error (actions p') 1 = Some [0] /\
      nth_error (recurrent_state p') 1 = Some [tanh 0] /\
      nth_error (stochastic_state p') 1
      = Some (prior_mode Toy.mode_of Toy.rsample Toy.eps Toy.transition_model
                Toy.discrete Toy.unimix [tanh 0])) /\
     (nth_error (actions p') 0 = Some [7] /\
      nth_error (recurrent_state p') 0 = Some [5] /\
      nth_error (stochastic_state p') 0 = Some [0; 1])).
Proof.
  destruct (@init_states_resets unit Toy.mode_of Toy.rsample Toy.eps Toy.transition_model
              Toy.discrete Toy.unimix 1%nat) with
    (p := mkPlayer [[7]; [8]] [[5]; [6]] [[0; 1]; [0; 1]] 2 [1%nat] 1) as [Hall Hsome].
  - unfold Toy.discrete. lia.
  - intros h. reflexivity.
  - intros l. apply toy_mode_length.
  - split.
    + destruct (Hall None (or_introl eq_refl)) as [p' [E [La [_ [_ N]]]]].
      exists p'. split; [exact E|]. split; [exact La|]. exact N.
    + destruct (Hsome [(-1)%Z] 2%nat) as [p' [E N]].
      * discriminate.
      * reflexivity.
      * reflexivity.
      * reflexivity.
      * repeat constructor.
      * repeat constructor; unfold valid_index; simpl; lia.
      * exists p'. split; [exact E|]. split.
        -- apply (proj1 (N 1%nat [8] [6] [0; 1] eq_refl eq_refl eq_refl)). reflexivity.
        -- apply (proj2 (N 0%nat [7] [5] [0; 1] eq_refl eq_refl eq_refl)). reflexivity.
Defined.

(** With the last environment named, by the index [-1], only that one is
    reset. *)
Example init_states_last_environment :
  init_states Toy.mode_of Toy.rsample Toy.eps Toy.transition_model Toy.discrete Toy.unimix
    (mkPlayer [[7]; [8]] [[5]; [6]] [[0; 1]; [0; 1]] 2 [1%nat] 1) (Some [(-1)%Z])
  = Ok (mkPlayer [[7]; [0]] [[5]; [tanh 0]] [[0; 1]; [1; 0]] 2 [1%nat] 1).
Proof.
  unfold init_states, init_states_some, gather, RSSM_transition, index.
  repeat (cbn -[RSSM_transition_row tanh Pos.to_nat];
          change (Pos.to_nat 1) with 1%nat;
          rewrite ?toy_transition_row).
  reflexivity.
Qed.

(** An empty list names no environment, and yet the state of environment 0
    is replaced. *)
Lemma init_states_empty_resets_all :
  exists p',
    init_states Toy.mode_of Toy.rsample Toy.eps Toy.transition_model Toy.discrete Toy.unimix
      (mkPlayer [[7]; [8]] [[5]; [6]] [[0; 1]; [0; 1]] 2 [1%nat] 1) (Some []) = Ok p' /\
    indicated 2 [] 0 = false /\
    nth_error (actions (mkPlayer [[7]; [8]] [[5]; [6]] [[0; 1]; [0; 1]] 2 [1%nat] 1)) 0
    = Some [7] /\
    nth_error (actions p') 0 = Some [0] /\
    nth_error (actions p') 0
    <> nth_error (actions (mkPlayer [[7]; [8]] [[5]; [6]] [[0; 1]; [0; 1]] 2 [1%nat] 1)) 0.
Proof.
  exists (mkPlayer [[0]; [0]] [[tanh 0]; [tanh 0]] [[1; 0]; [1; 0]] 2 [1%nat] 1).
  split; [|split; [reflexivity|split; [reflexivity|split; [reflexivity|]]]].
  - unfold init_states, init_states_all, RSSM_transition.
    cbn [length Nat.eqb num_envs recurrent_state_size actions_dim list_sum Nat.add repeat map
         imapM_from option_map bind].
    rewrite !toy_transition_row. reflexivity.
  - simpl. intros E. injection E as E. lra.
Qed.

End PlayerFacts.

(** ** Lambda returns: special cases and edge behaviour *)

Module LambdaValuesMore.

Import LambdaValues LambdaValuesFacts.
Local Open Scope R_scope.

Lemma map_nth_seq_id {A : Type} (l : list A) (d : A) :
  map (fun t => nth t l d) (seq 0 (length l)) = l.
Proof.
  induction l as [|x l IH]; [reflexivity|].
  cbn [length]. rewrite <- cons_seq, <- seq_shift. cbn [map nth].
  rewrite map_map. f_equal. exact IH.
Qed.

Lemma map_seq_ext {A : Type} (f g : nat -> A) (n : nat) :
  (forall t, (t < n)%nat -> f t = g t) -> map f (seq 0 n) = map g (seq 0 n).
Proof.
  intros Hfg. apply map_ext_in. intros t Ht. apply in_seq in Ht. apply Hfg. lia.
Qed.

(** The returns for an optional bootstrap row. *)
Lemma compute_lambda_values_opt (H B : nat) (lmbda : R) (rewards values continues : tensor)
    (bootstrap : option row) :
  (1 <= H)%nat -> shaped H B rewards -> shaped H B values -> shaped H B continues ->
  (forall b, bootstrap = Some b -> length b = B) ->
  let b := match bootstrap with Some b => b | None => repeat 0 B end in
  length b = B /\
  compute_lambda_values rewards values continues (option_map (fun b => [b]) bootstrap) H lmbda
  = Ok (map (G H lmbda rewards values continues b) (seq 0 H)).
Proof.
  intros HH Hr Hv Hc Hb b.
  assert (Lb : length b = B).
  { subst b. destruct bootstrap; [auto | apply repeat_length]. }
  split; [exact Lb|].
  destruct bootstrap as [b0|]; simpl.
  - apply (compute_lambda_values_G lmbda b0 HH Hr Hv Hc Lb).
  - rewrite <- (compute_lambda_values_G lmbda b HH Hr Hv Hc Lb).
    unfold compute_lambda_values. rewrite (default_bootstrap HH Hv). reflexivity.
Qed.

Lemma spec_step_no_continuation (lmbda : R) (rt ct vn g : row) :
  length ct = length rt -> length vn = length rt -> length g = length rt ->
  Forall (fun c => c = 0) ct -> spec_step lmbda rt ct vn g = rt.
Proof.
  unfold spec_step, radd, rmul, rscale.
  revert ct vn g; induction rt as [|r rt IH]; intros [|c ct] [|v vn] [|g0 g] H1 H2 H3 Hz;
    simpl in *; try discriminate; auto.
  inversion Hz as [|c' ct' Hc0 Hrest]; subst.
  f_equal; [ring | apply IH; auto].
Qed.

Lemma spec_step_one_step (rt ct vn g : row) :
  length ct = length rt -> length vn = length rt -> length g = length rt ->
  spec_step 0 rt ct vn g = radd rt (rmul ct vn).
Proof.
  unfold spec_step, radd, rmul, rscale.
  revert ct vn g; induction rt as [|r rt IH]; intros [|c ct] [|v vn] [|g0 g] H1 H2 H3;
    simpl in *; try discriminate; auto.
  f_equal; [ring | apply IH; auto].
Qed.

Lemma spec_step_monte_carlo (rt ct vn vn' g : row) :
  length ct = length rt -> length vn = length rt -> length vn' = length rt ->
  length g = length rt ->
  spec_step 1 rt ct vn g = spec_step 1 rt ct vn' g.
Proof.
  unfold spec_step, radd, rmul, rscale.
  revert ct vn vn' g; induction rt as [|r rt IH];
    intros [|c ct] [|v vn] [|v' vn'] [|g0 g] H1 H2 H3 H4;
    simpl in *; try discriminate; auto.
  f_equal; [ring | apply IH; auto].
Qed.

(** X1: when no step continues (all of [continues] is zero) the returns are the
    rewards themselves, whatever the values, the bootstrap and [lmbda]. *)
Theorem lambda_values_no_continuation :
  forall (H B : nat) (lmbda : R) (rewards values continues : tensor)
         (bootstrap : option row),
    (1 <= H)%nat -> shaped H B rewards -> shaped H B values -> shaped H B continues ->
    (forall b, bootstrap = Some b -> length b = B) ->
    Forall (Forall (fun c => c = 0)) continues ->
    compute_lambda_values rewards values continues
      (option_map (fun b => [b]) bootstrap) H lmbda = Ok rewards.
Proof.
  intros H B lmbda rewards values continues bootstrap HH Hr Hv Hc Hb Hz.
  destruct (@compute_lambda_values_opt H B lmbda rewards values continues bootstrap
              HH Hr Hv Hc Hb) as [Lb E].
  rewrite E. f_equal.
  rewrite <- (map_nth_seq_id rewards []) at 2. rewrite (proj1 Hr).
  apply map_seq_ext. intros t Ht.
  rewrite (G_step lmbda rewards values continues _ HH Lb Ht).
  destruct (shaped_nth_error Hr Ht) as [_ Lr]. destruct (shaped_nth_error Hc Ht) as [Nc Lc].
  apply spec_step_no_continuation.
  - congruence.
  - rewrite (V_length _ Hv Lb). congruence.
  - rewrite (G_length lmbda _ HH Hr Hv Hc Lb) by lia. congruence.
  - rewrite Forall_forall in Hz. apply Hz. eapply nth_error_In. exact Nc.
Qed.

Lemma lambda_values_no_continuation_witness :
  compute_lambda_values [[1]; [2]] [[10]; [20]] [[0]; [0]] (Some [[30]]) 2 (1 / 2)
  = Ok [[1]; [2]].
Proof.
  apply (@lambda_values_no_continuation 2 1 (1 / 2) [[1]; [2]] [[10]; [20]] [[0]; [0]]
           (Some [30])).
  - lia.
  - split; [reflexivity | repeat constructor].
  - split; [reflexivity | repeat constructor].
  - split; [reflexivity | repeat constructor].
  - intros b Eb. injection Eb as <-. reflexivity.
  - repeat constructor.
Defined.

(** X2: with [lmbda = 0] every return is the one-step target
    [r_t + c_t * V_{t+1}], with the bootstrap in the place of [V_H]. *)
Theorem lambda_values_one_step_target :
  forall (H B : nat) (rewards values continues : tensor) (bootstrap : option row),
    (1 <= H)%nat -> shaped H B rewards -> shaped H B values -> shaped H B continues ->
    (forall b, bootstrap = Some b -> length b = B) ->
    let b := match bootstrap with Some b => b | None => repeat 0 B end in
    compute_lambda_values rewards values continues
      (option_map (fun b => [b]) bootstrap) H 0
    = Ok (map (fun t => radd (nth t rewards [])
                          (rmul (nth t continues [])
                                (if (S t <? H)%nat then nth (S t) values [] else b)))
              (seq 0 H)).
Proof.
  intros H B rewards values continues bootstrap HH Hr Hv Hc Hb b.
  destruct (@compute_lambda_values_opt H B 0 rewards values continues bootstrap
              HH Hr Hv Hc Hb) as [Lb E].
  fold b in Lb, E. rewrite E. f_equal.
  apply map_seq_ext. intros t Ht.
  rewrite (G_step 0 rewards values continues _ HH Lb Ht).
  destruct (shaped_nth_error Hr Ht) as [_ Lr]. destruct (shaped_nth_error Hc Ht) as [_ Lc].
  apply spec_step_one_step.
  - congruence.
  - pose proof (V_length b Hv Lb (S t)) as LV. unfold V in LV. congruence.
  - rewrite (G_length 0 _ HH Hr Hv Hc Lb) by lia. congruence.
Qed.

Lemma lambda_values_one_step_target_witness :
  compute_lambda_values [[1]; [2]] [[10]; [20]] [[1]; [1]] (Some [[30]]) 2 0
  = Ok (map (fun t => radd (nth t [[1]; [2]] [])
                        (rmul (nth t [[1]; [1]] [])
                              (if (S t <? 2)%nat then nth (S t) [[10]; [20]] [] else [30])))
            (seq 0 2)).
Proof.
  apply (@lambda_values_one_step_target 2 1 [[1]; [2]] [[10]; [20]] [[1]; [1]] (Some [30])).
  - lia.
  - split; [reflexivity | repeat constructor].
  - split; [reflexivity | repeat constructor].
  - split; [reflexivity | repeat constructor].
  - intros b Eb. injection Eb as <-. reflexivity.
Defined.

(** X3: with [lmbda = 1] the value estimates are not used at all: two value
    tensors of the same shape give the same returns. *)
Theorem lambda_values_monte_carlo :
  forall (H B : nat) (rewards values values' continues : tensor) (b : row),
    (1 <= H)%nat -> shaped H B rewards -> shaped H B values -> shaped H B values' ->
    shaped H B continues -> length b = B ->
    compute_lambda_values rewards values continues (Some [b]) H 1
    = compute_lambda_values rewards values' continues (Some [b]) H 1.
Proof.
  intros H B rewards values values' continues b HH Hr Hv Hv' Hc Lb.
  rewrite (compute_lambda_values_G 1 b HH Hr Hv Hc Lb).
  rewrite (compute_lambda_values_G 1 b HH Hr Hv' Hc Lb).
  f_equal. apply map_seq_ext. intros t Ht.
  assert (Hle : (t <= H)%nat) by lia. clear Ht.
  remember (H - t)%nat as k eqn:Hk. revert t Hle Hk.
  induction k as [|k IH]; intros t Hle Hk.
  - replace t with H by lia. rewrite !G_last. reflexivity.
  - assert (Ht : (t < H)%nat) by lia.
    rewrite (G_step 1 rewards values continues _ HH Lb Ht).
    rewrite (G_step 1 rewards values' continues _ HH Lb Ht).
    rewrite <- (IH (S t)) by lia.
    destruct (shaped_nth_error Hr Ht) as [_ Lr]. destruct (shaped_nth_error Hc Ht) as [_ Lc].
    apply spec_step_monte_carlo.
    + congruence.
    + rewrite (V_length _ Hv Lb). congruence.
    + rewrite (V_length _ Hv' Lb). congruence.
    + rewrite (G_length 1 _ HH Hr Hv Hc Lb) by lia. congruence.
Qed.

Lemma lambda_values_monte_carlo_witness :
  compute_lambda_values [[1]; [2]] [[10]; [20]] [[1]; [1]] (Some [[30]]) 2 1
  = compute_lambda_values [[1]; [2]] [[-5]; [7]] [[1]; [1]] (Some [[30]]) 2 1.
Proof.
  apply (@lambda_values_monte_carlo 2 1 [[1]; [2]] [[10]; [20]] [[-5]; [7]] [[1]; [1]] [30]).
  - lia.
  - split; [reflexivity | repeat constructor].
  - split; [reflexivity | repeat constructor].
  - split; [reflexivity | repeat constructor].
  - split; [reflexivity | repeat constructor].
  - reflexivity.
Defined.

(** X4: A horizon longer than the time axis of the inputs makes the first
    [inputs[i]] of the loop fail with an index error. *)
Theorem lambda_values_horizon_too_long :
  forall (H B horizon : nat) (lmbda : R) (rewards values continues : tensor) (b : row),
    (1 <= H)%nat -> shaped H B rewards -> shaped H B values -> shaped H B continues ->
    length b = B -> (H < horizon)%nat ->
    compute_lambda_values rewards values continues (Some [b]) horizon lmbda
    = Raise IndexError.
Proof.
  intros H B horizon lmbda rewards values continues b HH Hr Hv Hc Lb Hh.
  unfold compute_lambda_values.
  destruct (inputs_ok lmbda b HH Hr Hv Hc Lb) as [inputs [Hin _]].
  destruct (tew Rmult continues (tl values ++ [b])) as [cn|] eqn:Hcn; simpl in Hin;
    [|discriminate].
  cbn [bind]. rewrite Hin. cbn [bind].
  destruct (zipM_length _ _ _ Hin) as [_ Li].
  destruct horizon as [|h]; [lia|].
  rewrite seq_S, rev_app_distr. cbn [rev app lambda_loop Nat.add].
  unfold lambda_step, index.
  replace (nth_error inputs h) with (@None row)
    by (symmetry; apply nth_error_None; rewrite Li, (proj1 Hr); lia).
  reflexivity.
Qed.

Lemma lambda_values_horizon_too_long_witness :
  compute_lambda_values [[1]] [[10]] [[1]] (Some [[30]]) 15 (95 / 100) = Raise IndexError.
Proof.
  apply (@lambda_values_horizon_too_long 1 1 15 (95 / 100) [[1]] [[10]] [[1]] [30]).
  - lia.
  - split; [reflexivity | repeat constructor].
  - split; [reflexivity | repeat constructor].
  - split; [reflexivity | repeat constructor].
  - reflexivity.
  - lia.
Defined.

End LambdaValuesMore.

(** ** Two-hot targets: decoding, the mean and the log-probability *)

Module TwoHotMore.

Import TwoHot TwoHotFacts TwoHotMean DreamerV3 UnimixFacts.
Local Open Scope R_scope.

Lemma filter_none (f : nat -> R) (y : R) (l : list nat) :
  (forall i, In i l -> y < f i) -> filter (fun b => Rleb b y) (map f l) = [].
Proof.
  induction l as [|a l IH]; intros Hl; [reflexivity|].
  cbn [map filter].
  destruct (Rleb (f a) y) eqn:E; unfold Rleb in E;
    destruct (Rle_dec (f a) y) as [Hle|Hgt]; try discriminate.
  - pose proof (Hl a (or_introl eq_refl)). lra.
  - apply IH. intros i Hi. apply Hl. right. exact Hi.
Qed.

(** On a non-decreasing grid, the count of entries at or below [y] splits
    the grid: the entries before the count are at or below [y], the entries
    from the count on are above. *)
Lemma count_le_split (f : nat -> R) (y : R) :
  (forall i j, (i <= j)%nat -> f i <= f j) ->
  forall n a,
    let c := length (filter (fun b => Rleb b y) (map f (seq a n))) in
    (forall i, (a <= i < a + c)%nat -> f i <= y) /\
    (forall i, (a + c <= i < a + n)%nat -> y < f i).
Proof.
  intros Hmono. induction n as [|n IH]; intros a c.
  - subst c. simpl. split; intros i Hi; lia.
  - subst c. cbn [seq map filter].
    destruct (Rleb (f a) y) eqn:E; unfold Rleb in E;
      destruct (Rle_dec (f a) y) as [Hle|Hgt]; try discriminate.
    + destruct (IH (S a)) as [H1 H2]. cbn [length]. split; intros i Hi.
      * destruct (Nat.eq_dec i a) as [->|Hne]; [exact Hle | apply H1; lia].
      * apply H2. lia.
    + rewrite filter_none.
      * cbn [length]. split; intros i Hi; [lia|].
        pose proof (Hmono a i ltac:(lia)). lra.
      * intros i Hi. apply in_seq in Hi. pose proof (Hmono a i ltac:(lia)). lra.
Qed.

Lemma rsum_pick (h : nat -> R) (i : nat) :
  forall n a, (a <= i < a + n)%nat ->
    rsum (map (fun k => if Nat.eqb k i then h k else 0) (seq a n)) = h i.
Proof.
  assert (Hz : forall n a, (i < a)%nat ->
            rsum (map (fun k => if Nat.eqb k i then h k else 0) (seq a n)) = 0).
  { induction n as [|n IH]; intros a Ha; simpl; auto.
    destruct (Nat.eqb_spec a i); [lia|]. rewrite IH by lia. ring. }
  induction n as [|n IH]; intros a Ha; simpl; [lia|].
  destruct (Nat.eqb_spec a i) as [->|Hne].
  - rewrite Hz by lia. ring.
  - rewrite IH by lia. ring.
Qed.

(** The bin average of a vector with weight on at most two bins. *)
Lemma two_bins_average (f : nat -> R) (n i j : nat) (w w' : R) :
  (i < n)%nat -> (j < n)%nat ->
  rsum (zipw Rmult (two_bins n i j w w') (map f (seq 0 n))) = w * f i + w' * f j.
Proof.
  intros Hi Hj. unfold two_bins. rewrite zipw_map_map.
  rewrite (map_ext _ (fun k => (if Nat.eqb k i then w * f k else 0)
                               + (if Nat.eqb k j then w' * f k else 0))).
  - rewrite rsum_map_plus.
    rewrite (rsum_pick (fun k => w * f k)), (rsum_pick (fun k => w' * f k)) by lia.
    reflexivity.
  - intros k. destruct (Nat.eqb k i), (Nat.eqb k j); ring.
Qed.

Lemma one_bin_average (f : nat -> R) (n i : nat) :
  (i < n)%nat -> rsum (zipw Rmult (one_bin n i) (map f (seq 0 n))) = f i.
Proof.
  intros Hi. unfold one_bin. rewrite zipw_map_map.
  rewrite (map_ext _ (fun k => if Nat.eqb k i then f k else 0)).
  - apply rsum_pick. lia.
  - intros k. destruct (Nat.eqb k i); ring.
Qed.

Lemma bin_mono (low high : R) (n i j : nat) :
  low <= high -> (i <= j)%nat -> bin low high n i <= bin low high n j.
Proof.
  intros Hlh Hij. destruct Hlh as [Hlt|Heq].
  - apply bin_le; assumption.
  - unfold bin. subst high. replace (low - low) with 0 by ring.
    unfold Rdiv. rewrite Rmult_0_l, !Rmult_0_r. lra.
Qed.

Lemma bin_final (low high : R) (n : nat) :
  (2 <= n)%nat -> bin low high n (n - 1) = high.
Proof.
  intros Hn. unfold bin. field. apply Rgt_not_eq. apply lt_0_INR. lia.
Qed.

(** The position of a transformed target among the bins. *)
Lemma count_bounds (logits : list R) (low high y : R) :
  low <= high ->
  let c := length (filter (fun b => Rleb b y) (bins logits low high)) in
  (forall i, (i < c)%nat -> bin low high (length logits) i <= y) /\
  (forall i, (c <= i < length logits)%nat -> y < bin low high (length logits) i).
Proof.
  intros Hlh c.
  destruct (@count_le_split (bin low high (length logits)) y
              (fun i j Hij => @bin_mono low high (length logits) i j Hlh Hij)
              (length logits) 0%nat) as [H1 H2].
  split; intros i Hi; [apply H1 | apply H2]; unfold c, bins, linspace in *; lia.
Qed.

(** X5: decoding what was encoded: the bin average of the two-hot target is the
    transformed input cut to the range of the bins. *)
Theorem two_hot_target_round_trip :
  forall (logits : list R) (low high : R) (transfwd : R -> R) (x : R),
    low < high -> (2 <= length logits)%nat ->
    exists target,
      two_hot_target logits low high transfwd x = Ok target /\
      rsum (zipw Rmult target (bins logits low high)) = Rmin (Rmax (transfwd x) low) high.
Proof.
  intros logits low high transfwd x Hlh Hn.
  set (n := length logits) in *. set (y := transfwd x).
  set (c := length (filter (fun b => Rleb b y) (bins logits low high))).
  destruct (@count_bounds logits low high y (Rlt_le _ _ Hlh)) as [Hbelow Habove].
  fold n c in Hbelow, Habove.
  assert (Hcn : (c <= n)%nat) by apply count_le_n.
  pose proof (@bin_first low high n) as Hb0.
  pose proof (@bin_final low high n Hn) as Hbl.
  assert (Hbins : bins logits low high = map (bin low high n) (seq 0 n)) by reflexivity.
  destruct (Nat.eq_dec c 0) as [Hc0|Hc0].
  - exists (one_bin n 0). split; [apply target_first; [lia | exact Hc0]|].
    rewrite Hbins, one_bin_average by lia. rewrite Hb0.
    pose proof (Habove 0%nat ltac:(lia)) as Hy. fold y. rewrite Hb0 in Hy.
    rewrite Rmax_right by lra. rewrite Rmin_left by lra. reflexivity.
  - destruct (Nat.eq_dec c n) as [Hcl|Hcl].
    + exists (one_bin n (n - 1)). split; [apply target_last; [lia | exact Hcl]|].
      rewrite Hbins, one_bin_average by lia. rewrite Hbl.
      pose proof (Hbelow (n - 1)%nat ltac:(lia)) as Hy. fold y. rewrite Hbl in Hy.
      rewrite Rmax_left by lra. rewrite Rmin_right by lra. reflexivity.
    + pose proof (@target_between logits low high transfwd x c ltac:(fold n; lia) eq_refl)
        as Ht.
      cbv zeta in Ht. fold y n in Ht.
      pose proof (Hbelow (c - 1)%nat ltac:(lia)) as Hlo.
      pose proof (Habove c ltac:(lia)) as Hhi.
      pose proof (@bin_mono low high n 0 (c - 1) (Rlt_le _ _ Hlh) ltac:(lia)) as Hl1.
      pose proof (@bin_mono low high n c (n - 1) (Rlt_le _ _ Hlh) ltac:(lia)) as Hh1.
      rewrite Hb0 in Hl1. rewrite Hbl in Hh1.
      eexists. split; [exact Ht|].
      rewrite Hbins, two_bins_average by lia.
      rewrite (Rabs_left1 (bin low high n (c - 1) - y)) by lra.
      rewrite (Rabs_right (bin low high n c - y)) by lra.
      fold y. rewrite Rmax_left by lra. rewrite Rmin_left by lra.
      field. lra.
Qed.

Lemma two_hot_target_round_trip_witness :
  exists target,
    two_hot_target [0; 0; 0] (-1) 1 (fun x => x) (1 / 4) = Ok target /\
    rsum (zipw Rmult target (bins [0; 0; 0] (-1) 1)) = Rmin (Rmax (1 / 4) (-1)) 1.
Proof.
  apply (@two_hot_target_round_trip [0; 0; 0] (-1) 1 (fun x => x) (1 / 4)).
  - lra.
  - simpl. lia.
Defined.

Lemma weighted_sum_le (hi : R) :
  forall p b : list R, length p = length b ->
    (forall q, In q p -> 0 <= q) -> (forall v, In v b -> v <= hi) ->
    rsum (zipw Rmult p b) <= hi * rsum p.
Proof.
  induction p as [|q p IH]; intros [|v b] Hl Hp Hb; simpl in *;
    try discriminate; try lra.
  assert (0 <= q) by (apply Hp; auto). assert (v <= hi) by (apply Hb; auto).
  assert (rsum (zipw Rmult p b) <= hi * rsum p)
    by (apply IH; [lia | intros; apply Hp; auto | intros; apply Hb; auto]).
  nra.
Qed.

Lemma weighted_sum_ge (lo : R) :
  forall p b : list R, length p = length b ->
    (forall q, In q p -> 0 <= q) -> (forall v, In v b -> lo <= v) ->
    lo * rsum p <= rsum (zipw Rmult p b).
Proof.
  induction p as [|q p IH]; intros [|v b] Hl Hp Hb; simpl in *;
    try discriminate; try lra.
  assert (0 <= q) by (apply Hp; auto). assert (lo <= v) by (apply Hb; auto).
  assert (lo * rsum p <= rsum (zipw Rmult p b))
    by (apply IH; [lia | intros; apply Hp; auto | intros; apply Hb; auto]).
  nra.
Qed.

Lemma bin_range (low high : R) (n i : nat) :
  low <= high -> (i < n)%nat -> low <= bin low high n i <= high.
Proof.
  intros Hlh Hi.
  pose proof (@bin_mono low high n 0 i Hlh ltac:(lia)) as H0.
  rewrite bin_first in H0. split; [exact H0|].
  pose proof (@bin_mono low high n i (n - 1) Hlh ltac:(lia)) as H1.
  destruct Hlh as [Hlt|Heq].
  - pose proof (@bin_last low high n ltac:(lia) Hlt). lra.
  - subst high. unfold bin. replace (low - low) with 0 by ring.
    unfold Rdiv. rewrite Rmult_0_l, Rmult_0_r. lra.
Qed.

Lemma bins_range (logits : list R) (low high v : R) :
  low <= high -> In v (bins logits low high) -> low <= v <= high.
Proof.
  intros Hlh Hv. unfold bins, linspace in Hv. apply in_map_iff in Hv.
  destruct Hv as [i [<- Hi]]. apply in_seq in Hi. apply bin_range; [exact Hlh | lia].
Qed.

(** X6: the value predicted before [transbwd] is an average of the bins, so it
    stays between [low] and [high]; a non-decreasing [transbwd] keeps the
    mean between the images of the two ends. *)
Theorem mean_within_bins :
  forall (logits : list R) (low high : R) (transbwd : R -> R),
    low <= high -> (1 <= length logits)%nat ->
    (forall a b, a <= b -> transbwd a <= transbwd b) ->
    transbwd low <= mean logits low high transbwd <= transbwd high /\
    mode logits low high transbwd = mean logits low high transbwd.
Proof.
  intros logits low high transbwd Hlh Hn Hmono.
  assert (Hne : logits <> []) by (destruct logits; [simpl in Hn; lia | discriminate]).
  destruct (softmax_distribution Hne) as [Hpos Hsum].
  assert (Hlen : length (probs logits) = length (bins logits low high)).
  { unfold probs. rewrite softmax_length. symmetry. apply linspace_length. }
  assert (Hp : forall q, In q (probs logits) -> 0 <= q).
  { intros q Hq. apply Rlt_le. apply Hpos. exact Hq. }
  pose proof (@weighted_sum_le high (probs logits) (bins logits low high) Hlen Hp
                (fun v Hv => proj2 (@bins_range logits low high v Hlh Hv))) as Hhi.
  pose proof (@weighted_sum_ge low (probs logits) (bins logits low high) Hlen Hp
                (fun v Hv => proj1 (@bins_range logits low high v Hlh Hv))) as Hlo.
  unfold probs in Hhi, Hlo at 1. rewrite Hsum in Hhi, Hlo.
  rewrite Rmult_1_r in Hhi, Hlo.
  split; [|reflexivity].
  unfold mean, expected_bin. split; apply Hmono; assumption.
Qed.

Lemma mean_within_bins_witness :
  (fun x => x) (-1) <= mean [0; 1] (-1) 1 (fun x => x) <= (fun x => x) 1 /\
  mode [0; 1] (-1) 1 (fun x => x) = mean [0; 1] (-1) 1 (fun x => x).
Proof.
  apply (@mean_within_bins [0; 1] (-1) 1 (fun x => x)).
  - lra.
  - simpl. lia.
  - intros a b Hab. exact Hab.
Defined.

Lemma exp_le_rsum (l : list R) (x : R) : In x l -> exp x <= rsum (map exp l).
Proof.
  induction l as [|a l IH]; intros Hx; [destruct Hx|].
  assert (Hnn : 0 <= rsum (map exp l)).
  { clear. induction l as [|b l IH]; simpl; [lra|]. pose proof (exp_pos b). lra. }
  simpl. pose proof (exp_pos a). destruct Hx as [->|Hx]; [lra|].
  pose proof (IH Hx). lra.
Qed.

(** Every log-prediction [logits - logsumexp(logits)] is at most zero. *)
Lemma log_pred_nonpos (logits : list R) (v : R) :
  In v (map (fun l => l - ln (rsum (map exp logits))) logits) -> v <= 0.
Proof.
  intros Hv. apply in_map_iff in Hv. destruct Hv as [l [<- Hl]].
  pose proof (exp_le_rsum logits l Hl) as Hle. pose proof (exp_pos l) as Hp.
  destruct Hle as [Hlt|Heq].
  - pose proof (ln_increasing _ _ Hp Hlt) as H. rewrite ln_exp in H. lra.
  - rewrite <- Heq, ln_exp. lra.
Qed.

Lemma two_bins_nonneg (n i j : nat) (w w' q : R) :
  0 <= w -> 0 <= w' -> In q (two_bins n i j w w') -> 0 <= q.
Proof.
  intros Hw Hw' Hq. unfold two_bins in Hq. apply in_map_iff in Hq.
  destruct Hq as [k [<- _]]. destruct (Nat.eqb k i), (Nat.eqb k j); lra.
Qed.

Lemma ratio_nonneg (a b : R) : 0 <= a -> 0 <= b -> 0 <= a / (b + a).
Proof.
  intros Ha Hb. destruct (Req_dec (b + a) 0) as [E|E].
  - rewrite E. unfold Rdiv. rewrite Rinv_0. lra.
  - apply Rle_mult_inv_pos; lra.
Qed.

(** The target always exists, has one entry per bin and no negative entry. *)
Lemma target_nonneg (logits : list R) (low high : R) (transfwd : R -> R) (x : R) :
  (1 <= length logits)%nat ->
  exists target,
    two_hot_target logits low high transfwd x = Ok target /\
    length target = length logits /\ (forall q, In q target -> 0 <= q).
Proof.
  intros Hn. set (n := length logits) in *. set (y := transfwd x).
  set (c := length (filter (fun b => Rleb b y) (bins logits low high))).
  assert (Hcn : (c <= n)%nat) by apply count_le_n.
  destruct (Nat.eq_dec c 0) as [Hc0|Hc0].
  - exists (one_bin n 0). split; [apply target_first; assumption|].
    destruct (@one_bin_distribution n 0 ltac:(lia)) as [L [F _]].
    split; [exact L|]. apply Forall_forall. exact F.
  - destruct (Nat.eq_dec c n) as [Hcl|Hcl].
    + exists (one_bin n (n - 1)). split; [apply target_last; assumption|].
      destruct (@one_bin_distribution n (n - 1) ltac:(lia)) as [L [F _]].
      split; [exact L|]. apply Forall_forall. exact F.
    + pose proof (@target_between logits low high transfwd x c
                    ltac:(fold n; lia) eq_refl) as Ht.
      cbv zeta in Ht. eexists. split; [exact Ht|]. split.
      * unfold two_bins. rewrite length_map, length_seq. reflexivity.
      * intros q Hq. apply two_bins_nonneg in Hq; [exact Hq | |].
        -- apply ratio_nonneg; apply Rabs_pos.
        -- rewrite Rplus_comm. apply ratio_nonneg; apply Rabs_pos.
Qed.

(** X7: the log-probability of any input is defined and never positive. *)
Theorem log_prob_nonpos :
  forall (logits : list R) (low high : R) (transfwd : R -> R) (x : R),
    (1 <= length logits)%nat ->
    exists lp, log_prob logits low high transfwd x = Ok lp /\ lp <= 0.
Proof.
  intros logits low high transfwd x Hn.
  destruct (@target_nonneg logits low high transfwd x Hn) as [target [Ht [Hl Hq]]].
  unfold log_prob. rewrite Ht. cbn [bind]. eexists. split; [reflexivity|].
  pose proof (@weighted_sum_le 0 target
                (map (fun l => l - ln (rsum (map exp logits))) logits)
                ltac:(rewrite length_map; exact Hl) Hq
                (fun v Hv => @log_pred_nonpos logits v Hv)) as H.
  lra.
Qed.

Lemma log_prob_nonpos_witness :
  exists lp, log_prob [0; 1; 2] (-1) 1 (fun x => x) (1 / 4) = Ok lp /\ lp <= 0.
Proof.
  apply (@log_prob_nonpos [0; 1; 2] (-1) 1 (fun x => x) (1 / 4)).
  simpl. lia.
Defined.

(** X8: at an input that falls exactly on bin [j] the whole target sits on that
    bin, and the log-probability is the log-softmax of the logits at [j]. *)
Theorem log_prob_at_bin :
  forall (logits : list R) (low high : R) (transfwd : R -> R) (x : R) (j : nat),
    low < high -> (2 <= length logits)%nat -> (j < length logits)%nat ->
    transfwd x = bin low high (length logits) j ->
    two_hot_target logits low high transfwd x = Ok (one_bin (length logits) j) /\
    log_prob logits low high transfwd x
    = Ok (nth j logits 0 - ln (rsum (map exp logits))).
Proof.
  intros logits low high transfwd x j Hlh Hn Hj Hy.
  set (n := length logits) in *.
  assert (Hc : length (filter (fun b => Rleb b (transfwd x)) (bins logits low high)) = S j).
  { apply count_threshold; [fold n; lia | |].
    - intros i Hi. rewrite Hy. apply bin_le; [exact Hlh | lia].
    - intros i Hi. rewrite Hy. apply bin_lt; [exact Hlh | exact Hn | lia]. }
  assert (Ht : two_hot_target logits low high transfwd x = Ok (one_bin n j)).
  { destruct (Nat.eq_dec (S j) n) as [E|E].
    - replace j with (n - 1)%nat by lia. apply target_last; [fold n; lia|].
      rewrite Hc. exact E.
    - pose proof (@target_between logits low high transfwd x (S j)
                    ltac:(fold n; lia) Hc) as Hb.
      cbv zeta in Hb. fold n in Hb. replace (S j - 1)%nat with j in Hb by lia.
      rewrite Hb. f_equal. rewrite <- (two_bins_left n j (S j)).
      pose proof (@bin_lt low high n j (S j) Hlh Hn ltac:(lia)) as Hlt.
      rewrite Hy. replace (bin low high n j - bin low high n j) with 0 by ring.
      rewrite Rabs_R0, (Rabs_right (bin low high n (S j) - bin low high n j)) by lra.
      f_equal; field; lra. }
  split; [exact Ht|].
  unfold log_prob. rewrite Ht. cbn [bind]. f_equal.
  assert (E : map (fun l => l - ln (rsum (map exp logits))) logits
              = map (fun k => nth k logits 0 - ln (rsum (map exp logits))) (seq 0 n)).
  { transitivity (map (fun l => l - ln (rsum (map exp logits)))
                      (map (fun t => nth t logits 0) (seq 0 n))).
    - unfold n. rewrite LambdaValuesMore.map_nth_seq_id. reflexivity.
    - apply map_map. }
  rewrite E.
  rewrite (@one_bin_average (fun k => nth k logits 0 - ln (rsum (map exp logits))) n j Hj).
  reflexivity.
Qed.

Lemma log_prob_at_bin_witness :
  two_hot_target [0; 0; 0] (-1) 1 (fun x => x) 0 = Ok (one_bin (length [0; 0; 0]) 1) /\
  log_prob [0; 0; 0] (-1) 1 (fun x => x) 0
  = Ok (nth 1 [0; 0; 0] 0 - ln (rsum (map exp [0; 0; 0]))).
Proof.
  apply (@log_prob_at_bin [0; 0; 0] (-1) 1 (fun x => x) 0 1).
  - lra.
  - simpl. lia.
  - simpl. lia.
  - unfold bin. simpl. field.
Defined.

End TwoHotMore.

(** ** SAC-pixel: repeated target updates, target values, the actor's range *)

Module SACPixelMoreFacts.

Import SACPixel SACPixelFacts SACPixelMore.
Local Open Scope R_scope.

Lemma zipw_zipw_r (f g : R -> R -> R) :
  forall p t : row, zipw f p (zipw g p t) = zipw (fun x y => f x (g x y)) p t.
Proof.
  induction p as [|x p IH]; intros [|y t]; simpl; auto. f_equal. apply IH.
Qed.

Lemma zipw_ext (f g : R -> R -> R) :
  (forall x y, f x y = g x y) -> forall p t : row, zipw f p t = zipw g p t.
Proof.
  intros Hfg. induction p as [|x p IH]; intros [|y t]; simpl; auto.
  rewrite Hfg. f_equal. apply IH.
Qed.

Lemma zipw_snd (p t : row) : length p = length t -> zipw (fun _ y => y) p t = t.
Proof.
  revert t. induction p as [|x p IH]; intros [|y t] Hl; simpl in *;
    try discriminate; auto. f_equal. apply IH. lia.
Qed.

(** X9: after [k] updates against unchanged online critics every target entry
    is the online entry plus the initial gap shrunk by [(1 - tau) ^ k]. *)
Theorem qfs_target_ema_times_closed_form :
  forall (k : nat) (a : SACPixelAgent),
    same_structure a ->
    exists a',
      qfs_target_ema_times k a = Ok a' /\
      qfs_unwrapped a' = qfs_unwrapped a /\
      _tau a' = _tau a /\
      length (qfs_target a') = length (qfs_target a) /\
      forall i param target_param,
        nth_error (qfs_unwrapped a) i = Some param ->
        nth_error (qfs_target a) i = Some target_param ->
        nth_error (qfs_target a') i
        = Some (zipw (fun p t => p + (1 - _tau a) ^ k * (t - p)) param target_param).
Proof.
  induction k as [|k IH]; intros a Hs.
  - exists a. cbn [qfs_target_ema_times]. repeat split; auto.
    intros i p t Hp Ht. rewrite Ht. f_equal.
    assert (Hl : length p = length t).
    { unfold same_structure in Hs.
      revert i Hp Ht. induction Hs as [|p0 t0 ps ts H0 Hr IHs]; intros [|i] Hp Ht;
        simpl in *; try discriminate.
      - injection Hp as <-. injection Ht as <-. exact H0.
      - eapply IHs; eauto. }
    rewrite (zipw_ext (fun p t => p + (1 - _tau a) ^ 0 * (t - p)) (fun _ y => y))
      by (intros; simpl; ring).
    symmetry. apply zipw_snd. exact Hl.
  - destruct (ema_loop_ok (_tau a) Hs) as [ts [Hloop [Hshape [Hnth _]]]].
    set (a1 := {| qfs_unwrapped := qfs_unwrapped a; qfs_target := ts; _tau := _tau a |}).
    assert (H1 : qfs_target_ema a = Ok a1).
    { unfold qfs_target_ema. rewrite Hloop. reflexivity. }
    destruct (IH a1 Hshape) as [a' [Hk [Hu [Htau [Hlen Hn]]]]].
    exists a'. cbn [qfs_target_ema_times]. rewrite H1. cbn [bind].
    split; [exact Hk|]. split; [exact Hu|]. split; [exact Htau|]. split.
    + rewrite Hlen. simpl. apply Forall2_length in Hshape. apply Forall2_length in Hs.
      congruence.
    + intros i p t Hp Ht.
      rewrite (Hn i p (ema_spec (_tau a) p t) Hp (Hnth i p t Hp Ht)).
      f_equal. unfold ema_spec. rewrite zipw_zipw_r. apply zipw_ext.
      intros x y. simpl. ring.
Qed.

Lemma qfs_target_ema_times_closed_form_witness :
  exists a',
    qfs_target_ema_times 2 (mkAgent [[1; 2]; [3]] [[5; 6]; [7]] (1 / 2)) = Ok a' /\
    qfs_unwrapped a' = [[1; 2]; [3]] /\
    _tau a' = 1 / 2 /\
    length (qfs_target a') = 2%nat /\
    forall i param target_param,
      nth_error [[1; 2]; [3]] i = Some param ->
      nth_error [[5; 6]; [7]] i = Some target_param ->
      nth_error (qfs_target a') i
      = Some (zipw (fun p t => p + (1 - 1 / 2) ^ 2 * (t - p)) param target_param).
Proof.
  apply (@qfs_target_ema_times_closed_form 2 (mkAgent [[1; 2]; [3]] [[5; 6]; [7]] (1 / 2))).
  repeat constructor.
Defined.

(** *** The target value of one transition *)

Lemma fold_left_Rmin_le (l : row) :
  forall x, fold_left Rmin l x <= x /\ (forall q, In q l -> fold_left Rmin l x <= q).
Proof.
  induction l as [|y l IH]; intros x; simpl.
  - split; [lra | intros q []].
  - destruct (IH (Rmin x y)) as [H1 H2].
    pose proof (Rmin_l x y). pose proof (Rmin_r x y).
    split; [lra|]. intros q [<-|Hq]; [lra | apply H2; exact Hq].
Qed.

Lemma fold_left_Rmin_in (l : row) :
  forall x, fold_left Rmin l x = x \/ In (fold_left Rmin l x) l.
Proof.
  induction l as [|y l IH]; intros x; simpl; [left; reflexivity|].
  destruct (IH (Rmin x y)) as [E|E].
  - rewrite E. unfold Rmin. destruct (Rle_dec x y); [left | right; left]; reflexivity.
  - right. right. exact E.
Qed.

Lemma row_min_spec (l : row) :
  l <> [] ->
  exists m, row_min l = Ok m /\ In m l /\ (forall q, In q l -> m <= q).
Proof.
  destruct l as [|x l]; intros Hne; [congruence|].
  exists (fold_left Rmin l x). split; [reflexivity|].
  destruct (fold_left_Rmin_le l x) as [H1 H2]. split.
  - destruct (fold_left_Rmin_in l x) as [E|E]; [left; symmetry; exact E | right; exact E].
  - intros q [<-|Hq]; [exact H1 | apply H2; exact Hq].
Qed.

(** X10: the target of a transition is the reward when the episode ended, and
    otherwise never above the entropy-corrected value of any single target
    critic, one of which it attains. *)
Theorem get_next_target_q_values_pessimistic :
  forall (obs : Type) (actor : obs -> row -> row * R)
         (get_target_q_values : obs -> row -> row) (log_alpha : R)
         (next_obs : obs) (eps : row) (rewards dones gamma : R),
    get_target_q_values next_obs (fst (actor next_obs eps)) <> [] ->
    0 <= dones <= 1 -> 0 <= gamma ->
    let qs := get_target_q_values next_obs (fst (actor next_obs eps)) in
    let log_pi := snd (actor next_obs eps) in
    let value q := rewards + (1 - dones) * gamma * (q - alpha log_alpha * log_pi) in
    exists v,
      get_next_target_q_values actor get_target_q_values log_alpha
        next_obs eps rewards dones gamma = Ok v /\
      (forall q, In q qs -> v <= value q) /\
      (exists q, In q qs /\ v = value q) /\
      (dones = 1 -> v = rewards).
Proof.
  intros obs actor tq log_alpha next_obs eps rewards dones gamma Hne Hd Hg qs log_pi value.
  destruct (row_min_spec Hne) as [m [Hm [Hin Hle]]].
  exists (value m). unfold get_next_target_q_values. rewrite Hm. cbn [bind].
  split; [reflexivity|]. split; [|split].
  - intros q Hq. pose proof (Hle q Hq). unfold value.
    assert (0 <= (1 - dones) * gamma) by (apply Rmult_le_pos; lra).
    apply Rplus_le_compat_l. apply Rmult_le_compat_l; [assumption | lra].
  - exists m. split; [exact Hin | reflexivity].
  - intros ->. unfold value. ring.
Qed.

Lemma get_next_target_q_values_pessimistic_witness :
  exists v,
    get_next_target_q_values (fun (_ : unit) (e : row) => (e, 1)) (fun _ a => 3 :: 2 :: a) 0
      tt [5] 1 0 (1 / 2) = Ok v /\
    (forall q, In q [3; 2; 5] -> v <= 1 + (1 - 0) * (1 / 2) * (q - alpha 0 * 1)) /\
    (exists q, In q [3; 2; 5] /\ v = 1 + (1 - 0) * (1 / 2) * (q - alpha 0 * 1)) /\
    (0 = 1 -> v = 1).
Proof.
  apply (@get_next_target_q_values_pessimistic unit (fun _ e => (e, 1))
           (fun _ a => 3 :: 2 :: a) 0 tt [5] 1 0 (1 / 2)).
  - discriminate.
  - lra.
  - lra.
Defined.

(** *** The actor *)

Lemma tanh_bounds (x : R) : -1 < tanh x < 1.
Proof.
  unfold tanh, sinh, cosh.
  pose proof (exp_pos x) as Ha. pose proof (exp_pos (- x)) as Hb.
  set (a := exp x) in *. set (b := exp (- x)) in *.
  assert (Hp : 0 < a + b) by lra.
  assert (E1 : (a - b) / 2 / ((a + b) / 2) = 1 - 2 * b / (a + b)) by (field; lra).
  assert (E2 : (a - b) / 2 / ((a + b) / 2) = -1 + 2 * a / (a + b)) by (field; lra).
  assert (0 < 2 * b / (a + b)) by (apply Rdiv_lt_0_compat; lra).
  assert (0 < 2 * a / (a + b)) by (apply Rdiv_lt_0_compat; lra).
  split; [rewrite E2 | rewrite E1]; lra.
Qed.

Lemma squash_bounds (action_low action_high x : R) :
  action_low <= action_high ->
  action_low <= squash action_low action_high x <= action_high.
Proof.
  intros Hlh. unfold squash, action_scale, action_bias.
  pose proof (tanh_bounds x) as [H1 H2]. split; nra.
Qed.

(** X11: sampled and greedy actions both stay inside the action bounds. *)
Theorem actions_within_bounds :
  forall (obs : Type) (fc_mean fc_logstd : obs -> row) (action_low action_high : R)
         (o : obs) (eps : row),
    action_low <= action_high ->
    Forall (fun a => action_low <= a <= action_high)
           (fst (forward fc_mean fc_logstd action_low action_high o eps)) /\
    Forall (fun a => action_low <= a <= action_high)
           (get_greedy_actions fc_mean action_low action_high o) /\
    length (get_greedy_actions fc_mean action_low action_high o) = length (fc_mean o).
Proof.
  intros obs fc_mean fc_logstd lo hi o eps Hlh. split; [|split].
  - unfold forward, get_actions_and_log_probs. cbn [fst].
    apply Forall_forall. intros a Ha. apply in_map_iff in Ha.
    destruct Ha as [t [<- _]]. apply squash_bounds. exact Hlh.
  - unfold get_greedy_actions. apply Forall_forall. intros a Ha.
    apply in_map_iff in Ha. destruct Ha as [m [<- _]].
    apply (@squash_bounds lo hi m Hlh).
  - unfold get_greedy_actions. apply length_map.
Qed.

Lemma actions_within_bounds_witness :
  Forall (fun a => -2 <= a <= 4)
         (fst (forward (fun _ : unit => [0; 1]) (fun _ => [0; 5]) (-2) 4 tt [1; -1])) /\
  Forall (fun a => -2 <= a <= 4) (get_greedy_actions (fun _ : unit => [0; 1]) (-2) 4 tt) /\
  length (get_greedy_actions (fun _ : unit => [0; 1]) (-2) 4 tt) = length [0; 1].
Proof.
  apply (@actions_within_bounds unit (fun _ => [0; 1]) (fun _ => [0; 5]) (-2) 4 tt [1; -1]).
  lra.
Defined.

Lemma exp_le (x y : R) : x <= y -> exp x <= exp y.
Proof.
  intros [H|H]; [left; apply exp_increasing; exact H | right; rewrite H; reflexivity].
Qed.

Lemma clamp_bounds (lo hi x : R) : lo <= hi -> lo <= clamp lo hi x <= hi.
Proof.
  intros Hlh. unfold clamp, Rmin, Rmax.
  destruct (Rle_dec x lo); destruct (Rle_dec _ hi); lra.
Qed.

(** X12: the standard deviation the actor samples with is between [exp (-10)]
    and [exp 2], hence positive, and the logarithm of the change of
    variable is never taken of a number below [1e-6]. *)
Theorem forward_well_defined :
  forall (obs : Type) (fc_logstd : obs -> row) (action_low action_high : R)
         (o : obs) (x_t : R),
    action_low <= action_high ->
    Forall (fun s => exp (-10) <= s <= exp 2 /\ 0 < s) (forward_std fc_logstd o) /\
    length (forward_std fc_logstd o) = length (fc_logstd o) /\
    1 / 1000000 <= log_argument action_low action_high x_t.
Proof.
  intros obs fc_logstd lo hi o x_t Hlh. split; [|split].
  - unfold forward_std. apply Forall_forall. intros s Hs. apply in_map_iff in Hs.
    destruct Hs as [l [<- _]].
    destruct (@clamp_bounds LOG_STD_MIN LOG_STD_MAX l) as [H1 H2];
      [unfold LOG_STD_MIN, LOG_STD_MAX; lra|].
    unfold LOG_STD_MIN in H1. unfold LOG_STD_MAX in H2.
    split; [split; apply exp_le; assumption | apply exp_pos].
  - unfold forward_std. apply length_map.
  - unfold log_argument, action_scale. pose proof (tanh_bounds x_t) as [H1 H2].
    assert (0 <= 1 - tanh x_t ^ 2) by nra.
    assert (0 <= (hi - lo) / 2 * (1 - tanh x_t ^ 2)) by (apply Rmult_le_pos; lra).
    lra.
Qed.

Lemma forward_well_defined_witness :
  Forall (fun s => exp (-10) <= s <= exp 2 /\ 0 < s)
         (forward_std (fun _ : unit => [-20; 0; 7]) tt) /\
  length (forward_std (fun _ : unit => [-20; 0; 7]) tt) = length [-20; 0; 7] /\
  1 / 1000000 <= log_argument (-1) 1 3.
Proof.
  apply (@forward_well_defined unit (fun _ => [-20; 0; 7]) (-1) 1 tt 3).
  lra.
Defined.

End SACPixelMoreFacts.

(** ** Dreamer-V3: imagination, and the player against [dynamic] *)

Module DreamerV3MoreFacts.

Import DreamerV3 DreamerV3More UnimixFacts RSSMFacts PlayerFacts.
Local Open Scope R_scope.

Lemma list_eq_by_nth {A : Type} (l l' : list A) :
  length l = length l' ->
  (forall i x, nth_error l i = Some x -> nth_error l' i = Some x) -> l = l'.
Proof.
  revert l'. induction l as [|x l IH]; intros [|y l'] Hl Hn; simpl in *;
    try discriminate; auto.
  f_equal.
  - specialize (Hn 0%nat x eq_refl). simpl in Hn. congruence.
  - apply IH; [lia|]. intros i z Hz. apply (Hn (S i) z Hz).
Qed.

Section Networks.

Variable noise : Type.
Variable mode_of : row -> row.
Variable rsample : noise -> row -> row.
Variable eps : R.
Variable recurrent_model : row -> row -> row.
Variables representation_model transition_model : row -> row.
Variables (discrete : nat) (unimix : R).
Variable stoch : nat.

Hypothesis Hdiscrete : (0 < discrete)%nat.
Hypothesis Htransition : forall h, length (transition_model h) = (stoch * discrete)%nat.
Hypothesis Hrepresentation : forall x, length (representation_model x) = (stoch * discrete)%nat.
Hypothesis Hmode : forall l, length (mode_of l) = length l.

(** With [is_first = 0] everywhere the reset leaves its inputs alone. *)
Lemma dynamic_reset_not_first (B : nat) (posterior : list (list row))
    (recurrent_state action : list row) :
  length action = B -> length recurrent_state = B -> length posterior = B ->
  Forall (fun p => length (concat p) = (stoch * discrete)%nat) posterior ->
  dynamic_reset mode_of rsample eps transition_model discrete unimix
    posterior recurrent_state action (repeat 0 B)
  = Ok (action, recurrent_state, map (@concat R) posterior).
Proof.
  intros L2 L3 L4 HP.
  destruct (@dynamic_reset_spec noise mode_of rsample eps transition_model discrete unimix
              stoch Hdiscrete Htransition Hmode B posterior recurrent_state action
              (repeat 0 B) (repeat_length 0 B) L2 L3 L4 HP)
    as [a' [h' [z' [E [La [Lh [Lz N]]]]]]].
  rewrite E. 
  assert (Hall : forall i a h p,
            nth_error action i = Some a -> nth_error recurrent_state i = Some h ->
            nth_error posterior i = Some p ->
            nth_error a' i = Some a /\ nth_error h' i = Some h /\
            nth_error z' i = Some (concat p)).
  { intros i a h p Ha Hh Hp.
    assert (Hi : (i < B)%nat) by (rewrite <- L2; apply nth_error_Some; congruence).
    destruct (N i 0 a h p (nth_error_repeat 0 Hi) Ha Hh Hp)
      as [hr [lg [st [zr [Na [Eh [Nh [Et [Ez Nz]]]]]]]]].
    rewrite blend_not_first in Eh by (rewrite !length_map; reflexivity).
    injection Eh as <-.
    rewrite blend_not_first in Ez
      by (rewrite (@transition_row_length noise mode_of rsample eps transition_model
                     discrete unimix stoch Hdiscrete Htransition Hmode _ _ _ Et);
          rewrite Forall_forall in HP; apply HP; eapply nth_error_In; eauto).
    injection Ez as <-.
    rewrite scale_not_first in Na. auto. }
  assert (Ea : action = a').
  { apply list_eq_by_nth; [lia|]. intros i a Ha.
    assert (Hi : (i < B)%nat) by (rewrite <- L2; apply nth_error_Some; congruence).
    destruct (nth_error recurrent_state i) as [h|] eqn:Hh;
      [|apply nth_error_None in Hh; lia].
    destruct (nth_error posterior i) as [p|] eqn:Hp;
      [|apply nth_error_None in Hp; lia].
    apply (Hall i a h p Ha Hh Hp). }
  assert (Eh : recurrent_state = h').
  { apply list_eq_by_nth; [lia|]. intros i h Hh.
    assert (Hi : (i < B)%nat) by (rewrite <- L3; apply nth_error_Some; congruence).
    destruct (nth_error action i) as [a|] eqn:Ha;
      [|apply nth_error_None in Ha; lia].
    destruct (nth_error posterior i) as [p|] eqn:Hp;
      [|apply nth_error_None in Hp; lia].
    apply (Hall i a h p Ha Hh Hp). }
  assert (Ez : map (@concat R) posterior = z').
  { apply list_eq_by_nth; [rewrite length_map; lia|]. intros i z Hz.
    rewrite nth_error_map in Hz.
    destruct (nth_error posterior i) as [p|] eqn:Hp; [|discriminate].
    injection Hz as <-.
    assert (Hi : (i < B)%nat) by (rewrite <- L4; apply nth_error_Some; congruence).
    destruct (nth_error action i) as [a|] eqn:Ha;
      [|apply nth_error_None in Ha; lia].
    destruct (nth_error recurrent_state i) as [h|] eqn:Hh;
      [|apply nth_error_None in Hh; lia].
    apply (Hall i a h p Ha Hh Hp). }
  rewrite <- Ea, <- Eh, <- Ez. reflexivity.
Qed.

(** X13: away from episode starts a step of [dynamic] is the imagination step
    for the recurrent state and the prior: the same recurrent state, and
    the same prior for the same randomness. *)
Theorem dynamic_not_first_is_imagination :
  forall (B : nat) (posterior : list (list row))
         (recurrent_state action embedded_obs : list row)
         (xi_prior xi_posterior : nat -> nat -> noise),
    length action = B -> length recurrent_state = B ->
    length posterior = B -> length embedded_obs = B ->
    Forall (fun p => length (concat p) = (stoch * discrete)%nat) posterior ->
    exists hn post prior plg qlg,
      dynamic mode_of rsample eps recurrent_model representation_model transition_model
        discrete unimix posterior recurrent_state action embedded_obs (repeat 0 B)
        xi_prior xi_posterior = Ok (hn, post, prior, plg, qlg) /\
      imagination mode_of rsample eps recurrent_model transition_model discrete unimix
        (map (@concat R) posterior) recurrent_state action xi_prior = Ok (prior, hn).
Proof.
  intros B posterior recurrent_state action embedded_obs xi_prior xi_posterior
         L2 L3 L4 L5 HP.
  unfold dynamic, imagination.
  rewrite (@dynamic_reset_not_first B posterior recurrent_state action L2 L3 L4 HP).
  cbn [bind].
  destruct (zipM_spec (fun p a : row => Ok (p ++ a)) (map (@concat R) posterior) action)
    as [pa [E1 [Lpa N1]]]; [rewrite length_map; lia | eauto |].
  rewrite E1. cbn [bind].
  destruct (zipM_spec (fun x h : row => Ok (recurrent_model x h)) pa recurrent_state)
    as [hn [E2 [Lhn N2]]]; [rewrite length_map in Lpa; lia | eauto |].
  rewrite E2. cbn [bind].
  destruct (@transition_ok noise mode_of rsample eps transition_model discrete unimix
              stoch Hdiscrete Htransition Hmode hn (Some xi_prior))
    as [qlg [prior [E3 [Lq [Lp N3]]]]].
  rewrite E3. cbn [bind].
  destruct (@representation_ok noise mode_of rsample eps representation_model discrete
              unimix stoch Hdiscrete Hrepresentation Hmode hn embedded_obs xi_posterior)
    as [plg [post [E4 [Lpl [Lpo N4]]]]]; [rewrite length_map in Lpa; lia|].
  rewrite E4. cbn [bind fst snd].
  exists hn, post, prior, plg, qlg. split; reflexivity.
Qed.

End Networks.

Lemma dynamic_not_first_is_imagination_witness :
  exists hn post prior plg qlg,
    dynamic Toy.mode_of Toy.rsample Toy.eps Toy.recurrent_model Toy.representation_model
      Toy.transition_model Toy.discrete Toy.unimix
      [[[0; 1]]; [[1; 0]]] [[5]; [6]] [[7]; [8]] [[3]; [4]] (repeat 0 2) Toy.xi Toy.xi
    = Ok (hn, post, prior, plg, qlg) /\
    imagination Toy.mode_of Toy.rsample Toy.eps Toy.recurrent_model Toy.transition_model
      Toy.discrete Toy.unimix (map (@concat R) [[[0; 1]]; [[1; 0]]]) [[5]; [6]] [[7]; [8]]
      Toy.xi = Ok (prior, hn).
Proof.
  apply (@dynamic_not_first_is_imagination unit Toy.mode_of Toy.rsample Toy.eps
           Toy.recurrent_model Toy.representation_model Toy.transition_model
           Toy.discrete Toy.unimix 1%nat).
  - unfold Toy.discrete. lia.
  - intros h. reflexivity.
  - intros x. reflexivity.
  - intros l. apply toy_mode_length.
  - reflexivity.
  - reflexivity.
  - reflexivity.
  - reflexivity.
  - repeat constructor.
Defined.

(** *** The player *)

Lemma concat_imap_length {A : Type} (f : nat -> list A -> list A) (ls : list (list A)) :
  (forall j g, length (f j g) = length g) ->
  forall a, length (concat (imap_from f a ls)) = length (concat ls).
Proof.
  intros Hf. induction ls as [|g ls IH]; intros a; simpl; auto.
  rewrite !length_app, Hf, IH. reflexivity.
Qed.

Lemma mapM_checked {A : Type} (ok : A -> bool) (e : exn) (l : list A) :
  Forall (fun x => ok x = true) l ->
  mapM (fun x => if ok x then Ok x else Raise e) l = Ok l.
Proof.
  induction 1 as [|x l Hx Hl IH]; simpl; auto. rewrite Hx, IH. reflexivity.
Qed.

Lemma mapM_cat_heads (heads : list (list row)) :
  Forall (fun hs => hs <> []) heads ->
  mapM cat_heads heads = Ok (map (@concat R) heads).
Proof.
  induction 1 as [|hs heads Hx Hl IH]; simpl; auto.
  rewrite IH. destruct hs; [congruence | reflexivity].
Qed.

Lemma imap_from_Forall {A B : Type} (P : B -> Prop) (f : nat -> A -> B) (l : list A) :
  (forall i x, P (f i x)) -> forall a, Forall P (imap_from f a l).
Proof.
  intros Hf. induction l as [|x l IH]; intros a; simpl; constructor; auto.
Qed.

Section PlayerStep.

Variable noise : Type.
Variable mode_of : row -> row.
Variable rsample : noise -> row -> row.
Variable eps : R.
Variable recurrent_model : row -> row -> row.
Variables representation_model transition_model : row -> row.
Variables (discrete : nat) (unimix : R).
Variable stoch : nat.
Variables (stochastic_size discrete_size : nat).
Variable obs : Type.
Variable encoder : obs -> list row.
Variable actor_noise : Type.
Variable actor : row -> bool -> actor_noise -> list row.

Hypothesis Hdiscrete : (0 < discrete)%nat.
Hypothesis Htransition : forall h, length (transition_model h) = (stoch * discrete)%nat.
Hypothesis Hrepresentation : forall x, length (representation_model x) = (stoch * discrete)%nat.
Hypothesis Hmode : forall l, length (mode_of l) = length l.
Hypothesis Hrsample : forall n l, length (rsample n l) = length l.
Hypothesis Hsizes : (stochastic_size * discrete_size = stoch * discrete)%nat.
Hypothesis Hactor : forall x t z, actor x t z <> [].

Local Abbreviation representation_row :=
  (RSSM_representation_row mode_of rsample eps representation_model discrete unimix).
Local Abbreviation representation :=
  (RSSM_representation mode_of rsample eps representation_model discrete unimix).
Local Abbreviation greedy :=
  (get_greedy_action mode_of rsample eps recurrent_model representation_model discrete
     unimix stochastic_size discrete_size encoder actor).

Lemma representation_row_length (h e : row) (xi : nat -> noise) (lg st : row) :
  representation_row h e xi = Ok (lg, st) -> length st = (stoch * discrete)%nat.
Proof.
  unfold RSSM_representation_row.
  destruct (@uniform_mix_row eps discrete unimix stoch Hdiscrete
              (representation_model (h ++ e)) (Hrepresentation (h ++ e))) as [lg' [E Hl]].
  rewrite E. cbn [bind]. unfold compute_stochastic_state.
  rewrite view_split_last_3 by lia. cbn [bind shape data].
  intros H. injection H as _ <-.
  rewrite concat_imap_length by (intros; apply Hrsample).
  destruct (@chunks_all discrete stoch lg' Hdiscrete Hl) as [_ Hcat].
  rewrite Hcat. exact Hl.
Qed.

(** What [get_greedy_action] does to states of a batch of [B]
    environments. *)
Lemma get_greedy_action_spec (B : nat) (p : PlayerDV3) (o : obs) (t : bool)
    (xi : nat -> nat -> noise) (zeta : nat -> actor_noise) :
  length (actions p) = B -> length (recurrent_state p) = B ->
  length (stochastic_state p) = B -> length (encoder o) = B ->
  exists pa hn plg post heads,
    zipM (fun s a : row => Ok (s ++ a)) (stochastic_state p) (actions p) = Ok pa /\
    zipM (fun x h : row => Ok (recurrent_model x h)) pa (recurrent_state p) = Ok hn /\
    representation hn (encoder o) xi = Ok (plg, post) /\
    length heads = B /\
    greedy p o t xi zeta
    = Ok ({| actions := map (@concat R) heads;
             recurrent_state := hn;
             stochastic_state := post;
             num_envs := num_envs p;
             actions_dim := actions_dim p;
             recurrent_state_size := recurrent_state_size p |}, heads).
Proof.
  intros La Lh Lz Le. unfold get_greedy_action.
  destruct (zipM_spec (fun s a : row => Ok (s ++ a)) (stochastic_state p) (actions p))
    as [pa [E1 [Lpa N1]]]; [lia | eauto |].
  rewrite E1. cbn [bind].
  destruct (zipM_spec (fun x h : row => Ok (recurrent_model x h)) pa (recurrent_state p))
    as [hn [E2 [Lhn N2]]]; [lia | eauto |].
  rewrite E2. cbn [bind].
  destruct (@representation_ok noise mode_of rsample eps representation_model discrete
              unimix stoch Hdiscrete Hrepresentation Hmode hn (encoder o) xi)
    as [plg [post [E4 [Lpl [Lpo N4]]]]]; [lia|].
  rewrite E4. cbn [bind snd].
  assert (Hpost : Forall (fun s => (length s =? stochastic_size * discrete_size)%nat = true)
                         post).
  { apply Forall_forall. intros s Hs. apply In_nth_error in Hs. destruct Hs as [i Hi].
    assert (Hlt : (i < length post)%nat) by (apply nth_error_Some; congruence).
    destruct (nth_error hn i) as [h|] eqn:Hh; [|apply nth_error_None in Hh; lia].
    destruct (nth_error (encoder o) i) as [e|] eqn:He; [|apply nth_error_None in He; lia].
    destruct (N4 i h e Hh He) as [lg [st [Er [_ Hst]]]].
    rewrite Hi in Hst. injection Hst as <-.
    rewrite (representation_row_length _ _ _ Er), Hsizes. apply Nat.eqb_refl. }
  rewrite (mapM_checked (fun s => (length s =? stochastic_size * discrete_size)%nat)
             RuntimeError Hpost).
  cbn [bind].
  destruct (zipM_spec (fun s h : row => Ok (s ++ h)) post hn)
    as [sh [E5 [Lsh N5]]]; [lia | eauto |].
  rewrite E5. cbn [bind].
  rewrite mapM_cat_heads by (apply imap_from_Forall; intros; apply Hactor).
  cbn [bind].
  exists pa, hn, plg, post, (imap_from (fun i x => actor x t (zeta i)) 0 sh).
  repeat split; auto. rewrite imap_from_length. lia.
Qed.

(** X14: away from episode starts the player advances its states exactly as
    [dynamic] does for the same previous states, actions, observations and
    randomness: the new recurrent state and the new posterior agree. *)
Theorem get_greedy_action_is_dynamic_step :
  forall (B : nat) (p : PlayerDV3) (o : obs) (t : bool)
         (xi xi_prior : nat -> nat -> noise) (zeta : nat -> actor_noise)
         (posterior : list (list row)),
    length (actions p) = B -> length (recurrent_state p) = B ->
    length (encoder o) = B -> length posterior = B ->
    map (@concat R) posterior = stochastic_state p ->
    Forall (fun z => length (concat z) = (stoch * discrete)%nat) posterior ->
    exists p' heads hn post prior plg qlg,
      greedy p o t xi zeta = Ok (p', heads) /\
      dynamic mode_of rsample eps recurrent_model representation_model transition_model
        discrete unimix posterior (recurrent_state p) (actions p) (encoder o)
        (repeat 0 B) xi_prior xi = Ok (hn, post, prior, plg, qlg) /\
      recurrent_state p' = hn /\ stochastic_state p' = post /\
      actions p' = map (@concat R) heads /\ length heads = B.
Proof.
  intros B p o t xi xi_prior zeta posterior La Lh Le Lp Hz HP.
  assert (Lz : length (stochastic_state p) = B) by (rewrite <- Hz, length_map; exact Lp).
  destruct (@get_greedy_action_spec B p o t xi zeta La Lh Lz Le)
    as [pa [hn [plg [post [heads [E1 [E2 [E4 [Lheads Eg]]]]]]]]].
  unfold dynamic.
  rewrite (@dynamic_reset_not_first noise mode_of rsample eps transition_model discrete
             unimix stoch Hdiscrete Htransition Hmode B posterior (recurrent_state p)
             (actions p) La Lh Lp HP).
  cbn [bind]. rewrite Hz, E1. cbn [bind]. rewrite E2. cbn [bind].
  destruct (@transition_ok noise mode_of rsample eps transition_model discrete unimix
              stoch Hdiscrete Htransition Hmode hn (Some xi_prior))
    as [qlg [prior [E3 _]]].
  rewrite E3. cbn [bind]. rewrite E4. cbn [bind fst snd].
  eexists _, heads, hn, post, prior, plg, qlg.
  split; [exact Eg|]. split; [reflexivity|]. cbn. auto.
Qed.

(** X15: resetting every environment and then acting is the first step of
    [dynamic]: for any previous states of the right sizes, [dynamic] with
    [is_first = 1] everywhere returns the recurrent state and the posterior
    that the player holds after [init_states()] and one action. *)
Theorem init_states_then_greedy_is_first_step :
  forall (B : nat) (p : PlayerDV3) (o : obs) (t : bool)
         (xi xi_prior : nat -> nat -> noise) (zeta : nat -> actor_noise)
         (posterior : list (list row)) (recurrent_state0 action : list row),
    num_envs p = B -> length (encoder o) = B ->
    length action = B -> length recurrent_state0 = B -> length posterior = B ->
    Forall (fun a => length a = list_sum (actions_dim p)) action ->
    Forall (fun h => length h = recurrent_state_size p) recurrent_state0 ->
    Forall (fun z => length (concat z) = (stoch * discrete)%nat) posterior ->
    exists p0 p' heads hn post prior plg qlg,
      init_states mode_of rsample eps transition_model discrete unimix p None = Ok p0 /\
      greedy p0 o t xi zeta = Ok (p', heads) /\
      dynamic mode_of rsample eps recurrent_model representation_model transition_model
        discrete unimix posterior recurrent_state0 action (encoder o)
        (repeat 1 B) xi_prior xi = Ok (hn, post, prior, plg, qlg) /\
      recurrent_state p' = hn /\ stochastic_state p' = post.
Proof.
  intros B p o t xi xi_prior zeta posterior hs0 action Hn Le La Lh Lp Ha Hh HP.
  destruct (@init_states_all_spec noise mode_of rsample eps transition_model discrete
              unimix stoch Hdiscrete Htransition Hmode p)
    as [p0 [E0 [L0a [L0h [L0z N0]]]]].
  rewrite Hn in L0a, L0h, L0z, N0.
  destruct (@get_greedy_action_spec B p0 o t xi zeta L0a L0h L0z Le)
    as [pa [hn [plg [post [heads [E1 [E2 [E4 [Lheads Eg]]]]]]]]].
  destruct (@dynamic_reset_spec noise mode_of rsample eps transition_model discrete unimix
              stoch Hdiscrete Htransition Hmode B posterior hs0 action
              (repeat 1 B) (repeat_length 1 B) La Lh Lp HP)
    as [a' [h' [z' [E [La' [Lh' [Lz' N]]]]]]].
  assert (Hall : forall i, (i < B)%nat ->
            nth_error a' i = nth_error (actions p0) i /\
            nth_error h' i = nth_error (recurrent_state p0) i /\
            nth_error z' i = nth_error (stochastic_state p0) i).
  { intros i Hi.
    destruct (nth_error action i) as [a|] eqn:Hai; [|apply nth_error_None in Hai; lia].
    destruct (nth_error hs0 i) as [h|] eqn:Hhi; [|apply nth_error_None in Hhi; lia].
    destruct (nth_error posterior i) as [q|] eqn:Hqi; [|apply nth_error_None in Hqi; lia].
    destruct (N i 1 a h q (nth_error_repeat 1 Hi) Hai Hhi Hqi)
      as [hr [lg [st [zr [Na [Eh [Nh [Et [Ez Nz]]]]]]]]].
    rewrite blend_first in Eh by (rewrite !length_map; reflexivity).
    injection Eh as <-.
    rewrite blend_first in Ez
      by (rewrite (@transition_row_length noise mode_of rsample eps transition_model
                     discrete unimix stoch Hdiscrete Htransition Hmode _ _ _ Et);
          rewrite Forall_forall in HP; apply HP; eapply nth_error_In; eauto).
    injection Ez as <-.
    rewrite scale_first in Na.
    destruct (N0 i Hi) as [Q1 [Q2 Q3]].
    assert (Za : map (fun _ : R => 0) a = repeat 0 (list_sum (actions_dim p))).
    { rewrite map_const_repeat. f_equal. rewrite Forall_forall in Ha. apply Ha.
      eapply nth_error_In; eauto. }
    assert (Zh : map (fun _ : R => 0) h = repeat 0 (recurrent_state_size p)).
    { rewrite map_const_repeat. f_equal. rewrite Forall_forall in Hh. apply Hh.
      eapply nth_error_In; eauto. }
    rewrite Za in Na. rewrite Zh in Nh, Et.
    rewrite Na, Nh, Nz, Q1, Q2, Q3. repeat split.
    f_equal. symmetry.
    apply (@prior_mode_spec noise mode_of rsample eps transition_model discrete unimix
             _ _ _ Et). }
  assert (Ea : a' = actions p0).
  { apply list_eq_by_nth; [lia|]. intros i x Hx.
    assert (Hi : (i < B)%nat) by (rewrite <- La'; apply nth_error_Some; congruence).
    destruct (Hall i Hi) as [Q _]. congruence. }
  assert (Eh : h' = recurrent_state p0).
  { apply list_eq_by_nth; [lia|]. intros i x Hx.
    assert (Hi : (i < B)%nat) by (rewrite <- Lh'; apply nth_error_Some; congruence).
    destruct (Hall i Hi) as [_ [Q _]]. congruence. }
  assert (Ez : z' = stochastic_state p0).
  { apply list_eq_by_nth; [lia|]. intros i x Hx.
    assert (Hi : (i < B)%nat) by (rewrite <- Lz'; apply nth_error_Some; congruence).
    destruct (Hall i Hi) as [_ [_ Q]]. congruence. }
  subst a' h' z'.
  unfold dynamic. rewrite E. cbn [bind]. rewrite E1. cbn [bind]. rewrite E2. cbn [bind].
  destruct (@transition_ok noise mode_of rsample eps transition_model discrete unimix
              stoch Hdiscrete Htransition Hmode hn (Some xi_prior))
    as [qlg [prior [E3 _]]].
  rewrite E3. cbn [bind]. rewrite E4. cbn [bind fst snd].
  eexists p0, _, heads, hn, post, prior, plg, qlg.
  split; [exact E0|]. split; [exact Eg|]. split; [reflexivity|]. cbn. auto.
Qed.

End PlayerStep.

Lemma get_greedy_action_is_dynamic_step_witness :
  exists p' heads hn post prior plg qlg,
    get_greedy_action Toy.mode_of Toy.rsample Toy.eps Toy.recurrent_model
      Toy.representation_model Toy.discrete Toy.unimix 1 2
      (fun _ : unit => [[3]]) (fun _ _ (_ : unit) => [[1; 0]])
      (mkPlayer [[7]] [[5]] [[0; 1]] 1 [2%nat] 1) tt true Toy.xi (fun _ => tt)
    = Ok (p', heads) /\
    dynamic Toy.mode_of Toy.rsample Toy.eps Toy.recurrent_model Toy.representation_model
      Toy.transition_model Toy.discrete Toy.unimix
      [[[0; 1]]] [[5]] [[7]] [[3]] (repeat 0 1) Toy.xi Toy.xi
    = Ok (hn, post, prior, plg, qlg) /\
    recurrent_state p' = hn /\ stochastic_state p' = post /\
    actions p' = map (@concat R) heads /\ length heads = 1%nat.
Proof.
  apply (@get_greedy_action_is_dynamic_step unit Toy.mode_of Toy.rsample Toy.eps
           Toy.recurrent_model Toy.representation_model Toy.transition_model
           Toy.discrete Toy.unimix 1%nat 1%nat 2%nat unit (fun _ => [[3]]) unit
           (fun _ _ _ => [[1; 0]])).
  - unfold Toy.discrete. lia.
  - intros h. reflexivity.
  - intros x. reflexivity.
  - intros l. apply toy_mode_length.
  - intros n l. apply toy_mode_length.
  - reflexivity.
  - intros x t z. discriminate.
  - reflexivity.
  - reflexivity.
  - reflexivity.
  - reflexivity.
  - reflexivity.
  - repeat constructor.
Defined.

Lemma init_states_then_greedy_is_first_step_witness :
  exists p0 p' heads hn post prior plg qlg,
    init_states Toy.mode_of Toy.rsample Toy.eps Toy.transition_model Toy.discrete
      Toy.unimix (mkPlayer [[7]] [[5]] [[0; 1]] 1 [2%nat] 1) None = Ok p0 /\
    get_greedy_action Toy.mode_of Toy.rsample Toy.eps Toy.recurrent_model
      Toy.representation_model Toy.discrete Toy.unimix 1 2
      (fun _ : unit => [[3]]) (fun _ _ (_ : unit) => [[1; 0]])
      p0 tt true Toy.xi (fun _ => tt) = Ok (p', heads) /\
    dynamic Toy.mode_of Toy.rsample Toy.eps Toy.recurrent_model Toy.representation_model
      Toy.transition_model Toy.discrete Toy.unimix
      [[[0; 1]]] [[9]] [[4; 6]] [[3]] (repeat 1 1) Toy.xi Toy.xi
    = Ok (hn, post, prior, plg, qlg) /\
    recurrent_state p' = hn /\ stochastic_state p' = post.
Proof.
  apply (@init_states_then_greedy_is_first_step unit Toy.mode_of Toy.rsample Toy.eps
           Toy.recurrent_model Toy.representation_model Toy.transition_model
           Toy.discrete Toy.unimix 1%nat 1%nat 2%nat unit (fun _ => [[3]]) unit
           (fun _ _ _ => [[1; 0]])).
  - unfold Toy.discrete. lia.
  - intros h. reflexivity.
  - intros x. reflexivity.
  - intros l. apply toy_mode_length.
  - intros n l. apply toy_mode_length.
  - reflexivity.
  - intros x t z. discriminate.
  - reflexivity.
  - reflexivity.
  - reflexivity.
  - reflexivity.
  - reflexivity.
  - repeat constructor.
  - repeat constructor.
  - repeat constructor.
Defined.

(** *** Exploration *)

Lemma imap_from_ext {A B : Type} (f g : nat -> A -> B) (l : list A) :
  (forall i x, f i x = g i x) -> forall a, imap_from f a l = imap_from g a l.
Proof.
  intros Hfg. induction l as [|x l IH]; intros a; simpl; auto. rewrite Hfg, IH. reflexivity.
Qed.

Lemma imap_from_id {A : Type} (l : list A) (a : nat) : imap_from (fun _ x => x) a l = l.
Proof. rewrite imap_from_const. apply map_id. Qed.

Lemma mapM_cat_heads_inv (heads : list (list row)) (acts : list row) :
  mapM cat_heads heads = Ok acts ->
  Forall (fun hs => hs <> []) heads /\ acts = map (@concat R) heads.
Proof.
  revert acts. induction heads as [|hs heads IH]; intros acts H; simpl in H.
  - injection H as <-. split; [constructor | reflexivity].
  - destruct hs as [|h hs]; [discriminate|]. cbn [cat_heads bind] in H.
    destruct (mapM cat_heads heads) as [rest|] eqn:E; [|discriminate].
    cbn [bind] in H. injection H as <-.
    destruct (IH rest eq_refl) as [F ->]. split; [|reflexivity].
    constructor; [discriminate | exact F].
Qed.

Lemma clip_unit_bounds (x : R) : -1 <= clip_unit x <= 1.
Proof.
  unfold clip_unit, Rmin, Rmax.
  destruct (Rle_dec x (-1)); destruct (Rle_dec _ 1); lra.
Qed.

Lemma imap_from_Forall_of {A B : Type} (Q : A -> Prop) (P : B -> Prop)
    (f : nat -> A -> B) (l : list A) :
  Forall Q l -> (forall i x, Q x -> P (f i x)) -> forall a, Forall P (imap_from f a l).
Proof.
  intros Hl Hf. induction Hl as [|x l Hx Hl IH]; intros a; simpl; constructor; auto.
Qed.

Section Exploration.

Variable noise : Type.
Variable mode_of : row -> row.
Variable rsample : noise -> row -> row.
Variable eps : R.
Variable recurrent_model : row -> row -> row.
Variable representation_model : row -> row.
Variables (discrete : nat) (unimix : R).
Variables (stochastic_size discrete_size : nat) (expl_amount : R).
Variable obs : Type.
Variable encoder : obs -> list row.
Variable actor_noise : Type.
Variable actor : row -> bool -> actor_noise -> list row.

Local Abbreviation greedy :=
  (get_greedy_action mode_of rsample eps recurrent_model representation_model discrete
     unimix stochastic_size discrete_size encoder actor).
Local Abbreviation explore :=
  (get_exploration_action mode_of rsample eps recurrent_model representation_model discrete
     unimix stochastic_size discrete_size expl_amount encoder actor).

Lemma get_greedy_action_actions (p p' : PlayerDV3) (o : obs) (t : bool)
    (xi : nat -> nat -> noise) (zeta : nat -> actor_noise) (heads : list (list row)) :
  greedy p o t xi zeta = Ok (p', heads) -> mapM cat_heads heads = Ok (actions p').
Proof.
  unfold get_greedy_action.
  destruct (zipM _ (stochastic_state p) (actions p)) as [sa|]; [|discriminate].
  cbn [bind]. destruct (zipM _ sa (recurrent_state p)) as [hn|]; [|discriminate].
  cbn [bind]. destruct (RSSM_representation _ _ _ _ _ _ _ _ _) as [post|]; [|discriminate].
  cbn [bind]. destruct (mapM _ (snd post)) as [st|]; [|discriminate].
  cbn [bind]. destruct (zipM _ st hn) as [sh|]; [|discriminate].
  cbn [bind]. destruct (mapM cat_heads _) as [acts|] eqn:E; [|discriminate].
  cbn [bind]. intros H. injection H as <- <-. exact E.
Qed.

(** X16: exploring on top of the greedy action: the recurrent and stochastic
    states are those of the greedy step; with no exploration amount the
    result is the greedy one, unchanged; with a positive amount continuous
    actions stay in [-1, 1]. *)
Theorem get_exploration_action_cases :
  forall (p p' : PlayerDV3) (o : obs) (is_continuous : bool)
         (xi : nat -> nat -> noise) (zeta : nat -> actor_noise) (en : exploration_noise)
         (heads : list (list row)),
    (forall k, 0 <= rand_draw en k) ->
    greedy p o true xi zeta = Ok (p', heads) ->
    exists p'' out,
      explore p o is_continuous xi zeta en = Ok (p'', out) /\
      recurrent_state p'' = recurrent_state p' /\
      stochastic_state p'' = stochastic_state p' /\
      length (actions p'') = length (actions p') /\
      (expl_amount <= 0 ->
       p'' = p' /\
       out = if is_continuous then map (fun a => [a]) (actions p') else heads) /\
      (0 < expl_amount -> is_continuous = true ->
       Forall (Forall (fun x => -1 <= x <= 1)) (actions p'')).
Proof.
  intros p p' o c xi zeta en heads Hrand Hg.
  pose proof (get_greedy_action_actions _ _ _ _ _ Hg) as Hcat.
  destruct (mapM_cat_heads_inv _ Hcat) as [Hne Hacts].
  unfold get_exploration_action. rewrite Hg. cbn [bind fst snd].
  destruct c.
  - rewrite Hcat. cbn [bind].
    destruct (Rlt_dec 0 expl_amount) as [Hpos|Hnpos].
    + eexists _, _. split; [reflexivity|]. cbn [actions recurrent_state stochastic_state].
      split; [reflexivity|]. split; [reflexivity|].
      split; [apply imap_from_length|].
      split; [intros; lra|]. intros _ _.
      apply imap_from_Forall. intros i a. apply imap_from_Forall. intros j m.
      apply clip_unit_bounds.
    + eexists _, _. split; [reflexivity|]. cbn [actions recurrent_state stochastic_state].
      split; [reflexivity|]. split; [reflexivity|]. split; [reflexivity|].
      split; [|intros; lra]. intros _. split; [destruct p'; reflexivity | reflexivity].
  - set (expl := imap_from _ 0 heads).
    assert (Hne' : Forall (fun hs => hs <> []) expl).
    { unfold expl. apply (@imap_from_Forall_of _ _ (fun hs => hs <> []) _ _ _ Hne).
      intros i hs Hhs. destruct hs; [congruence | discriminate]. }
    rewrite (mapM_cat_heads Hne'). cbn [bind].
    eexists _, _. split; [reflexivity|]. cbn [actions recurrent_state stochastic_state].
    split; [reflexivity|]. split; [reflexivity|].
    split; [rewrite Hacts, !length_map; unfold expl; apply imap_from_length|].
    split; [|intros _ H; discriminate].
    intros Hexpl.
    assert (Eid : expl = heads).
    { unfold expl.
      rewrite (imap_from_ext _ (fun _ hs => hs)); [apply imap_from_id|].
      intros i hs. rewrite (imap_from_ext _ (fun _ act => act)); [apply imap_from_id|].
      intros k act. destruct (Rlt_dec (rand_draw en k) expl_amount) as [H|H]; [|reflexivity].
      pose proof (Hrand k). lra. }
    rewrite Eid, <- Hacts. split; [destruct p'; reflexivity | reflexivity].
Qed.

End Exploration.

Lemma toy_greedy :
  get_greedy_action Toy.mode_of Toy.rsample Toy.eps Toy.recurrent_model
    Toy.representation_model Toy.discrete Toy.unimix 1 2
    (fun _ : unit => [[3]]) (fun _ _ (_ : unit) => [[1; 0]])
    (mkPlayer [[7]] [[5]] [[0; 1]] 1 [2%nat] 1) tt true Toy.xi (fun _ => tt)
  = Ok (mkPlayer [[1; 0]] [[1 / 2]] [[0; 1]] 1 [2%nat] 1, [[[1; 0]]]).
Proof.
  unfold get_greedy_action, RSSM_representation.
  cbn [actions recurrent_state stochastic_state num_envs actions_dim recurrent_state_size].
  toy_eval. cbn. reflexivity.
Qed.

Lemma get_exploration_action_cases_witness :
  exists p'' out,
    get_exploration_action Toy.mode_of Toy.rsample Toy.eps Toy.recurrent_model
      Toy.representation_model Toy.discrete Toy.unimix 1 2 0
      (fun _ : unit => [[3]]) (fun _ _ (_ : unit) => [[1; 0]])
      (mkPlayer [[7]] [[5]] [[0; 1]] 1 [2%nat] 1) tt false Toy.xi (fun _ => tt)
      (mkExploration (fun _ _ => 0) (fun _ _ a => a) (fun _ => 1 / 2))
    = Ok (p'', out) /\
    recurrent_state p'' = [[1 / 2]] /\
    stochastic_state p'' = [[0; 1]] /\
    length (actions p'') = 1%nat /\
    (0 <= 0 ->
     p'' = mkPlayer [[1; 0]] [[1 / 2]] [[0; 1]] 1 [2%nat] 1 /\ out = [[[1; 0]]]) /\
    (0 < 0 -> false = true -> Forall (Forall (fun x => -1 <= x <= 1)) (actions p'')).
Proof.
  apply (@get_exploration_action_cases unit Toy.mode_of Toy.rsample Toy.eps
           Toy.recurrent_model Toy.representation_model Toy.discrete Toy.unimix 1 2 0
           unit (fun _ => [[3]]) unit (fun _ _ _ => [[1; 0]])
           (mkPlayer [[7]] [[5]] [[0; 1]] 1 [2%nat] 1)
           (mkPlayer [[1; 0]] [[1 / 2]] [[0; 1]] 1 [2%nat] 1)
           tt false Toy.xi (fun _ => tt)
           (mkExploration (fun _ _ => 0) (fun _ _ a => a) (fun _ => 1 / 2)) [[[1; 0]]]).
  - intros k. cbn. lra.
  - exact toy_greedy.
Defined.

End DreamerV3MoreFacts.

(** ** Truncated normal, mean-squared-error distribution, actor parameters *)

Module DistributionFacts.

Import TruncatedNormal.
Local Open Scope R_scope.

Lemma div_le_pos (x y s : R) : 0 < s -> (x / s <= y / s <-> x <= y).
Proof.
  intros Hs. pose proof (Rinv_0_lt_compat s Hs) as Hi. unfold Rdiv. split; intros H.
  - apply (Rmult_le_reg_r (/ s)); assumption.
  - apply Rmult_le_compat_r; lra.
Qed.

Lemma div_le_neg (x y s : R) : s < 0 -> (x / s <= y / s <-> y <= x).
Proof.
  intros Hs.
  assert (Hi : 0 < / - s) by (apply Rinv_0_lt_compat; lra).
  assert (E : forall z, z / s = - z * / - s) by (intros z; field; lra).
  rewrite !E. split; intros H.
  - apply Ropp_le_cancel. apply (Rmult_le_reg_r (/ - s)); assumption.
  - apply Rmult_le_compat_r; lra.
Qed.

(** X17: for a scale other than zero the constructor either accepts or raises
    [ValueError]; with a positive scale it accepts exactly the ranges
    [a < b], with a negative scale exactly the reversed ranges [b < a]. *)
Theorem init_accepts_iff :
  forall (erf : R -> R) (eps loc scale a b : R) (validate_args : bool),
    scale <> 0 ->
    let accepted := exists d, init erf eps loc scale a b validate_args = Ok d in
    (0 < scale -> (accepted <-> a < b)) /\
    (scale < 0 -> (accepted <-> b < a)) /\
    (~ accepted <-> init erf eps loc scale a b validate_args = Raise ValueError).
Proof.
  intros erf eps loc scale a b v Hs accepted. subst accepted.
  unfold init, standard_init.
  destruct (Rle_dec ((b - loc) / scale) ((a - loc) / scale)) as [Hle|Hnle]; cbn [bind].
  - split; [|split].
    + intros Hp. apply div_le_pos in Hle; [|exact Hp].
      split; [intros [d Hd]; discriminate | intros; lra].
    + intros Hn. apply div_le_neg in Hle; [|exact Hn].
      split; [intros [d Hd]; discriminate | intros; lra].
    + split; [reflexivity | intros _ [d Hd]; discriminate].
  - split; [|split].
    + intros Hp. split; [intros _ | intros _; eauto].
      destruct (Rlt_le_dec a b) as [H|H]; [exact H|].
      exfalso. apply Hnle. apply div_le_pos; [exact Hp | lra].
    + intros Hn. split; [intros _ | intros _; eauto].
      destruct (Rlt_le_dec b a) as [H|H]; [exact H|].
      exfalso. apply Hnle. apply div_le_neg; [exact Hn | lra].
    + split; [intros H; exfalso; apply H; eauto | intros H; discriminate].
Qed.

Lemma init_accepts_iff_witness :
  (0 < -2 ->
   ((exists d, init (fun x => x) (1 / 1000) 0 (-2) 1 (-1) true = Ok d) <-> 1 < -1)) /\
  (-2 < 0 ->
   ((exists d, init (fun x => x) (1 / 1000) 0 (-2) 1 (-1) true = Ok d) <-> -1 < 1)) /\
  (~ (exists d, init (fun x => x) (1 / 1000) 0 (-2) 1 (-1) true = Ok d)
   <-> init (fun x => x) (1 / 1000) 0 (-2) 1 (-1) true = Raise ValueError).
Proof.
  apply (@init_accepts_iff (fun x => x) (1 / 1000) 0 (-2) 1 (-1) true).
  lra.
Defined.

Lemma sqrt2_pos : 0 < sqrt 2.
Proof. apply sqrt_lt_R0. lra. Qed.

Lemma inv_big_phi_big_phi (erf erfinv : R -> R) (x : R) :
  (forall y, erfinv (erf y) = y) -> _inv_big_phi erfinv (_big_phi erf x) = x.
Proof.
  intros Hinv. unfold _inv_big_phi, _big_phi, CONST_SQRT_2, CONST_INV_SQRT_2.
  replace (2 * (1 / 2 * (1 + erf (x * (1 / sqrt 2)))) - 1) with (erf (x * (1 / sqrt 2)))
    by field.
  rewrite Hinv. pose proof sqrt2_pos. field. lra.
Qed.

Lemma big_phi_mono (erf : R -> R) (x y : R) :
  (forall u v, u <= v -> erf u <= erf v) -> x <= y -> _big_phi erf x <= _big_phi erf y.
Proof.
  intros Hm Hxy. unfold _big_phi, CONST_INV_SQRT_2.
  assert (0 < 1 / sqrt 2) by (apply Rdiv_lt_0_compat; [lra | apply sqrt2_pos]).
  assert (x * (1 / sqrt 2) <= y * (1 / sqrt 2)) by (apply Rmult_le_compat_r; lra).
  pose proof (Hm _ _ H0). lra.
Qed.

(** X18: inside the truncation range, and as long as the mass of the range is not
    below [eps], the quantile function undoes the distribution function. *)
Theorem icdf_cdf_round_trip :
  forall (erf erfinv : R -> R) (eps loc scale a b v : R) (validate_args : bool),
    (forall y, erfinv (erf y) = y) ->
    (forall x y, x <= y -> erf x <= erf y) ->
    0 < scale -> a < b -> a <= v <= b -> 0 < eps ->
    eps <= _big_phi erf ((b - loc) / scale) - _big_phi erf ((a - loc) / scale) ->
    exists d c,
      init erf eps loc scale a b validate_args = Ok d /\
      cdf erf d v = Ok c /\ 0 <= c <= 1 /\ icdf erfinv d c = v.
Proof.
  intros erf erfinv eps mu sigma lo hi v va Hinv Hmono Hs Hab Hv Heps HZ.
  unfold init, standard_init.
  destruct (Rle_dec ((hi - mu) / sigma) ((lo - mu) / sigma)) as [Hle|Hnle].
  { apply div_le_pos in Hle; [lra | exact Hs]. }
  cbn [bind]. eexists _, _. split; [reflexivity|].
  set (a' := (lo - mu) / sigma) in *. set (b' := (hi - mu) / sigma) in *.
  set (v' := (v - mu) / sigma).
  assert (Hav : a' <= v') by (apply div_le_pos; [exact Hs | lra]).
  assert (Hvb : v' <= b') by (apply div_le_pos; [exact Hs | lra]).
  pose proof (big_phi_mono erf Hmono Hav) as P1.
  pose proof (big_phi_mono erf Hmono Hvb) as P2.
  assert (EZ : Rmax (_big_phi erf b' - _big_phi erf a') eps
               = _big_phi erf b' - _big_phi erf a') by (apply Rmax_left; exact HZ).
  set (Z := _big_phi erf b' - _big_phi erf a') in *.
  assert (HZpos : 0 < Z) by lra.
  set (q := (_big_phi erf v' - _big_phi erf a') / Z).
  assert (Hq0 : 0 <= q).
  { unfold q. apply Rmult_le_pos; [lra | left; apply Rinv_0_lt_compat; exact HZpos]. }
  assert (Hq1 : q <= 1).
  { unfold q. apply (Rmult_le_reg_r Z); [exact HZpos|].
    replace ((_big_phi erf v' - _big_phi erf a') / Z * Z)
      with (_big_phi erf v' - _big_phi erf a') by (field; lra).
    unfold Z. lra. }
  unfold cdf, standard_cdf, _validate_sample, _to_std_rv.
  cbn [standard loc scale a b _validate_args _big_phi_a _Z].
  fold v'. rewrite EZ. fold q.
  assert (Ecl : Rmin (Rmax q 0) 1 = q).
  { rewrite Rmax_left by exact Hq0. apply Rmin_left. exact Hq1. }
  split.
  - destruct va; [|cbn [bind]; rewrite Ecl; reflexivity].
    destruct (Rle_dec a' v') as [_|H]; [|contradiction].
    destruct (Rle_dec v' b') as [_|H]; [|contradiction].
    cbn [bind]. rewrite Ecl. reflexivity.
  - split; [split; assumption|].
    unfold icdf, standard_icdf, _from_std_rv.
    cbn [standard loc scale _big_phi_a _Z].
    change (_inv_big_phi erfinv (_big_phi erf a' + q * Z) * sigma + mu = v).
    replace (_big_phi erf a' + q * Z) with (_big_phi erf v') by (unfold q; field; lra).
    rewrite (inv_big_phi_big_phi erf erfinv v' Hinv). unfold v'. field. lra.
Qed.

Lemma icdf_cdf_round_trip_witness :
  exists d c,
    init (fun x => x) (1 / 1000) 0 1 (-1) 1 true = Ok d /\
    cdf (fun x => x) d (1 / 2) = Ok c /\ 0 <= c <= 1 /\ icdf (fun x => x) d c = 1 / 2.
Proof.
  apply (@icdf_cdf_round_trip (fun x => x) (fun x => x) (1 / 1000) 0 1 (-1) 1 (1 / 2) true).
  - reflexivity.
  - intros x y H. exact H.
  - lra.
  - lra.
  - lra.
  - lra.
  - unfold _big_phi, CONST_INV_SQRT_2.
    pose proof sqrt2_pos as Hp. pose proof (sqrt_sqrt 2 ltac:(lra)) as Hq.
    assert (Hle : sqrt 2 <= 2) by nra.
    assert (Hinv : / 2 <= / sqrt 2) by (apply Rinv_le_contravar; lra).
    unfold Rdiv. lra.
Defined.

(** X19: A range that is symmetric around [loc] has mean [loc]. *)
Theorem mean_of_symmetric_range :
  forall (erf : R -> R) (eps loc scale w : R) (validate_args : bool),
    0 < scale -> 0 < w -> 0 < eps ->
    exists d,
      init erf eps loc scale (loc - w) (loc + w) validate_args = Ok d /\ mean d = loc.
Proof.
  intros erf eps loc scale w va Hs Hw Heps.
  unfold init, standard_init.
  destruct (Rle_dec ((loc + w - loc) / scale) ((loc - w - loc) / scale)) as [Hle|Hnle].
  { apply div_le_pos in Hle; [lra | exact Hs]. }
  cbn [bind]. eexists. split; [reflexivity|]. cbn [mean _mean].
  set (Z := Rmax _ eps).
  assert (HZ : 0 < Z) by (unfold Z; pose proof (Rmax_r (_big_phi erf ((loc + w - loc) / scale)
                             - _big_phi erf ((loc - w - loc) / scale)) eps); lra).
  assert (E : _little_phi ((loc + w - loc) / scale) = _little_phi ((loc - w - loc) / scale)).
  { unfold _little_phi. f_equal. f_equal. field. lra. }
  rewrite E. field. lra.
Qed.

Lemma mean_of_symmetric_range_witness :
  exists d, init (fun x => x) (1 / 1000) 3 2 (3 - 1) (3 + 1) true = Ok d /\ mean d = 3.
Proof.
  apply (@mean_of_symmetric_range (fun x => x) (1 / 1000) 3 2 1 true); lra.
Defined.

(** *** MSEDistribution *)

Import MSEDistribution.

Lemma rsum_squares (m v : row) :
  length m = length v ->
  0 <= rsum (zipw (fun x y => (x - y) ^ 2) m v) /\
  (rsum (zipw (fun x y => (x - y) ^ 2) m v) = 0 <-> m = v).
Proof.
  revert v. induction m as [|x m IH]; intros [|y v] Hl; simpl in *; try discriminate.
  - split; [lra | split; auto].
  - destruct (IH v ltac:(lia)) as [H0 Hiff].
    assert (Hsq : 0 <= (x - y) * ((x - y) * 1))
      by (rewrite Rmult_1_r; apply Rle_0_sqr).
    split; [lra|]. split.
    + intros H. assert (E1 : (x - y) * ((x - y) * 1) = 0) by lra.
      f_equal; [|apply Hiff; lra].
      rewrite Rmult_1_r in E1. apply Rmult_integral in E1. lra.
    + intros H. injection H as -> ->.
      assert (E2 : rsum (zipw (fun x y => (x - y) * ((x - y) * 1)) v v) = 0)
        by (apply Hiff; reflexivity).
      rewrite E2. ring.
Qed.

Lemma zipw_squares_sym (m v : row) :
  zipw (fun x y => (x - y) ^ 2) m v = zipw (fun x y => (x - y) ^ 2) v m.
Proof.
  revert v. induction m as [|x m IH]; intros [|y v]; simpl; auto.
  f_equal; [ring | apply IH].
Qed.

(** X20: for a value of the shape of the mode the log-probability is defined,
    never positive, zero exactly at the mode, and the same with mode and
    value exchanged. *)
Theorem mse_log_prob_peak_at_mode :
  forall (mode value : row) (agg : aggregation),
    length mode = length value ->
    agg = agg_sum \/ (agg = agg_mean /\ mode <> []) ->
    exists lp,
      log_prob mode agg value = Returns lp /\ lp <= 0 /\
      (lp = 0 <-> value = mode) /\
      log_prob value agg mode = Returns lp.
Proof.
  intros mode value agg Hl Hagg. unfold log_prob.
  replace (length value =? length mode)%nat with true
    by (symmetry; apply Nat.eqb_eq; auto).
  replace (length mode =? length value)%nat with true
    by (symmetry; apply Nat.eqb_eq; auto).
  cbn [negb].
  rewrite (zipw_squares_sym value mode).
  destruct (rsum_squares mode value Hl) as [H0 Hiff].
  set (S := rsum (zipw (fun m v => (m - v) ^ 2) mode value)) in *.
  destruct Hagg as [->|[-> Hne]].
  - exists (- S). split; [reflexivity|]. split; [lra|]. split; [|reflexivity].
    split; intros H.
    + symmetry. apply Hiff. lra.
    + assert (S = 0) by (apply Hiff; auto). lra.
  - set (n := INR (length (zipw (fun m v => (m - v) ^ 2) mode value))).
    assert (Hn : 0 < n).
    { unfold n. rewrite zipw_length by exact Hl. apply lt_0_INR.
      destruct mode; [congruence | simpl; lia]. }
    exists (- (S / n)). split; [reflexivity|].
    assert (Hdiv : 0 <= S / n) by (apply Rmult_le_pos; [exact H0 | left; apply Rinv_0_lt_compat; exact Hn]).
    split; [lra|]. split; [|reflexivity].
    split; intros H.
    + symmetry. apply Hiff.
      assert (E : S / n = 0) by lra.
      replace S with (S / n * n) by (field; lra). rewrite E. ring.
    + assert (E : S = 0) by (apply Hiff; auto). rewrite E. unfold Rdiv. ring.
Qed.

Lemma mse_log_prob_peak_at_mode_witness :
  exists lp,
    log_prob [1; 2] agg_mean [1; 4] = Returns lp /\ lp <= 0 /\
    (lp = 0 <-> [1; 4] = [1; 2]) /\
    log_prob [1; 4] agg_mean [1; 2] = Returns lp.
Proof.
  apply (@mse_log_prob_peak_at_mode [1; 2] [1; 4] agg_mean).
  - reflexivity.
  - right. split; [reflexivity | discriminate].
Defined.

End DistributionFacts.

(** ** The parameters of the continuous action distributions *)

Module ActorForwardFacts.

Import TruncatedNormal ActorForward.
Import String.
Local Open Scope R_scope.

Lemma softplus_pos (x : R) : 0 < softplus x.
Proof.
  unfold softplus. destruct (Rlt_dec 20 x) as [H|H]; [lra|].
  pose proof (exp_pos x). rewrite <- ln_1. apply ln_increasing; lra.
Qed.

Lemma sigmoid_bounds (x : R) : 0 < sigmoid x < 1.
Proof.
  unfold sigmoid. pose proof (exp_pos (- x)) as He.
  assert (Hp : 0 < 1 + exp (- x)) by lra.
  split.
  - apply Rdiv_lt_0_compat; lra.
  - apply (Rmult_lt_reg_r (1 + exp (- x))); [exact Hp|].
    replace (1 / (1 + exp (- x)) * (1 + exp (- x))) with 1 by (field; lra). lra.
Qed.

Lemma tanh_range (x : R) : -1 < tanh x < 1.
Proof.
  unfold tanh, sinh, cosh.
  pose proof (exp_pos x) as Ha. pose proof (exp_pos (- x)) as Hb.
  set (a := exp x) in *. set (b := exp (- x)) in *.
  assert (Hp : 0 < a + b) by lra.
  assert (E1 : (a - b) / 2 / ((a + b) / 2) = 1 - 2 * b / (a + b)) by (field; lra).
  assert (E2 : (a - b) / 2 / ((a + b) / 2) = -1 + 2 * a / (a + b)) by (field; lra).
  assert (0 < 2 * b / (a + b)) by (apply Rdiv_lt_0_compat; lra).
  assert (0 < 2 * a / (a + b)) by (apply Rdiv_lt_0_compat; lra).
  split; [rewrite E2 | rewrite E1]; lra.
Qed.

(** X21: every distribution name that the constructor stores for a continuous
    actor is covered by a branch of [forward]; [tanh_normal] keeps the
    location inside (-5, 5) and the scale above [min_std], [trunc_normal]
    keeps the location inside (-1, 1) and the scale between [min_std] and
    [2 + min_std], [normal] passes both through unchanged. *)
Theorem continuous_params_ranges :
  forall (distribution name : String.string) (init_std min_std mean std : R),
    DreamerV3.Actor_init distribution true = Ok name ->
    exists m s,
      continuous_params name init_std min_std mean std = Some (m, s) /\
      (name = "tanh_normal"%string \/ name = "normal"%string \/ name = "trunc_normal"%string) /\
      (name = "tanh_normal"%string -> -5 < m < 5 /\ min_std < s) /\
      (name = "trunc_normal"%string -> -1 < m < 1 /\ min_std < s < 2 + min_std) /\
      (name = "normal"%string -> m = mean /\ s = std).
Proof.
  intros distribution name init_std min_std mean std Hinit.
  assert (Hname : name = "tanh_normal"%string \/ name = "normal"%string
                  \/ name = "trunc_normal"%string).
  { unfold DreamerV3.Actor_init in Hinit.
    destruct (DreamerV3.mem (DreamerV3.lower distribution) DreamerV3.distributions) eqn:Hmem;
      cbn [negb] in Hinit; [|discriminate].
    apply ActorInitFacts.mem_In in Hmem. unfold DreamerV3.distributions in Hmem.
    cbn [In] in Hmem.
    destruct Hmem as [E|[E|[E|[E|[E|F]]]]]; [| | | | |contradiction];
      rewrite <- E in Hinit; cbn in Hinit;
      try discriminate; injection Hinit as <-; auto. }
  destruct Hname as [-> | [-> | ->]]; cbn [continuous_params String.eqb Ascii.eqb Bool.eqb];
    eexists _, _; (split; [reflexivity|]); (split; [auto|]);
    (split; [|split]); intros H; try discriminate H.
  - pose proof (tanh_range (mean / 5)). pose proof (softplus_pos (std + init_std)). lra.
  - auto.
  - pose proof (tanh_range mean). pose proof (sigmoid_bounds ((std + init_std) / 2)). lra.
Qed.

Lemma continuous_params_ranges_witness :
  exists m s,
    continuous_params "trunc_normal"%string 0 (1 / 10) 3 4 = Some (m, s) /\
    ("trunc_normal"%string = "tanh_normal"%string \/ "trunc_normal"%string = "normal"%string
     \/ "trunc_normal"%string = "trunc_normal"%string) /\
    ("trunc_normal"%string = "tanh_normal"%string -> -5 < m < 5 /\ 1 / 10 < s) /\
    ("trunc_normal"%string = "trunc_normal"%string ->
     -1 < m < 1 /\ 1 / 10 < s < 2 + 1 / 10) /\
    ("trunc_normal"%string = "normal"%string -> m = 3 /\ s = 4).
Proof.
  apply (@continuous_params_ranges "AUTO"%string "trunc_normal"%string 0 (1 / 10) 3 4).
  reflexivity.
Defined.

(** X22: with a non-negative [min_std] the truncated normal of the
    [trunc_normal] branch is always accepted by its constructor, with a
    location inside (-1, 1), a positive scale and standardised bounds on
    either side of zero. *)
Theorem trunc_normal_dist_accepted :
  forall (erf : R -> R) (eps init_std min_std mean std : R) (validate_args : bool),
    0 <= min_std ->
    exists d,
      trunc_normal_dist erf eps init_std min_std mean std validate_args = Ok d /\
      -1 < loc d < 1 /\ min_std < scale d < 2 + min_std /\
      a (standard d) < 0 < b (standard d).
Proof.
  intros erf eps init_std min_std mean std va Hmin.
  pose proof (tanh_range mean) as [Ht1 Ht2].
  pose proof (sigmoid_bounds ((std + init_std) / 2)) as [Hs1 Hs2].
  set (s := 2 * sigmoid ((std + init_std) / 2) + min_std).
  assert (Hs : 0 < s) by (unfold s; lra).
  assert (Ha : (-1 - tanh mean) / s < 0).
  { unfold Rdiv. pose proof (Rinv_0_lt_compat s Hs). nra. }
  assert (Hb : 0 < (1 - tanh mean) / s) by (apply Rdiv_lt_0_compat; lra).
  unfold trunc_normal_dist, init, standard_init. fold s.
  destruct (Rle_dec ((1 - tanh mean) / s) ((-1 - tanh mean) / s)) as [Hle|_]; [lra|].
  cbn [bind]. eexists. split; [reflexivity|].
  cbn [loc scale standard a b]. unfold s in *. repeat split; lra.
Qed.

Lemma trunc_normal_dist_accepted_witness :
  exists d,
    trunc_normal_dist (fun x => x) (1 / 1000) 0 (1 / 10) 3 4 true = Ok d /\
    -1 < loc d < 1 /\ 1 / 10 < scale d < 2 + 1 / 10 /\
    a (standard d) < 0 < b (standard d).
Proof.
  apply (@trunc_normal_dist_accepted (fun x => x) (1 / 1000) 0 (1 / 10) 3 4 true).
  lra.
Defined.

(** X30: whatever the constructor accepts, the name it stores is one of the four
    concrete distributions, never "auto", and "discrete" only for a
    discrete actor; "auto" is resolved by [is_continuous], any other name is
    stored lower-cased; constructing again from the stored name changes
    nothing. *)
Theorem Actor_init_stored_name :
  forall (distribution name : string) (is_continuous : bool),
    DreamerV3.Actor_init distribution is_continuous = Ok name ->
    In name ["normal"; "tanh_normal"; "discrete"; "trunc_normal"]%string /\
    (is_continuous = true -> name <> "discrete"%string) /\
    (DreamerV3.lower distribution = "auto"%string ->
     name = if is_continuous then "trunc_normal"%string else "discrete"%string) /\
    (DreamerV3.lower distribution <> "auto"%string -> name = DreamerV3.lower distribution) /\
    DreamerV3.Actor_init name is_continuous = Ok name.
Proof.
  intros distribution name c Hinit. unfold DreamerV3.Actor_init in Hinit.
  destruct (DreamerV3.mem (DreamerV3.lower distribution) DreamerV3.distributions) eqn:Hmem;
    cbn [negb] in Hinit; [|discriminate].
  apply ActorInitFacts.mem_In in Hmem. unfold DreamerV3.distributions in Hmem.
  cbn [In] in Hmem.
  destruct Hmem as [E|[E|[E|[E|[E|F]]]]]; [| | | | |contradiction];
    rewrite <- E in *; destruct c; cbn in Hinit; try discriminate;
    injection Hinit as <-; cbn [In];
    (split; [tauto|]); (split; [intros H; try discriminate H; intros H'; discriminate H'|]);
    (split; [intros H; try discriminate H; reflexivity|]);
    (split; [intros H; try reflexivity; exfalso; apply H; reflexivity | reflexivity]).
Qed.

Lemma Actor_init_stored_name_witness :
  In "trunc_normal"%string ["normal"; "tanh_normal"; "discrete"; "trunc_normal"]%string /\
  (true = true -> "trunc_normal"%string <> "discrete"%string) /\
  (DreamerV3.lower "Auto" = "auto"%string ->
   "trunc_normal"%string = if true then "trunc_normal"%string else "discrete"%string) /\
  (DreamerV3.lower "Auto" <> "auto"%string -> "trunc_normal"%string = DreamerV3.lower "Auto") /\
  DreamerV3.Actor_init "trunc_normal" true = Ok "trunc_normal"%string.
Proof.
  apply (@Actor_init_stored_name "Auto"%string "trunc_normal"%string true).
  reflexivity.
Defined.

End ActorForwardFacts.

(** ** Success of an obtain episode *)

Module ObtainFacts.

Import Obtain.
Local Open Scope Z_scope.

Lemma existsb_eqb_In (r : Z) (l : list Z) : existsb (Z.eqb r) l = true <-> In r l.
Proof.
  rewrite existsb_exists. split.
  - intros [x [Hin Heq]]. apply Z.eqb_eq in Heq. subst. exact Hin.
  - intros Hin. exists r. split; [exact Hin | apply Z.eqb_refl].
Qed.

Lemma intersection_In (rewards values : list Z) (r : Z) :
  In r (intersection rewards values) <-> In r rewards /\ In r values.
Proof.
  unfold intersection. rewrite filter_In, nodup_In, existsb_eqb_In. reflexivity.
Qed.

Lemma intersection_NoDup (rewards values : list Z) : NoDup (intersection rewards values).
Proof. unfold intersection. apply NoDup_filter. apply NoDup_nodup. Qed.

Lemma intersection_bound (rewards values : list Z) :
  (length (intersection rewards values) <= length (nodup Z.eq_dec values))%nat.
Proof.
  apply NoDup_incl_length; [apply intersection_NoDup|].
  intros r Hr. apply nodup_In. apply intersection_In in Hr. tauto.
Qed.

(** X23: when the schedule repeats reward values so often that its distinct
    values are fewer than its entries minus the allowed misses, no list of
    rewards counts as a success. *)
Theorem determine_success_unreachable :
  forall (reward_schedule : list schedule_entry) (rewards : list Z),
    (length (nodup Z.eq_dec (map reward reward_schedule))
     < length reward_schedule - round_tenth (length reward_schedule))%nat ->
    determine_success_from_rewards reward_schedule rewards = false.
Proof.
  intros sch rewards H. unfold determine_success_from_rewards.
  apply Z.leb_gt. pose proof (intersection_bound rewards (map reward sch)) as Hb.
  rewrite length_map. lia.
Qed.

Lemma determine_success_unreachable_witness :
  determine_success_from_rewards diamond_schedule
    [1; 2; 4; 8; 16; 32; 64; 128; 256; 1024] = false.
Proof.
  apply (@determine_success_unreachable diamond_schedule
           [1; 2; 4; 8; 16; 32; 64; 128; 256; 1024]).
  vm_compute. lia.
Defined.

(** X24: with the two schedules of the source, which both give the reward 4 and
    the reward 32 twice, no list of rewards is ever a success. *)
Theorem builtin_schedules_never_succeed :
  forall rewards : list Z,
    determine_success_from_rewards diamond_schedule rewards = false /\
    determine_success_from_rewards iron_pickaxe_schedule rewards = false.
Proof.
  intros rewards. unfold determine_success_from_rewards.
  pose proof (intersection_bound rewards (map reward diamond_schedule)) as Hd.
  pose proof (intersection_bound rewards (map reward iron_pickaxe_schedule)) as Hi.
  change (length (nodup Z.eq_dec (map reward diamond_schedule))) with 10%nat in Hd.
  change (length (nodup Z.eq_dec (map reward iron_pickaxe_schedule))) with 9%nat in Hi.
  change (length (map reward diamond_schedule)) with 12%nat.
  change (length (map reward iron_pickaxe_schedule)) with 11%nat.
  change (round_tenth (length diamond_schedule)) with 1%nat.
  change (round_tenth (length iron_pickaxe_schedule)) with 1%nat.
  split; apply Z.leb_gt; lia.
Qed.

Lemma same_set_same_length (l l' : list Z) :
  NoDup l -> NoDup l' -> (forall r, In r l <-> In r l') -> length l = length l'.
Proof.
  intros N N' H. apply Nat.le_antisymm; apply NoDup_incl_length; auto;
    intros r Hr; apply H; exact Hr.
Qed.

(** X25: only the set of obtained rewards matters: two reward lists with the
    same members, in any order and with any repetitions, are judged alike. *)
Theorem determine_success_set_only :
  forall (reward_schedule : list schedule_entry) (rewards rewards' : list Z),
    (forall r, In r rewards <-> In r rewards') ->
    determine_success_from_rewards reward_schedule rewards
    = determine_success_from_rewards reward_schedule rewards'.
Proof.
  intros sch rewards rewards' H. unfold determine_success_from_rewards.
  f_equal. f_equal.
  apply same_set_same_length; try apply intersection_NoDup.
  intros r. rewrite !intersection_In, H. reflexivity.
Qed.

Lemma determine_success_set_only_witness :
  determine_success_from_rewards (firstn 2 diamond_schedule) [2; 1; 2; 2]
  = determine_success_from_rewards (firstn 2 diamond_schedule) [1; 2].
Proof.
  apply (@determine_success_set_only (firstn 2 diamond_schedule)
           [2; 1; 2; 2] [1; 2]).
  intros r. cbn [In]. tauto.
Defined.

(** X26: for a schedule whose reward values are all different, an episode is a
    success exactly when the scheduled rewards that were never obtained are
    at most [round(0.1 * len(schedule))]. *)
Theorem determine_success_distinct_values :
  forall (reward_schedule : list schedule_entry) (rewards : list Z),
    NoDup (map reward reward_schedule) ->
    (determine_success_from_rewards reward_schedule rewards = true <->
     (length (filter (fun v => negb (existsb (Z.eqb v) rewards)) (map reward reward_schedule))
      <= round_tenth (length reward_schedule))%nat).
Proof.
  intros sch rewards Hnd. unfold determine_success_from_rewards.
  set (values := map reward sch) in *.
  assert (E : length (intersection rewards values)
              = length (filter (fun v => existsb (Z.eqb v) rewards) values)).
  { apply same_set_same_length.
    - apply intersection_NoDup.
    - apply NoDup_filter. exact Hnd.
    - intros r. rewrite intersection_In, filter_In, existsb_eqb_In. tauto. }
  pose proof (filter_length (fun v => existsb (Z.eqb v) rewards) values) as Hsplit.
  assert (Lv : length values = length sch) by apply length_map.
  rewrite E, Z.leb_le. lia.
Qed.

Lemma determine_success_distinct_values_witness :
  determine_success_from_rewards (firstn 2 diamond_schedule) [1; 2; 7] = true
  <-> (length (filter (fun v => negb (existsb (Z.eqb v) [1; 2; 7]%Z))
                 (map reward (firstn 2 diamond_schedule)))
       <= round_tenth (length (firstn 2 diamond_schedule)))%nat.
Proof.
  apply (@determine_success_distinct_values (firstn 2 diamond_schedule)
           [1; 2; 7]).
  cbn [firstn diamond_schedule map reward].
  repeat constructor; cbn [In]; intros H; repeat destruct H as [H|H];
    try discriminate H; try contradiction.
Defined.

End ObtainFacts.

(** ** Resetting every environment by index *)

Module PlayerResetFacts.

Import DreamerV3 UnimixFacts RSSMFacts PlayerFacts DreamerV3MoreFacts.
Local Open Scope R_scope.

Lemma assign_rows_length (l : list Z) :
  forall (vals t t' : list row), assign_rows t l vals = Ok t' -> length t' = length t.
Proof.
  induction l as [|i l IH]; intros [|v vals] t t' H; cbn [assign_rows] in H;
    try discriminate.
  - injection H as <-. reflexivity.
  - destruct (py_index (length t) i) as [j|]; [|discriminate]. cbn [bind] in H.
    destruct (index t j) as [old|]; [|discriminate]. cbn [bind] in H.
    destruct (length v =? length old)%nat; [|discriminate].
    rewrite (IH _ _ _ H). apply replace_nth_length.
Qed.

Section PlayerNetworks.

Variable noise : Type.
Variable mode_of : row -> row.
Variable rsample : noise -> row -> row.
Variable eps : R.
Variable transition_model : row -> row.
Variables (discrete : nat) (unimix : R) (stoch : nat).

Hypothesis Hdiscrete : (0 < discrete)%nat.
Hypothesis Htransition : forall h, length (transition_model h) = (stoch * discrete)%nat.
Hypothesis Hmode : forall l, length (mode_of l) = length l.

Local Abbreviation init :=
  (init_states mode_of rsample eps transition_model discrete unimix).

Lemma init_states_some_frame (p p' : PlayerDV3) (l : list Z) :
  init_states_some mode_of rsample eps transition_model discrete unimix p l = Ok p' ->
  length (actions p') = length (actions p) /\
  length (recurrent_state p') = length (recurrent_state p) /\
  length (stochastic_state p') = length (stochastic_state p) /\
  num_envs p' = num_envs p /\ actions_dim p' = actions_dim p /\
  recurrent_state_size p' = recurrent_state_size p.
Proof.
  unfold init_states_some.
  destruct (gather (actions p) l) as [a_sel|]; [|discriminate]. cbn [bind].
  destruct (assign_rows (actions p) l _) as [a'|] eqn:Ea; [|discriminate]. cbn [bind].
  destruct (gather (recurrent_state p) l) as [h_sel|]; [|discriminate]. cbn [bind].
  destruct (assign_rows (recurrent_state p) l _) as [h'|] eqn:Eh; [|discriminate].
  cbn [bind].
  destruct (gather h' l) as [h_new|]; [|discriminate]. cbn [bind].
  destruct (RSSM_transition _ _ _ _ _ _ _ _) as [prior|]; [|discriminate]. cbn [bind].
  destruct (assign_rows (stochastic_state p) l _) as [z'|] eqn:Ez; [|discriminate].
  cbn [bind]. intros H. injection H as <-.
  cbn [actions recurrent_state stochastic_state num_envs actions_dim recurrent_state_size].
  rewrite (assign_rows_length _ _ _ Ea), (assign_rows_length _ _ _ Eh),
    (assign_rows_length _ _ _ Ez).
  auto 10.
Qed.

(** X27: naming every environment in [reset_envs] gives the same player as the
    reset without indices, provided the stored states have the configured
    sizes. *)
Theorem init_states_every_index :
  forall (p : PlayerDV3) (l : list Z),
    l <> [] ->
    length (actions p) = num_envs p -> length (recurrent_state p) = num_envs p ->
    length (stochastic_state p) = num_envs p ->
    Forall (fun a => length a = list_sum (actions_dim p)) (actions p) ->
    Forall (fun h => length h = recurrent_state_size p) (recurrent_state p) ->
    Forall (fun z => length z = (stoch * discrete)%nat) (stochastic_state p) ->
    Forall (valid_index (num_envs p)) l ->
    (forall j, (j < num_envs p)%nat -> indicated (num_envs p) l j = true) ->
    exists p', init p (Some l) = Ok p' /\ init p None = Ok p'.
Proof.
  intros p l Hne La Lh Lz Fa Fh Fz Hl Hall.
  destruct (@init_states_some_spec noise mode_of rsample eps transition_model discrete
              unimix stoch Hdiscrete Htransition Hmode p l (num_envs p) La Lh Lz Fz Hl)
    as [p1 [E1 N1]].
  destruct (@init_states_all_spec noise mode_of rsample eps transition_model discrete
              unimix stoch Hdiscrete Htransition Hmode p)
    as [p0 [E0 [L0a [L0h [L0z N0]]]]].
  destruct (init_states_some_frame _ _ E1) as [L1a [L1h [L1z [S1 [S2 S3]]]]].
  assert (T0 : num_envs p0 = num_envs p /\ actions_dim p0 = actions_dim p /\
               recurrent_state_size p0 = recurrent_state_size p).
  { unfold init_states_all in E0.
    destruct (RSSM_transition _ _ _ _ _ _ _ _) as [prior|]; [|discriminate].
    cbn [bind] in E0. injection E0 as <-. cbn. auto. }
  destruct T0 as [T1 [T2 T3]].
  assert (Hrows : forall j, (j < num_envs p)%nat ->
            nth_error (actions p1) j = nth_error (actions p0) j /\
            nth_error (recurrent_state p1) j = nth_error (recurrent_state p0) j /\
            nth_error (stochastic_state p1) j = nth_error (stochastic_state p0) j).
  { intros j Hj.
    destruct (nth_error (actions p) j) as [a|] eqn:Ha; [|apply nth_error_None in Ha; lia].
    destruct (nth_error (recurrent_state p) j) as [h|] eqn:Hh;
      [|apply nth_error_None in Hh; lia].
    destruct (nth_error (stochastic_state p) j) as [z|] eqn:Hz;
      [|apply nth_error_None in Hz; lia].
    destruct (N1 j a h z Ha Hh Hz) as [Q1 [Q2 Q3]]. rewrite (Hall j Hj) in Q1, Q2, Q3.
    destruct (N0 j Hj) as [R1 [R2 R3]].
    assert (Za : map (fun _ : R => 0) a = repeat 0 (list_sum (actions_dim p))).
    { rewrite map_const_repeat. f_equal. rewrite Forall_forall in Fa. apply Fa.
      eapply nth_error_In; eauto. }
    assert (Zh : map (fun _ : R => 0) h = repeat 0 (recurrent_state_size p)).
    { rewrite map_const_repeat. f_equal. rewrite Forall_forall in Fh. apply Fh.
      eapply nth_error_In; eauto. }
    rewrite Q1, Q2, Q3, R1, R2, R3, Za, Zh. auto. }
  assert (Ea : actions p1 = actions p0).
  { apply list_eq_by_nth; [lia|]. intros j x Hx.
    assert (Hj : (j < num_envs p)%nat)
      by (rewrite <- La, <- L1a; apply nth_error_Some; congruence).
    destruct (Hrows j Hj) as [Q _]. congruence. }
  assert (Eh : recurrent_state p1 = recurrent_state p0).
  { apply list_eq_by_nth; [lia|]. intros j x Hx.
    assert (Hj : (j < num_envs p)%nat)
      by (rewrite <- Lh, <- L1h; apply nth_error_Some; congruence).
    destruct (Hrows j Hj) as [_ [Q _]]. congruence. }
  assert (Ez : stochastic_state p1 = stochastic_state p0).
  { apply list_eq_by_nth; [lia|]. intros j x Hx.
    assert (Hj : (j < num_envs p)%nat)
      by (rewrite <- Lz, <- L1z; apply nth_error_Some; congruence).
    destruct (Hrows j Hj) as [_ [_ Q]]. congruence. }
  assert (E : p1 = p0).
  { destruct p1, p0. cbn in *. congruence. }
  exists p1. split.
  - unfold init_states. destruct l as [|i l]; [congruence|]. exact E1.
  - rewrite E. exact E0.
Qed.

End PlayerNetworks.

Lemma init_states_every_index_witness :
  exists p',
    init_states Toy.mode_of Toy.rsample Toy.eps Toy.transition_model Toy.discrete Toy.unimix
      (mkPlayer [[7]; [8]] [[5]; [6]] [[0; 1]; [0; 1]] 2 [1%nat] 1) (Some [(-1)%Z; 0%Z])
    = Ok p' /\
    init_states Toy.mode_of Toy.rsample Toy.eps Toy.transition_model Toy.discrete Toy.unimix
      (mkPlayer [[7]; [8]] [[5]; [6]] [[0; 1]; [0; 1]] 2 [1%nat] 1) None = Ok p'.
Proof.
  apply (@init_states_every_index unit Toy.mode_of Toy.rsample Toy.eps Toy.transition_model
           Toy.discrete Toy.unimix 1%nat).
  - unfold Toy.discrete. lia.
  - intros h. reflexivity.
  - intros l. apply toy_mode_length.
  - discriminate.
  - reflexivity.
  - reflexivity.
  - reflexivity.
  - repeat constructor.
  - repeat constructor.
  - repeat constructor.
  - repeat constructor; unfold valid_index; simpl; lia.
  - intros [|[|j]] Hj; [reflexivity | reflexivity | simpl in Hj; lia].
Defined.

End PlayerResetFacts.

(** ** Unimix: what the mixing returns *)

Module UnimixMore.

Import DreamerV3 UnimixFacts.
Local Open Scope R_scope.

(** X28: without mixing ([unimix <= 0]) the RSSM returns the numbers it was
    given, with the last two axes of the logits merged. *)
Theorem RSSM_uniform_mix_without_unimix :
  forall (eps u : R) (discrete : nat) (logits : Tensor),
    u <= 0 -> well_formed logits -> rssm_supported discrete (shape logits) ->
    RSSM_uniform_mix eps discrete u logits
    = Ok (mkTensor (firstn 2 (shape logits) ++ [numel (skipn 2 (shape logits))])
                   (data logits)).
Proof.
  intros eps u discrete [s d] Hu Hwf Hs. unfold well_formed in Hwf.
  cbn [shape data] in *. unfold RSSM_uniform_mix, dim. cbn [shape].
  destruct s as [|a [|b [|x [|y [|z s]]]]]; try contradiction.
  - destruct Hs as [Hab [Hk Hmod]].
    assert (Hx : exists N, x = (N * discrete)%nat).
    { exists (x / discrete)%nat. apply Nat.Div0.div_exact in Hmod. lia. }
    clear Hmod. destruct Hx as [N ->].
    cbn [length Nat.eqb]. rewrite view_split_last_3 by assumption.
    cbn [bind]. destruct (Rlt_dec 0 u) as [Hn|_]; [lra|].
    rewrite view_merge_last2_4 by assumption.
    cbn [firstn skipn app numel fold_right]. rewrite Nat.mul_1_r. reflexivity.
  - destruct Hs as [Hab [Hk ->]].
    cbn [length Nat.eqb negb bind]. destruct (Rlt_dec 0 u) as [Hn|_]; [lra|].
    rewrite view_merge_last2_4 by assumption.
    cbn [firstn skipn app numel fold_right]. rewrite Nat.mul_1_r. reflexivity.
Qed.

Lemma RSSM_uniform_mix_without_unimix_witness :
  RSSM_uniform_mix (1 / 4) 2 0 (mkTensor [1%nat; 1%nat; 4%nat] [1; 2; 3; 4])
  = Ok (mkTensor (firstn 2 [1%nat; 1%nat; 4%nat] ++ [numel (skipn 2 [1%nat; 1%nat; 4%nat])])
                 [1; 2; 3; 4]).
Proof.
  apply (@RSSM_uniform_mix_without_unimix (1 / 4) 0 2
           (mkTensor [1%nat; 1%nat; 4%nat] [1; 2; 3; 4])).
  - lra.
  - reflexivity.
  - cbn. repeat split; lia.
Defined.

(** X29: the actor's mixing with [0 < unimix]: when no mixed probability leaves
    [eps, 1 - eps], the class probabilities of the returned logits are the
    mixtures [(1 - unimix) * p + unimix / K] of the original ones, [K] being
    the size of the last axis. *)
Theorem Actor_uniform_mix_exact :
  forall (eps u : R) (m : nat) (logits : Tensor),
    0 < eps -> 0 < u -> shape logits <> [] ->
    (1 <= last (shape logits) 0)%nat ->
    length (data logits) = (m * last (shape logits) 0)%nat ->
    let K := last (shape logits) 0%nat in
    (forall g p, In g (chunks K (data logits)) -> In p (softmax g) ->
       eps <= (1 - u) * p + u * (1 / INR K) <= 1 - eps) ->
    exists out,
      Actor_uniform_mix eps u logits = Ok out /\
      categorical_probs K (data out)
      = map (fun g => map (fun p => (1 - u) * p + u * (1 / INR K)) (softmax g))
            (chunks K (data logits)).
Proof.
  intros eps u m logits He Hu Hs HK Hlen K Hin.
  unfold Actor_uniform_mix. destruct (Rlt_dec 0 u) as [_|Hn]; [|contradiction].
  exists (mix_tensor eps u K logits). split.
  - unfold K. destruct (shape logits); [congruence | reflexivity].
  - rewrite (@mix_tensor_probs eps u K K m logits HK eq_refl Hlen).
    apply map_ext_in. intros g Hg.
    destruct (@chunks_all K m (data logits)) as [Hall _]; [lia | exact Hlen |].
    rewrite Forall_forall in Hall.
    apply mix_slice_exact; auto. intros p Hp. apply (Hin g p Hg Hp).
Qed.

Lemma Actor_uniform_mix_exact_witness :
  exists out,
    Actor_uniform_mix (1 / 100) (1 / 2) (mkTensor [2%nat] [0; 0]) = Ok out /\
    categorical_probs 2 (data out)
    = map (fun g => map (fun p => (1 - 1 / 2) * p + 1 / 2 * (1 / INR 2)) (softmax g))
          (chunks 2 [0; 0]).
Proof.
  apply (@Actor_uniform_mix_exact (1 / 100) (1 / 2) 1 (mkTensor [2%nat] [0; 0])).
  - lra.
  - lra.
  - discriminate.
  - cbn. lia.
  - reflexivity.
  - cbn [shape data last chunks chunks_fuel length firstn skipn].
    intros g p [<-|[]] Hp. cbn [softmax map rsum] in Hp.
    rewrite exp_0 in Hp. cbn [In] in Hp.
    replace (INR 2) with 2 by (simpl; ring).
    destruct Hp as [<-|[<-|[]]]; lra.
Defined.

End UnimixMore.
